(** * wo2-oral-history-matching-pipeline: the concept-matching engine

    A shallow embedding of [batching.py], [response_cleaner.py],
    [openai_client.py], [chat_router.py], [matching.py] and the selection
    and boundary functions of [segments.py], and the
    properties of the token-budget batchers, the retrying chat wrapper, the
    response interpretation and the three match strategies.

    Conventions.
    - A Python [str] is a Rocq [string]. Whitespace, case and word-character
      tests are the ASCII ones; a character outside ASCII is carried as its
      bytes and is never whitespace, cased or a word character here.
    - A Python [int] is a [Z]; [len] results are [nat] injected into [Z].
    - A Python [float] is a value of an abstract type (class [PyFloat]): no
      property below depends on rounding.
    - What the repository imports from other packages (tiktoken, openai,
      json, numpy, sklearn) and from its own modules [prompts.py] and
      [models.py], which are not part of the sources at hand, is a field of
      the class [Externals] or a record read off the constructor calls.
    - Effects (the chat completion call, [time.sleep]) are threaded through
      a state-and-exception monad [M] whose state carries a log of events. *)

From stdpp Require Import gmap strings list sorting.
From Stdlib Require Import Ascii.
From Stdlib Require String.

Local Open Scope Z_scope.
Local Set Warnings "-register-all".

(** ** Python strings *)

Module PyStr.

(** [str.isspace] on ASCII: TAB..CR, FS..US and the space. *)
Definition is_space (c : ascii) : bool :=
  let n := nat_of_ascii c in
  (((9 <=? n) && (n <=? 13)) || ((28 <=? n) && (n <=? 32)))%nat.

Fixpoint lstrip (s : string) : string :=
  match s with
  | String c r => if is_space c then lstrip r else s
  | EmptyString => EmptyString
  end.

Fixpoint rstrip (s : string) : string :=
  match s with
  | EmptyString => EmptyString
  | String c r =>
      match rstrip r with
      | EmptyString => if is_space c then EmptyString else String c EmptyString
      | r' => String c r'
      end
  end.

(** [s.strip()] *)
Definition strip (s : string) : string := rstrip (lstrip s).

(** [s.startswith(p)] *)
Definition startswith (s p : string) : bool := String.prefix p s.

(** [s.endswith(p)] *)
Definition endswith (s p : string) : bool :=
  String.prefix (String.rev p) (String.rev s).

(** [s[n:]] for [0 <= n] *)
Fixpoint drop_front (n : nat) (s : string) : string :=
  match n, s with
  | O, _ => s
  | S n', String _ r => drop_front n' r
  | S _, EmptyString => EmptyString
  end.

(** [s[:n]] for [0 <= n] *)
Fixpoint take_front (n : nat) (s : string) : string :=
  match n, s with
  | O, _ => EmptyString
  | S n', String c r => String c (take_front n' r)
  | S _, EmptyString => EmptyString
  end.

(** [s[:-n]] for [0 < n] *)
Definition drop_back (n : nat) (s : string) : string :=
  take_front (String.length s - n) s.

(** [s.split(sep)] for a non-empty [sep]: left to right, occurrences do
    not overlap. [skip] counts the characters of a separator that was
    just recognised and is still to be passed over; [cur] is the piece
    being collected, reversed. *)
Fixpoint split_go (sep : string) (skip : nat) (cur : string) (s : string)
  : list string :=
  match s with
  | EmptyString => [String.rev cur]
  | String c r =>
      match skip with
      | S k => split_go sep k cur r
      | O =>
          if String.prefix sep s
          then String.rev cur :: split_go sep (String.length sep - 1) EmptyString r
          else split_go sep O (String c cur) r
      end
  end.

Definition split (s sep : string) : list string := split_go sep O EmptyString s.

(** [s.replace(a, b)] for single characters [a] and [b]. *)
Fixpoint replace_char (a b : ascii) (s : string) : string :=
  match s with
  | EmptyString => EmptyString
  | String c r =>
      String (if Ascii.eqb c a then b else c) (replace_char a b r)
  end.

(** [str.lower] on ASCII. *)
Definition lower_char (c : ascii) : ascii :=
  let n := nat_of_ascii c in
  if ((65 <=? n) && (n <=? 90))%nat then ascii_of_nat (n + 32) else c.

Fixpoint lower (s : string) : string :=
  match s with
  | EmptyString => EmptyString
  | String c r => String (lower_char c) (lower r)
  end.

(** [\w] on ASCII: letters, digits and the underscore. *)
Definition is_word (c : ascii) : bool :=
  let n := nat_of_ascii c in
  (((48 <=? n) && (n <=? 57)) || ((65 <=? n) && (n <=? 90))
   || ((97 <=? n) && (n <=? 122)) || (n =? 95))%nat.

Definition is_digit (c : ascii) : bool :=
  let n := nat_of_ascii c in ((48 <=? n) && (n <=? 57))%nat.

Definition first_char (s : string) : option ascii :=
  match s with
  | String c _ => Some c
  | EmptyString => None
  end.

End PyStr.

(** ** Floats, records and JSON values *)

(** Python floats and the conversions the code applies to them. *)
Class PyFloat := {
  pyfloat : Type;
  (** [float(n)] for an [int]; [None] is [OverflowError]. *)
  float_of_int : Z → option pyfloat;
  (** [float(s)] for a [str]; [None] is [ValueError]. *)
  float_of_str : string → option pyfloat;
  (** the literal [1.0] *)
  float_one : pyfloat;
  (** [x <= y] *)
  float_le : pyfloat → pyfloat → bool;
}.

(** [models.py], from the constructor calls in [thesaurus.py],
    [captions.py], [segments.py] and [matching.py]. *)
Record ThesaurusConcept := {
  uri : string;
  name : string;
  category : string;
  alternate_names : option (list string);
  description : option string;
  top_concept : list string;
  narrower : list string;
}.

Global Instance ThesaurusConcept_eq_dec : EqDecision ThesaurusConcept.
Proof. solve_decision. Defined.

Section Records.
Context `{PyFloat}.

Record Caption := {
  caption_start : pyfloat;
  caption_end : pyfloat;
  caption_text : string;
}.

Record Segment := {
  start : pyfloat;
  end_ : pyfloat;
  text : string;
  captions : list Caption;
}.

Record MatchedConcept := {
  concept : ThesaurusConcept;
  source : string;
  score : option pyfloat;
}.

(** What [json.loads] returns. A [JDict] lists the items of a [dict]:
    its keys are distinct. *)
Inductive json :=
| JNull
| JBool (b : bool)
| JInt (n : Z)
| JFloat (f : pyfloat)
| JStr (s : string)
| JList (l : list json)
| JDict (d : list (string * json)).

(** The argument of [time.sleep]: the [float] parsed from the error
    message, or the [int] 10. *)
Inductive wait_time :=
| WaitFloat (f : pyfloat)
| WaitInt (n : Z).

End Records.

(** ** Exceptions and results *)

Inductive exn :=
| IndexError
| AttributeError
| TypeError
| ValueError
| OverflowError
| JSONDecodeError
| RateLimitError (msg : string)   (* openai.RateLimitError; [msg] is [str(e)] *)
| OpenAIError (msg : string)      (* any other openai.OpenAIError *)
| TooManyAttempts.                (* Exception("Too many attempts, ...") *)

Global Instance exn_eq_dec : EqDecision exn.
Proof. solve_decision. Defined.

Inductive result (A : Type) :=
| Ok (a : A)
| Raise (e : exn).
Arguments Ok {A} a.
Arguments Raise {A} e.

Definition result_bind {A B} (r : result A) (k : A → result B) : result B :=
  match r with
  | Ok a => k a
  | Raise e => Raise e
  end.

(** Truth value of a list: [if xs:]. *)
Definition truthy {A} (l : list A) : bool :=
  match l with
  | [] => false
  | _ :: _ => true
  end.

(** ** The outside world *)

(** The arguments of [client.chat.completions.create] that vary. *)
Record Request := {
  req_api_key : string;
  req_model : string;
  req_system_message : string;
  req_prompt : string;
}.

(** What [client.chat.completions.create(...)] followed by
    [response.choices[0].message.content] yields. *)
Inductive api_outcome :=
| ApiContent (content : string)
| ApiRaise (e : exn).

Class Externals `{PyFloat} := {
  (** tiktoken: [encoding_for_model] ([None] is [KeyError]), the encoding it
      has for "gpt-4o", and [Encoding.encode]. *)
  encoding : Type;
  encoding_for_model : string → option encoding;
  encoding_gpt4o : encoding;
  encode : encoding → string → list Z;
  (** [prompts.py] *)
  _build_segment_selector_prompt : list Segment → string;
  _build_topdown_matching_prompt : list string → string → string;
  _build_match_validation_prompt : string → list string → string;
  (** [json.loads] on a [str]; [None] is [json.JSONDecodeError]. *)
  json_loads : string → option json;
  (** The chat completion service. *)
  World : Type;
  chat_completions_create : Request → World → api_outcome * World;
  (** What [time.sleep] does to the service. *)
  sleep_effect : wait_time → World → World;
  (** numpy and sklearn: the row [cosine_similarity(v.reshape(1, -1), m)[0]]
      and [ndarray.argsort]. *)
  ndarray : Type;
  cosine_similarity_row : ndarray → ndarray → list pyfloat;
  argsort : list pyfloat → list nat;
}.

(** ** batching.py *)

Section Batching.
Context `{Externals}.

(** Get the encoding for an OpenAI model using tiktoken, falling back to
    the one of "gpt-4o" on [KeyError]. *)
Definition _get_encoding_for_model (model : string) : encoding :=
  match encoding_for_model model with
  | Some e => e
  | None => encoding_gpt4o
  end.

(** The variables of the two batching loops. *)
Record batcher (A : Type) := {
  batches : list (list A);
  current_batch : list A;
  current_tokens : Z;
}.
Global Arguments batches {A} _.
Global Arguments current_batch {A} _.
Global Arguments current_tokens {A} _.

Definition batcher_init {A} : batcher A :=
  {| batches := []; current_batch := []; current_tokens := 0 |}.

Definition flush {A} (st : batcher A) : batcher A :=
  {| batches := batches st ++ [current_batch st];
     current_batch := [];
     current_tokens := 0 |}.

Definition push {A} (st : batcher A) (x : A) (count : Z) : batcher A :=
  {| batches := batches st;
     current_batch := current_batch st ++ [x];
     current_tokens := current_tokens st + count |}.

(** [if current_batch: batches.append(current_batch)] and [return]. *)
Definition finish {A} (st : batcher A) : list (list A) :=
  if truthy (current_batch st)
  then batches st ++ [current_batch st]
  else batches st.

Definition segment_token_count (enc : encoding) (segment : Segment) : Z :=
  let text := PyStr.strip (PyStr.replace_char "010"%char " "%char (text segment)) in
  Z.of_nat (length (encode enc text)) + 10.

Definition segment_step (enc : encoding) (dummy_prompt_tokens max_tokens : Z)
    (st : batcher Segment) (segment : Segment) : batcher Segment :=
  let token_count := segment_token_count enc segment in
  let st :=
    if bool_decide (current_tokens st + token_count + dummy_prompt_tokens > max_tokens)
    then (if truthy (current_batch st) then flush st else st)
    else st in
  push st segment token_count.

(** Splits the segments into batches based on the maximum amount of tokens
    allowed per request. [max_tokens] is the integer every caller passes. *)
Definition _batch_segments_by_tokens (segments : list Segment)
    (model : string) (max_tokens : Z) : list (list Segment) :=
  let enc := _get_encoding_for_model model in
  let dummy_prompt := _build_segment_selector_prompt [] in
  let dummy_prompt_tokens := Z.of_nat (length (encode enc dummy_prompt)) in
  finish (foldl (segment_step enc dummy_prompt_tokens max_tokens)
                batcher_init segments).

Definition label_token_count (enc : encoding) (label : string) : Z :=
  Z.of_nat (length (encode enc label)) + 5.

Definition label_step (enc : encoding) (available_tokens : Z)
    (st : batcher string) (label : string) : batcher string :=
  let count := label_token_count enc label in
  let st :=
    if bool_decide (current_tokens st + count > available_tokens)
       && truthy (current_batch st)
    then flush st
    else st in
  push st label count.

(** Splits the concepts into batches based on the maximum amount of tokens
    allowed per request. *)
Definition _batch_concept_labels_by_tokens (labels : list string)
    (segment_text : string) (model : string) (max_tokens : Z)
    : list (list string) :=
  let enc := _get_encoding_for_model model in
  let dummy_prompt := _build_topdown_matching_prompt [] segment_text in
  let dummy_prompt_tokens := Z.of_nat (length (encode enc dummy_prompt)) in
  let available_tokens := Z.max 0 (max_tokens - dummy_prompt_tokens) in
  finish (foldl (label_step enc available_tokens) batcher_init labels).

End Batching.

(** ** response_cleaner.py *)

Global Instance result_ret : MRet result := @Ok.
Global Instance result_mbind : MBind result := λ A B k r, result_bind r k.

(** Remove any Markdown highlighting. [split('</think>')[1]] raises
    [IndexError] when the separator does not occur. *)
Definition _clean_json_output (response_text : string) : result string :=
  let response_text := PyStr.strip response_text in
  response_text ←
    (if PyStr.startswith response_text "```json"
     then Ok (PyStr.drop_front 7 response_text)
     else if PyStr.startswith response_text "```"
     then Ok (PyStr.drop_front 3 response_text)
     else if PyStr.startswith response_text "<think>"
     then match PyStr.split response_text "</think>" !! 1%nat with
          | Some piece => Ok piece
          | None => Raise IndexError
          end
     else Ok response_text);
  let response_text :=
    if PyStr.endswith response_text "```"
    then PyStr.drop_back 3 response_text
    else response_text in
  Ok (PyStr.strip response_text).

(** ** matching.py: labels, response interpretation, deduplication *)

Definition concept_label (n : string) (d : option string) : string :=
  match d with
  | Some (String c r) => n +:+ " – " +:+ String c r
  | Some EmptyString | None => n
  end.

(** Create a label for a thesaurus concept containing both name and
    description. *)
Definition _generate_concept_labels (concepts : list ThesaurusConcept)
  : list string :=
  (λ c, concept_label (name c) (description c)) <$> concepts.

(** Helper function used to find narrower terms for a list of thesaurus
    concepts. *)
Definition _find_narrower_concepts
    (current_concepts target_concepts : list ThesaurusConcept)
  : list ThesaurusConcept :=
  let narrower_concept_uris :=
    foldl (λ acc concept, acc ++ narrower concept) [] current_concepts in
  filter (λ c, uri c ∈ narrower_concept_uris) target_concepts.

Section Interpretation.
Context `{PyFloat}.

(** [d.get(k)] on the items of a [dict]. *)
Fixpoint dict_get (d : list (string * json)) (k : string) : option json :=
  match d with
  | [] => None
  | (k', v) :: rest => if decide (k' = k) then Some v else dict_get rest k
  end.

(** [float(x)] for a value that came out of [json.loads]. *)
Definition py_float (x : json) : result pyfloat :=
  match x with
  | JBool b =>
      match float_of_int (if b then 1 else 0) with
      | Some f => Ok f
      | None => Raise OverflowError
      end
  | JInt n =>
      match float_of_int n with
      | Some f => Ok f
      | None => Raise OverflowError
      end
  | JFloat f => Ok f
  | JStr s =>
      match float_of_str s with
      | Some f => Ok f
      | None => Raise ValueError
      end
  | JNull | JList _ | JDict _ => Raise TypeError
  end.

(** [float(score) if score is not None else None] under
    [except (TypeError, ValueError): score_val = None]. *)
Definition score_value (score : option json) : result (option pyfloat) :=
  match score with
  | None | Some JNull => Ok None
  | Some x =>
      match py_float x with
      | Ok f => Ok (Some f)
      | Raise TypeError | Raise ValueError => Ok None
      | Raise e => Raise e
      end
  end.

(** One turn of the loop of [_extract_selected_names]. [.strip()] on a
    value that is not a [str] raises [AttributeError]. *)
Definition extract_item (selected : gmap string (option pyfloat)) (item : json)
  : result (gmap string (option pyfloat)) :=
  match item with
  | JDict d =>
      match dict_get d "concept" with
      | Some c =>
          name ← (match c with
                  | JStr s => Ok (PyStr.strip s)
                  | _ => Raise AttributeError
                  end);
          score_val ← score_value (dict_get d "score");
          Ok (<[name := score_val]> selected)
      | None => Ok selected
      end
  | JStr s => Ok (<[PyStr.strip s := None]> selected)
  | _ => Ok selected
  end.

Fixpoint result_foldl {A B} (f : B → A → result B) (b : B) (l : list A)
  : result B :=
  match l with
  | [] => Ok b
  | x :: rest => b' ← f b x; result_foldl f b' rest
  end.

(** Extract concept names and optional scores from the parsed LLM output. *)
Definition _extract_selected_names (parsed : list json)
  : result (gmap string (option pyfloat)) :=
  result_foldl extract_item ∅ parsed.

(** The loop [for c in concepts: if c.name.strip() in name_with_score: ...]. *)
Definition resolve_names (name_with_score : gmap string (option pyfloat))
    (concepts : list ThesaurusConcept) : list MatchedConcept :=
  foldl (λ matched c,
           match name_with_score !! PyStr.strip (name c) with
           | Some sc =>
               matched ++ [{| concept := c;
                              source := "Top-down matching";
                              score := sc |}]
           | None => matched
           end) [] concepts.

Definition deduplicate_step (acc : gset string * list MatchedConcept)
    (m : MatchedConcept) : gset string * list MatchedConcept :=
  let '(seen_uris, deduped) := acc in
  if decide (uri (concept m) ∉ seen_uris)
  then ({[uri (concept m)]} ∪ seen_uris, deduped ++ [m])
  else (seen_uris, deduped).

Definition deduplicate_matches (matches : list MatchedConcept)
  : list MatchedConcept :=
  (foldl deduplicate_step (∅, []) matches).2.

(** [re.search(r'\b' + re.escape(w) + r'\b', text)]: [w] occurs in [text]
    with a word boundary on either side. [prev] is the character before
    the current position. *)
Definition is_word_opt (c : option ascii) : bool :=
  match c with
  | Some c => PyStr.is_word c
  | None => false
  end.

Definition is_boundary (before after : option ascii) : bool :=
  xorb (is_word_opt before) (is_word_opt after).

Definition last_char (prev : option ascii) (w : string) : option ascii :=
  match String.rev w with
  | String c _ => Some c
  | EmptyString => prev
  end.

Definition word_at (w : string) (prev : option ascii) (s : string) : bool :=
  String.prefix w s
  && is_boundary prev (PyStr.first_char s)
  && is_boundary (last_char prev w)
       (PyStr.first_char (PyStr.drop_front (String.length w) s)).

Fixpoint search_word_from (w : string) (prev : option ascii) (s : string) : bool :=
  word_at w prev s
  || match s with
     | String c r => search_word_from w (Some c) r
     | EmptyString => false
     end.

Definition re_search_word (w text : string) : bool := search_word_from w None text.

(** Finds relevant thesaurus concepts based on exact occurrence of the full
    concept name in the text. *)
Definition match_segment_to_thesaurus_based_on_exact_occurrence
    (segment : Segment) (concepts : list ThesaurusConcept)
  : list MatchedConcept :=
  let text := PyStr.lower (text segment) in
  foldl (λ matches concept,
           if re_search_word (PyStr.lower (name concept)) text
           then matches ++ [{| concept := concept;
                               source := "Exact occurrence";
                               score := Some float_one |}]
           else matches) [] concepts.

End Interpretation.

Section Response.
Context `{Externals}.

(** Helper function used to parse the LLM response into a list of relevant
    matched concepts. *)
Definition _get_matched_concepts_from_response (response : string)
    (concepts : list ThesaurusConcept) : result (list MatchedConcept) :=
  clean_response ← _clean_json_output response;
  match json_loads clean_response with
  | None => Ok []                        (* except json.JSONDecodeError *)
  | Some (JList parsed) =>
      name_with_score ← _extract_selected_names parsed;
      if decide (name_with_score = ∅) then Ok []
      else Ok (resolve_names name_with_score concepts)
  | Some _ => Ok []                      (* not isinstance(parsed, list) *)
  end.

End Response.

(** ** Effects *)

Section Effects.
Context `{Externals}.

(** What a run leaves behind. [EvCreate] and [EvSleep] are the calls
    made to the chat completion service and to [time.sleep]. [EvLevel] and
    [EvMatched] are ghost events of the top-down matcher: the concepts whose
    labels are about to be put to the oracle, and the matches resolved from
    its answers. *)
Inductive event :=
| EvCreate (req : Request)
| EvSleep (t : wait_time)
| EvLevel (cs : list ThesaurusConcept)
| EvMatched (ms : list MatchedConcept).

Record State := {
  world : World;
  log : list event;
}.

Definition M (A : Type) : Type := State → result A * State.

Definition M_ret {A} (a : A) : M A := λ st, (Ok a, st).

Definition M_bind {A B} (m : M A) (k : A → M B) : M B :=
  λ st, match m st with
        | (Ok a, st') => k a st'
        | (Raise e, st') => (Raise e, st')
        end.

Definition raise {A} (e : exn) : M A := λ st, (Raise e, st).

(** [try: m  except Exception as e: handler e] *)
Definition try_catch {A} (m : M A) (handler : exn → M A) : M A :=
  λ st, match m st with
        | (Ok a, st') => (Ok a, st')
        | (Raise e, st') => handler e st'
        end.

Definition tell (e : event) : M unit :=
  λ st, (Ok (), {| world := world st; log := log st ++ [e] |}).

End Effects.

Global Instance M_mret `{Externals} : MRet M := @M_ret _ _.
Global Instance M_mbind `{Externals} : MBind M := λ A B k m, M_bind m k.

(** ** openai_client.py and chat_router.py *)

(** The longest run of digits and dots at the head of [s], and what
    follows it. *)
Fixpoint span_digits_dots (s : string) : string * string :=
  match s with
  | String c r =>
      if PyStr.is_digit c || Ascii.eqb c "."
      then let '(run, rest) := span_digits_dots r in (String c run, rest)
      else (EmptyString, s)
  | EmptyString => (EmptyString, EmptyString)
  end.

(** [try again in ([\d\.]+)s] matched at the head of [s]: the greedy run
    is followed by a character that is neither digit nor dot, so no
    shorter run can be followed by the letter s. *)
Definition match_try_again_at (s : string) : option string :=
  if String.prefix "try again in " s
  then match span_digits_dots (PyStr.drop_front 13 s) with
       | (String c run, String "s" _) => Some (String c run)
       | _ => None
       end
  else None.

(** [re.search(r"try again in ([\d\.]+)s", s)], giving [group(1)]. *)
Fixpoint re_search_try_again (s : string) : option string :=
  match match_try_again_at s with
  | Some g => Some g
  | None =>
      match s with
      | String _ r => re_search_try_again r
      | EmptyString => None
      end
  end.

Definition request (prompt api_key model system_message : string) : Request :=
  {| req_api_key := api_key; req_model := model;
     req_system_message := system_message; req_prompt := prompt |}.

Section Chat.
Context `{Externals}.

(** Creates a chat-query for the OpenAI API: the exception is printed and
    raised again. *)
Definition openai_client__chat (prompt api_key model system_message : string)
  : M string :=
  λ st,
    let req := request prompt api_key model system_message in
    let '(out, w) := chat_completions_create req (world st) in
    let st' := {| world := w; log := log st ++ [EvCreate req] |} in
    match out with
    | ApiContent content => (Ok content, st')
    | ApiRaise e => (Raise e, st')
    end.

(** [time.sleep(t)] *)
Definition time_sleep (t : wait_time) : M unit :=
  λ st, (Ok (), {| world := sleep_effect t (world st);
                   log := log st ++ [EvSleep t] |}).

(** The handler of [except openai.RateLimitError as e]. *)
Definition wait_after_rate_limit (error_msg : string) : M unit :=
  wait_time ←
    match re_search_try_again error_msg with
    | Some g =>
        match float_of_str g with
        | Some f => mret (WaitFloat f)
        | None => raise ValueError
        end
    | None => mret (WaitInt 10)
    end;
  time_sleep wait_time.

(** The loop of [_safe_chat_call], by the number of turns
    [max_retries - attempt] it still has. *)
Fixpoint safe_chat_loop (remaining : nat)
    (prompt api_key model system_message : string) : M string :=
  match remaining with
  | O => raise TooManyAttempts
  | S remaining' =>
      try_catch (openai_client__chat prompt api_key model system_message)
        (λ e, match e with
              | RateLimitError error_msg =>
                  wait_after_rate_limit error_msg;;
                  safe_chat_loop remaining' prompt api_key model system_message
              | _ => raise e
              end)
  end.

(** Calls _chat with intelligent retry and delay if a rate limit is hit. *)
Definition _safe_chat_call (prompt api_key model system_message : string)
    (max_retries : Z) : M string :=
  safe_chat_loop (Z.to_nat max_retries) prompt api_key model system_message.

(** Dispatches the chat request to the appropriate LLM backend based on the
    model name or prefix. [max_retries] takes its default, 5. *)
Definition chat_router__chat (prompt api_key model system_message : string)
  : M string :=
  if PyStr.startswith model "gpt-"
  then _safe_chat_call prompt api_key model system_message 5
  else raise ValueError.

(** ** matching.py: the top-down matcher *)

(** The loop of [_safe_get_relevant_concepts] over the attempts left. *)
Fixpoint safe_get_loop (attempts : list Z) (max_retries : Z)
    (prompt api_key model : string) (top_concepts : list ThesaurusConcept)
  : M (list MatchedConcept) :=
  match attempts with
  | [] => mret []
  | attempt :: rest =>
      response ← chat_router__chat prompt api_key model EmptyString;
      match _get_matched_concepts_from_response response top_concepts with
      | Ok matched => mret matched
      | Raise e =>
          (* except (TypeError, json.JSONDecodeError) *)
          if bool_decide (e = TypeError ∨ e = JSONDecodeError)
          then if decide (attempt = max_retries) then raise e
               else safe_get_loop rest max_retries prompt api_key model top_concepts
          else raise e
      end
  end.

(** Adds the option to retry finding relevant concepts. *)
Definition _safe_get_relevant_concepts (prompt api_key model : string)
    (top_concepts : list ThesaurusConcept) (max_retries : Z)
  : M (list MatchedConcept) :=
  safe_get_loop (seqZ 0 (max_retries + 1)) max_retries
    prompt api_key model top_concepts.

(** [for batch_labels in batched_labels: ...; relevant.extend(...)] *)
Fixpoint query_batches (batched_labels : list (list string))
    (segment : Segment) (api_key model : string)
    (candidates : list ThesaurusConcept) (relevant : list MatchedConcept)
  : M (list MatchedConcept) :=
  match batched_labels with
  | [] => mret relevant
  | batch_labels :: rest =>
      let prompt := _build_topdown_matching_prompt batch_labels (text segment) in
      relevant_batch_concepts ←
        _safe_get_relevant_concepts prompt api_key model candidates 1;
      query_batches rest segment api_key model candidates
        (relevant ++ relevant_batch_concepts)
  end.

(** The variables of the narrower-expansion loop. *)
Record topdown_state := {
  matches : list MatchedConcept;
  current_matches : list MatchedConcept;
  seen_uris : gset string;
}.

Definition matched_uris (ms : list MatchedConcept) : gset string :=
  list_to_set ((λ m, uri (concept m)) <$> ms).

Definition new_narrower_concepts (concepts : list ThesaurusConcept)
    (s : topdown_state) : list ThesaurusConcept :=
  let current_concepts := concept <$> current_matches s in
  let narrower_concepts := _find_narrower_concepts current_concepts concepts in
  filter (λ c, uri c ∉ seen_uris s) narrower_concepts.

(** The body of [while current_matches:]. [inr] is [break]. *)
Definition topdown_step (segment : Segment) (concepts : list ThesaurusConcept)
    (api_key model : string) (max_tokens : Z) (s : topdown_state)
  : M (topdown_state + list MatchedConcept) :=
  let new_narrower := new_narrower_concepts concepts s in
  if negb (truthy new_narrower) then mret (inr (matches s))
  else
    let narrower_labels := _generate_concept_labels new_narrower in
    let batched_narrower_labels :=
      _batch_concept_labels_by_tokens narrower_labels (text segment) model max_tokens in
    tell (EvLevel new_narrower);;
    relevant_narrower_matches ←
      query_batches batched_narrower_labels segment api_key model new_narrower [];
    tell (EvMatched relevant_narrower_matches);;
    if negb (truthy relevant_narrower_matches) then mret (inr (matches s))
    else mret (inl {| matches := matches s ++ relevant_narrower_matches;
                      current_matches := relevant_narrower_matches;
                      seen_uris := seen_uris s ∪ matched_uris relevant_narrower_matches |}).

(** The [while] loop, with [fuel] bounding the number of turns; [None]
    says the fuel ran out. *)
Fixpoint topdown_loop (fuel : nat) (segment : Segment)
    (concepts : list ThesaurusConcept) (api_key model : string)
    (max_tokens : Z) (s : topdown_state) : M (option (list MatchedConcept)) :=
  if negb (truthy (current_matches s)) then mret (Some (matches s))
  else
    match fuel with
    | O => mret None
    | S fuel' =>
        next ← topdown_step segment concepts api_key model max_tokens s;
        match next with
        | inl s' => topdown_loop fuel' segment concepts api_key model max_tokens s'
        | inr result => mret (Some result)
        end
    end.

(** Finds all relevant thesaurusconcepts based on top-down LLM-matching in
    the thesaurus. *)
Definition match_segment_topdown (fuel : nat) (segment : Segment)
    (concepts top_concepts : list ThesaurusConcept) (api_key model : string)
    (max_tokens : Z) : M (option (list MatchedConcept)) :=
  let top_concept_labels := _generate_concept_labels top_concepts in
  let batched_labels :=
    _batch_concept_labels_by_tokens top_concept_labels (text segment) model max_tokens in
  tell (EvLevel top_concepts);;
  relevant_top_matches ←
    query_batches batched_labels segment api_key model top_concepts [];
  tell (EvMatched relevant_top_matches);;
  if negb (truthy relevant_top_matches) then mret (Some [])
  else
    topdown_loop fuel segment concepts api_key model max_tokens
      {| matches := [];
         current_matches := relevant_top_matches;
         seen_uris := matched_uris relevant_top_matches |}.

(** ** matching.py: the embedding matcher *)

(** [l[-k:]] *)
Definition slice_last {A} (k : Z) (l : list A) : list A :=
  let n := Z.of_nat (length l) in
  let start := - k in
  let start := if bool_decide (start < 0) then Z.max (n + start) 0
               else Z.min start n in
  drop (Z.to_nat start) l.

(** Search the top_k most relevant thesaurusconcepts for a segment based on
    the embeddings. An index outside [concepts] raises [IndexError]. *)
Definition match_segment_to_thesaurus_based_on_embeddings
    (embedded_segment embedded_concepts : ndarray)
    (concepts : list ThesaurusConcept) (top_k : Z)
  : result (list MatchedConcept) :=
  let similarities := cosine_similarity_row embedded_segment embedded_concepts in
  let top_indices := reverse (slice_last top_k (argsort similarities)) in
  mapM (λ i, match concepts !! i, similarities !! i with
             | Some c, Some sim =>
                 Ok {| concept := c;
                       source := "Embedding similarities";
                       score := Some sim |}
             | _, _ => Raise IndexError
             end) top_indices.

End Chat.

(** ** Reading the log of a top-down match *)

Section Traces.
Context `{Externals}.

(** The events of the chat wrapper. *)
Definition io_event (e : event) : Prop :=
  match e with
  | EvCreate _ | EvSleep _ => True
  | EvLevel _ | EvMatched _ => False
  end.

(** [st'] is [st] after some calls to the service and to [time.sleep]. *)
Definition extends_io (st st' : State) : Prop :=
  ∃ evs, log st' = log st ++ evs ∧ Forall io_event evs.

(** The number of calls made to the chat completion service. *)
Fixpoint count_creates (evs : list event) : nat :=
  match evs with
  | [] => 0
  | EvCreate _ :: rest => S (count_creates rest)
  | _ :: rest => count_creates rest
  end.

(** The concept lists put to the oracle, level by level. *)
Fixpoint levels (evs : list event) : list (list ThesaurusConcept) :=
  match evs with
  | [] => []
  | EvLevel cs :: rest => cs :: levels rest
  | _ :: rest => levels rest
  end.

(** The uris of all the concepts put to the oracle, in order. *)
Definition queried_uris (evs : list event) : list string :=
  uri <$> concat (levels evs).

(** No level puts to the oracle a uri that is in [seen] or that was
    matched at an earlier level. *)
Fixpoint respects_seen (seen : gset string) (evs : list event) : Prop :=
  match evs with
  | [] => True
  | EvLevel cs :: rest =>
      (∀ c, c ∈ cs → uri c ∉ seen) ∧ respects_seen seen rest
  | EvMatched ms :: rest => respects_seen (seen ∪ matched_uris ms) rest
  | _ :: rest => respects_seen seen rest
  end.

(** The concepts of the pool whose uri is not in [seen]. *)
Definition unseen (concepts : list ThesaurusConcept) (seen : gset string)
  : list ThesaurusConcept :=
  filter (λ c, uri c ∉ seen) concepts.

(** A concept of the pool that a concept lists as narrower lies strictly
    below it. *)
Definition ranked (rank : string → nat)
    (concepts top_concepts : list ThesaurusConcept) : Prop :=
  ∀ c c', c ∈ top_concepts ++ concepts → c' ∈ concepts →
          uri c' ∈ narrower c → (rank (uri c') < rank (uri c))%nat.

(** The claim "each concept uri is put to the oracle at most once". *)
Definition each_uri_queried_once (evs : list event) : Prop :=
  NoDup (queried_uris evs).

(** A uri that has been matched is not put to the oracle afterwards. *)
Definition never_requeries_matched (evs : list event) : Prop :=
  ∀ before ms between cs after m c,
    evs = before ++ EvMatched ms :: between ++ EvLevel cs :: after →
    m ∈ ms → c ∈ cs → uri (concept m) ≠ uri c.

(** Every match of the frontier is a match of a known concept of rank at
    most [k]. *)
Definition frontier_bound (rank : string → nat)
    (concepts top_concepts : list ThesaurusConcept) (k : nat)
    (ms : list MatchedConcept) : Prop :=
  ∀ m, m ∈ ms →
       concept m ∈ top_concepts ++ concepts ∧ (rank (uri (concept m)) ≤ k)%nat.

End Traces.

(** ** Reading the result of the embedding matcher *)

Section EmbeddingReading.
Context `{PyFloat}.

(** The similarity at index [i] is at most the one at index [j]. *)
Definition sim_le (sims : list pyfloat) (i j : nat) : Prop :=
  match sims !! i, sims !! j with
  | Some a, Some b => float_le a b = true
  | _, _ => False
  end.

Global Instance sim_le_dec sims : RelDecision (sim_le sims).
Proof.
  intros i j. unfold sim_le.
  destruct (sims !! i), (sims !! j); apply _.
Defined.


Definition embedding_match (c : ThesaurusConcept) (sim : pyfloat)
  : MatchedConcept :=
  {| concept := c; source := "Embedding similarities"; score := Some sim |}.



End EmbeddingReading.

(** ** Reference definitions and example data *)

Section Reference.
Context `{PyFloat}.

(** Deduplication as the specification words it: keep the first occurrence
    of each distinct concept uri, drop the later ones, keep the order. *)
Fixpoint first_occurrences (ms : list MatchedConcept) : list MatchedConcept :=
  match ms with
  | [] => []
  | m :: rest =>
      m :: filter (λ x, uri (concept x) ≠ uri (concept m)) (first_occurrences rest)
  end.

(** The loop of [deduplicate_matches] started from a given [seen_uris]. *)
Fixpoint dedup_from (seen_uris : gset string) (ms : list MatchedConcept)
  : list MatchedConcept :=
  match ms with
  | [] => []
  | m :: rest =>
      if decide (uri (concept m) ∉ seen_uris)
      then m :: dedup_from ({[uri (concept m)]} ∪ seen_uris) rest
      else dedup_from seen_uris rest
  end.

Definition topdown_match (c : ThesaurusConcept) : MatchedConcept :=
  {| concept := c; source := "Top-down matching"; score := None |}.

Definition exact_match (c : ThesaurusConcept) : MatchedConcept :=
  {| concept := c; source := "Exact occurrence"; score := Some float_one |}.

End Reference.

Definition mk_concept (u n : string) (top narrow : list string)
  : ThesaurusConcept :=
  {| uri := u; name := n; category := "other"; alternate_names := None;
     description := None; top_concept := top; narrower := narrow |}.

(** The thesaurus of the scenario: A (top, narrower B), B, C (top). *)
Definition concept_A : ThesaurusConcept := mk_concept "uri:A" "A" ["scheme"] ["uri:B"].
Definition concept_B : ThesaurusConcept := mk_concept "uri:B" "B" [] [].
Definition concept_C : ThesaurusConcept := mk_concept "uri:C" "C" ["scheme"] [].

(** A cycle: X lists Y as narrower and Y lists X. *)
Definition concept_X : ThesaurusConcept := mk_concept "uri:X" "X" ["scheme"] ["uri:Y"].
Definition concept_Y : ThesaurusConcept := mk_concept "uri:Y" "Y" [] ["uri:X"].

(** A concept with two parents: P lists Q and R, and Q lists R. *)
Definition concept_P : ThesaurusConcept :=
  mk_concept "uri:P" "P" ["scheme"] ["uri:Q"; "uri:R"].
Definition concept_Q : ThesaurusConcept := mk_concept "uri:Q" "Q" [] ["uri:R"].
Definition concept_R : ThesaurusConcept := mk_concept "uri:R" "R" [] [].

Definition rank_PQR (u : string) : nat :=
  if decide (u = "uri:P") then 2
  else if decide (u = "uri:Q") then 1
  else 0.

Definition concept_camp : ThesaurusConcept := mk_concept "uri:camp" "Camp" [] [].

(** ** A scripted environment

    An instance of the external interfaces on which the code can be run:
    decimal numbers for floats, one token per character, prompts that list
    their labels, a reader for JSON arrays of plain strings, a service that
    answers from a script, and a stable insertion sort for [argsort]. *)

Module Scripted.

(** A decimal [m / 10^d]. *)
Definition decimal : Type := Z * nat.

Definition digit_value (c : ascii) : Z := Z.of_nat (nat_of_ascii c) - 48.

(** Digits with at most one dot among them, read left to right; [acc] is
    the number so far and [dot] says whether the dot has been passed. *)
Fixpoint read_decimal (s : string) (acc : decimal) (dot seen_digit : bool)
  : option decimal :=
  match s with
  | EmptyString => if seen_digit then Some acc else None
  | String c r =>
      if PyStr.is_digit c
      then read_decimal r
             (acc.1 * 10 + digit_value c, if dot then S acc.2 else acc.2)
             dot true
      else if Ascii.eqb c "." && negb dot
      then read_decimal r acc true seen_digit
      else None
  end.

Definition decimal_le (x y : decimal) : bool :=
  bool_decide (x.1 * 10 ^ Z.of_nat y.2 ≤ y.1 * 10 ^ Z.of_nat x.2).

Global Instance float : PyFloat := {|
  pyfloat := decimal;
  float_of_int n := Some (n, O);
  float_of_str s := read_decimal s (0, O) false false;
  float_one := (1, O);
  float_le := decimal_le;
|}.

(** One token per character. *)
Definition tokens (s : string) : list Z :=
  (λ c, Z.of_nat (nat_of_ascii c)) <$> String.list_ascii_of_string s.

Definition join_labels (labels : list string) : string :=
  foldr (λ l acc, l +:+ ";" +:+ acc) EmptyString labels.

(** JSON arrays of plain strings: ["x", "y"]. [cur] is the string being
    read (reversed) when inside quotes. *)
Inductive reader :=
| RStart | RItem | RIn (cur : string) | RAfter | RDone.

Fixpoint read_array (s : string) (st : reader) (acc : list string)
  : option (list string) :=
  match s with
  | EmptyString => match st with RDone => Some acc | _ => None end
  | String c r =>
      match st with
      | RStart => if Ascii.eqb c "[" then read_array r RItem acc else None
      | RItem =>
          if Ascii.eqb c "034" then read_array r (RIn EmptyString) acc
          else if Ascii.eqb c "]" then
            match acc with [] => read_array r RDone acc | _ => None end
          else if Ascii.eqb c " " then read_array r RItem acc
          else None
      | RIn cur =>
          if Ascii.eqb c "034" then read_array r RAfter (acc ++ [String.rev cur])
          else read_array r (RIn (String c cur)) acc
      | RAfter =>
          if Ascii.eqb c "," then read_array r RItem acc
          else if Ascii.eqb c "]" then read_array r RDone acc
          else if Ascii.eqb c " " then read_array r RAfter acc
          else None
      | RDone => None
      end
  end.

(** The text of an array of names, as the oracle writes it. *)
Definition quoted (s : string) : string := String "034" (s +:+ String "034" EmptyString).

Fixpoint array_items (names : list string) : string :=
  match names with
  | [] => EmptyString
  | [n] => quoted n
  | n :: rest => quoted n +:+ ", " +:+ array_items rest
  end.

Definition array_of (names : list string) : string :=
  "[" +:+ array_items names +:+ "]".

Definition loads (s : string) : option json :=
  (λ names, JList (JStr <$> names)) <$> read_array s RStart [].

(** Stable insertion sort of the indices of [sims], ascending. *)
Definition sim_at (sims : list decimal) (i : nat) : decimal :=
  default (0, O) (sims !! i).

Fixpoint insert_index (sims : list decimal) (i : nat) (sorted : list nat)
  : list nat :=
  match sorted with
  | [] => [i]
  | j :: rest =>
      if decimal_le (sim_at sims i) (sim_at sims j)
      then i :: j :: rest
      else j :: insert_index sims i rest
  end.

Definition argsort_stable (sims : list decimal) : list nat :=
  foldr (insert_index sims) [] (seq 0 (length sims)).

(** The service answers its [n]-th call with the [n]-th entry of the
    script, and with an empty array when the script is over. *)
Definition answer (script : list api_outcome) (n : nat) : api_outcome :=
  default (ApiContent "[]") (script !! n).

Definition env (script : list api_outcome) : Externals := {|
  encoding := unit;
  encoding_for_model _ := None;
  encoding_gpt4o := tt;
  encode _ := tokens;
  _build_segment_selector_prompt _ := "Select the segments.";
  _build_topdown_matching_prompt labels segment_text :=
    "Labels: " +:+ join_labels labels +:+ " Text: " +:+ segment_text;
  _build_match_validation_prompt segment_text labels :=
    "Validate: " +:+ join_labels labels +:+ " Text: " +:+ segment_text;
  json_loads := loads;
  World := nat;
  chat_completions_create _ n := (answer script n, S n);
  sleep_effect _ n := n;
  ndarray := list decimal;
  cosine_similarity_row _ embedded_concepts := embedded_concepts;
  argsort := argsort_stable;
|}.

Definition segment (t : string) : Segment :=
  {| start := (0, O); end_ := (1, O); text := t; captions := [] |}.

Definition init (script : list api_outcome) : @State float (env script) :=
  @Build_State float (env script) O [].

End Scripted.

(** ** The batching contract *)

(** Both loops are instances of one greedy step: close the current batch
    when it is non-empty and the next item would take it past [limit]. *)
Definition greedy_step {A} (cost : A → Z) (limit : Z)
    (st : batcher A) (x : A) : batcher A :=
  push (if bool_decide (current_tokens st + cost x > limit)
           && truthy (current_batch st)
        then flush st else st) x (cost x).

Definition total_cost {A} (cost : A → Z) (b : list A) : Z :=
  foldr (λ x acc, cost x + acc) 0 b.

(** A batch as the contract wants it: not empty; within the budget once
    the overhead is added, or else a single item that is too large on its
    own; and an item that is too large on its own has the batch to itself. *)
Definition batch_ok {A} (cost : A → Z) (overhead budget : Z) (b : list A) : Prop :=
  b ≠ []
  ∧ (overhead + total_cost cost b ≤ budget
     ∨ ∃ x, b = [x] ∧ cost x > budget - overhead)
  ∧ (∀ x, x ∈ b → cost x > budget - overhead → b = [x]).

(** The invariant of the greedy loop, against the limit the loop compares
    with. *)
Definition batch_fits {A} (cost : A → Z) (limit : Z) (b : list A) : Prop :=
  b ≠ [] ∧ (total_cost cost b ≤ limit ∨ ∃ x, b = [x] ∧ cost x > limit).

Definition batcher_inv {A} (cost : A → Z) (limit : Z) (st : batcher A) : Prop :=
  Forall (batch_fits cost limit) (batches st)
  ∧ current_tokens st = total_cost cost (current_batch st)
  ∧ (current_batch st = [] ∨ batch_fits cost limit (current_batch st)).

(** ** Further operations on floats *)

(** Arithmetic and comparisons between a [float] and an [int], as
    [batching.py] and [segments.py] use them. *)
Class PyFloatArith `{PyFloat} := {
  (** [x + n] *)
  float_add_int : pyfloat → Z → pyfloat;
  (** [n <= x] *)
  int_le_float : Z → pyfloat → bool;
  (** [x < n] *)
  float_lt_int : pyfloat → Z → bool;
}.

Global Instance Scripted_float_arith : @PyFloatArith Scripted.float := {|
  float_add_int x n := (x.1 + n * 10 ^ Z.of_nat x.2, x.2) : @pyfloat Scripted.float;
  int_le_float n x := bool_decide (n * 10 ^ Z.of_nat x.2 ≤ x.1);
  float_lt_int x n := bool_decide (x.1 < n * 10 ^ Z.of_nat x.2);
|}.

(** ** batching.py: the first minutes of captions *)

Section FirstBatch.
Context `{PyFloat} `{!PyFloatArith}.

(** [for caption in captions: if caption.end <= end_limit: batch.append(caption)
    else: break] *)
Fixpoint captions_until (end_limit : pyfloat) (caps : list Caption)
  : list Caption :=
  match caps with
  | [] => []
  | caption :: rest =>
      if float_le (caption_end caption) end_limit
      then caption :: captions_until end_limit rest
      else []
  end.

(** Returns the first batch of captions covering up to [max_minutes]
    minutes, based on the [end] time of each caption. *)
Definition _first_batch_with_x_minutes_of_captions (caps : list Caption)
    (max_minutes : Z) : list Caption :=
  match caps with
  | [] => []
  | first :: _ =>
      let max_duration := max_minutes * 60 in
      let end_limit := float_add_int (caption_end first) max_duration in
      captions_until end_limit caps
  end.

End FirstBatch.

(** ** matching.py: validation of matches *)

(** Create a label for a matched thesaurus concept containing both name and
    description. *)
Definition _generate_matched_concept_labels `{PyFloat}
    (concepts : list MatchedConcept) : list string :=
  (λ c, concept_label (name (concept c)) (description (concept c))) <$> concepts.

(** The loop [for mc in concepts: if concept_name in name_to_score: ...] of
    [_get_revelant_matched_concepts_from_response]. *)
Definition revalidate `{PyFloat} (name_to_score : gmap string (option pyfloat))
    (concepts : list MatchedConcept) : list MatchedConcept :=
  foldl (λ validated_matches mc,
           match name_to_score !! PyStr.strip (name (concept mc)) with
           | Some new_score =>
               validated_matches
               ++ [{| concept := concept mc;
                      source := source mc;
                      score := match new_score with
                               | Some f => Some f
                               | None => score mc
                               end |}]
           | None => validated_matches
           end) [] concepts.

Section Validation.
Context `{Externals}.

(** Parses the LLM response and couples the optional scores to the existing
    matches. The loop that fills [name_to_score] has the statements of the
    loop of [_extract_selected_names]. *)
Definition _get_revelant_matched_concepts_from_response (response : string)
    (concepts : list MatchedConcept) : result (list MatchedConcept) :=
  clean_response ← _clean_json_output response;
  match json_loads clean_response with
  | None => Ok []
  | Some (JList parsed) =>
      name_to_score ← result_foldl extract_item ∅ parsed;
      if decide (name_to_score = ∅) then Ok []
      else Ok (revalidate name_to_score concepts)
  | Some _ => Ok []
  end.

(** A result taken into the monad. *)
Definition M_of_result {A} (r : result A) : M A := λ st, (r, st).

(** Let an LLM validate the matches generated. *)
Definition llm_validate_segment_matches (segment : Segment)
    (matched_concepts : list MatchedConcept) (api_key model : string)
  : M (list MatchedConcept) :=
  let concept_labels := _generate_matched_concept_labels matched_concepts in
  let prompt := _build_match_validation_prompt (text segment) concept_labels in
  response ← chat_router__chat prompt api_key model EmptyString;
  M_of_result (_get_revelant_matched_concepts_from_response response matched_concepts).

End Validation.

(** ** segments.py: selection of segments *)

Section Selection.
Context `{Externals} `{!PyFloatArith}.

(** What [if 0 <= i < len(batch): selected_segments.append(batch[i])] does
    for one item [i] of the answer: it appends [batch[n]], or passes on, or
    raises ([TypeError] on comparing with a value that is not a number, or
    on indexing with a float). *)
Inductive index_step :=
| IndexAt (n : Z)
| IndexSkip
| IndexAbort.

Definition classify_index (len : Z) (i : json) : index_step :=
  match i with
  | JInt n => if bool_decide (0 ≤ n < len) then IndexAt n else IndexSkip
  | JBool b =>
      let n := if b then 1 else 0 in
      if bool_decide (0 ≤ n < len) then IndexAt n else IndexSkip
  | JFloat f =>
      if int_le_float 0 f && float_lt_int f len then IndexAbort else IndexSkip
  | JNull | JStr _ | JList _ | JDict _ => IndexAbort
  end.

(** The loop over [selected_indices]; an exception ends it and is caught by
    [except Exception], the segments appended so far stay. *)
Fixpoint select_loop (batch : list Segment) (selected_indices : list json)
    (selected_segments : list Segment) : list Segment :=
  match selected_indices with
  | [] => selected_segments
  | i :: rest =>
      match classify_index (Z.of_nat (length batch)) i with
      | IndexAt n =>
          match batch !! Z.to_nat n with
          | Some segment => select_loop batch rest (selected_segments ++ [segment])
          | None => selected_segments
          end
      | IndexSkip => select_loop batch rest selected_segments
      | IndexAbort => selected_segments
      end
  end.

(** The items the loop goes through. A value that is not a list either
    cannot be iterated or yields strings (the characters of a [str], the
    keys of a [dict]), on which the first comparison raises: nothing is
    appended, as for the empty list. *)
Definition iterated_items (v : json) : list json :=
  match v with
  | JList l => l
  | _ => []
  end.

Definition selected_indices_of (clean_response : json) : list json :=
  match clean_response with
  | JDict d =>
      match dict_get d "relevant_segments" with
      | Some v => iterated_items v
      | None => []
      end
  | JList l => l
  | _ => []
  end.

(** The [try] block for one batch. *)
Definition select_from_response (batch : list Segment) (response_text : string)
    (selected_segments : list Segment) : list Segment :=
  match _clean_json_output response_text with
  | Raise _ => selected_segments
  | Ok clean_response =>
      match json_loads clean_response with
      | None => selected_segments
      | Some parsed =>
          select_loop batch (selected_indices_of parsed) selected_segments
      end
  end.

Fixpoint select_batches (batched : list (list Segment)) (api_key model : string)
    (selected_segments : list Segment) : M (list Segment) :=
  match batched with
  | [] => mret selected_segments
  | batch :: rest =>
      let prompt := _build_segment_selector_prompt batch in
      response_text ←
        chat_router__chat prompt api_key model
          "You help determine which interview segments contain valuable content about WW2.";
      select_batches rest api_key model
        (select_from_response batch response_text selected_segments)
  end.

Definition select_segments_to_be_enriched (segments : list Segment)
    (api_key model : string) (max_tokens : Z) : M (list Segment) :=
  select_batches (_batch_segments_by_tokens segments model max_tokens)
    api_key model [].

End Selection.

(** ** segments.py: segments from boundaries *)

Section Boundaries.
Context `{PyFloat}.

(** [sep.join(parts)] *)
Fixpoint py_join (sep : string) (parts : list string) : string :=
  match parts with
  | [] => EmptyString
  | [p] => p
  | p :: rest => p +:+ sep +:+ py_join sep rest
  end.

(** [[captions[idx] for idx in indices if 0 <= idx < len(captions)]] *)
Definition captions_at (caps : list Caption) (indices : list Z) : list Caption :=
  omap (λ idx, if bool_decide (0 ≤ idx < Z.of_nat (length caps))
               then caps !! Z.to_nat idx else None) indices.

(** Constructs a Segment object from caption indices and caption list. *)
Definition _build_segment_from_indices (caps : list Caption) (indices : list Z)
  : result Segment :=
  let segment_captions := captions_at caps indices in
  match segment_captions, last segment_captions with
  | first :: _, Some final =>
      Ok {| start := caption_start first;
            end_ := caption_end final;
            text := py_join " "
                      ((λ c, PyStr.strip
                               (PyStr.replace_char "010"%char " "%char (caption_text c)))
                         <$> segment_captions);
            captions := segment_captions |}
  | _, _ => Raise ValueError
  end.

(** The loop of [create_segments_from_boundaries]; the end of a range is
    the next boundary, or [len(captions)] after the last one. *)
Fixpoint boundaries_loop (caps : list Caption) (boundaries : list Z)
    (segments : list Segment) : result (list Segment) :=
  match boundaries with
  | [] => Ok segments
  | start_idx :: rest =>
      let end_idx := match rest with
                     | next :: _ => next
                     | [] => Z.of_nat (length caps)
                     end in
      segment ← _build_segment_from_indices caps
                  (seqZ start_idx (end_idx - start_idx));
      boundaries_loop caps rest (segments ++ [segment])
  end.

(** Creates segments based on manually set boundaries. *)
Definition create_segments_from_boundaries (caps : list Caption)
    (boundaries : list Z) : result (list Segment) :=
  boundaries_loop caps boundaries [].

End Boundaries.

(** ** Greedy filling *)

(** The batch [b] was closed late: the first item of the next batch did
    not fit into it any more. *)
Definition closed_late {A} (cost : A → Z) (limit : Z) (b next : list A) : Prop :=
  match next with
  | x :: _ => total_cost cost b + cost x > limit
  | [] => True
  end.

(** Every batch but the last was closed late. *)
Fixpoint greedy_chain {A} (cost : A → Z) (limit : Z) (bs : list (list A)) : Prop :=
  match bs with
  | b :: tl =>
      match tl with
      | next :: _ => closed_late cost limit b next ∧ greedy_chain cost limit tl
      | [] => True
      end
  | [] => True
  end.

(** The invariant of the greedy loop that carries [greedy_chain]. *)
Definition greedy_inv {A} (cost : A → Z) (limit : Z) (st : batcher A) : Prop :=
  greedy_chain cost limit (batches st ++ [current_batch st])
  ∧ (current_batch st = [] → batches st = [])
  ∧ current_tokens st = total_cost cost (current_batch st).

(** ** Reading an answer of the oracle *)

(** The item [item] of the parsed answer names [n]: it is the string [n],
    or an object whose "concept" is the string [n], up to surrounding
    white space. *)
Definition names_item `{PyFloat} (item : json) (n : string) : Prop :=
  (∃ s, item = JStr s ∧ n = PyStr.strip s)
  ∨ (∃ d s, item = JDict d ∧ dict_get d "concept" = Some (JStr s)
            ∧ n = PyStr.strip s).

(** The score the item [item] of the parsed answer carries: the float made
    of the value under "score" of an object, when there is one and it can
    be made a float. *)
Definition item_score `{PyFloat} (item : json) : option pyfloat :=
  match item with
  | JDict d =>
      match score_value (dict_get d "score") with
      | Ok sc => sc
      | Raise _ => None
      end
  | _ => None
  end.

(** [item] is the last item of the parsed answer that names [n]. *)
Definition last_naming `{PyFloat} (parsed : list json) (n : string) (item : json)
  : Prop :=
  ∃ pre post, parsed = pre ++ item :: post
              ∧ names_item item n
              ∧ ∀ it, it ∈ post → ¬ names_item it n.

(** [v] is the match [mc] after validation against the parsed answer: same
    concept, same source, and the score that the last item naming the
    concept carries, or the score [mc] had when that item carries none. *)
Definition validated_from `{PyFloat} (parsed : list json) (mc v : MatchedConcept)
  : Prop :=
  concept v = concept mc ∧ source v = source mc
  ∧ ∃ item, last_naming parsed (PyStr.strip (name (concept mc))) item
            ∧ score v = match item_score item with
                        | Some f => Some f
                        | None => score mc
                        end.

(** [v] is the match [mc] after validation against the response: the
    response cleans and parses to a list, against which [v] is validated. *)
Definition validated_by `{Externals} (response : string) (mc v : MatchedConcept)
  : Prop :=
  ∃ clean parsed,
    _clean_json_output response = Ok clean
    ∧ json_loads clean = Some (JList parsed)
    ∧ validated_from parsed mc v.

(** ** A service that always answers the same *)

(** The scripted environment, with a service whose every call has the
    outcome [out]. *)
Definition always_env (out : api_outcome) : Externals := {|
  encoding := unit;
  encoding_for_model _ := None;
  encoding_gpt4o := tt;
  encode _ := Scripted.tokens;
  _build_segment_selector_prompt _ := "Select the segments.";
  _build_topdown_matching_prompt labels segment_text :=
    "Labels: " +:+ Scripted.join_labels labels +:+ " Text: " +:+ segment_text;
  _build_match_validation_prompt segment_text labels :=
    "Validate: " +:+ Scripted.join_labels labels +:+ " Text: " +:+ segment_text;
  json_loads := Scripted.loads;
  World := nat;
  chat_completions_create _ n := (out, S n);
  sleep_effect _ n := n;
  ndarray := list Scripted.decimal;
  cosine_similarity_row _ embedded_concepts := embedded_concepts;
  argsort := Scripted.argsort_stable;
|}.

Definition always_init (out : api_outcome) : @State _ (always_env out) :=
  @Build_State _ (always_env out) O [].

(** The lists of matches resolved, level by level. *)
Fixpoint matched_lists `{Externals} (evs : list event) : list (list MatchedConcept) :=
  match evs with
  | [] => []
  | EvMatched ms :: rest => ms :: matched_lists rest
  | _ :: rest => matched_lists rest
  end.

(** ** A service that answers with indices *)

Fixpoint read_digits (s : string) (acc : Z) : option Z :=
  match s with
  | EmptyString => Some acc
  | String c r =>
      if PyStr.is_digit c
      then read_digits r (10 * acc + (Z.of_nat (nat_of_ascii c) - 48))
      else None
  end.

Definition read_index (s : string) : option Z :=
  match PyStr.strip s with
  | EmptyString => None
  | t => read_digits t 0
  end.

(** A reader of arrays of natural numbers, as [[1, 0, 7]]. *)
Definition loads_indices (s : string) : option (@json Scripted.float) :=
  if PyStr.startswith s "[" && PyStr.endswith s "]"
  then (λ ns, JList (JInt <$> ns))
         <$> mapM read_index (PyStr.split (PyStr.drop_back 1 (PyStr.drop_front 1 s)) ",")
  else None.

(** The scripted environment, reading index arrays instead of name
    arrays. *)
Definition index_env (script : list api_outcome) : @Externals Scripted.float := {|
  encoding := unit;
  encoding_for_model _ := None;
  encoding_gpt4o := tt;
  encode _ := Scripted.tokens;
  _build_segment_selector_prompt _ := "Select the segments.";
  _build_topdown_matching_prompt labels segment_text :=
    "Labels: " +:+ Scripted.join_labels labels +:+ " Text: " +:+ segment_text;
  _build_match_validation_prompt segment_text labels :=
    "Validate: " +:+ Scripted.join_labels labels +:+ " Text: " +:+ segment_text;
  json_loads := loads_indices;
  World := nat;
  chat_completions_create _ n := (Scripted.answer script n, S n);
  sleep_effect _ n := n;
  ndarray := list Scripted.decimal;
  cosine_similarity_row _ embedded_concepts := embedded_concepts;
  argsort := Scripted.argsort_stable;
|}.

Definition index_init (script : list api_outcome) : @State _ (index_env script) :=
  @Build_State _ (index_env script) O [].

(** ** A service that answers with scored names *)

(** The text of one scored name, as the oracle writes it:
    an object with the keys "concept" and "score". *)
Definition scored_item (n sc : string) : string :=
  "{" +:+ Scripted.quoted "concept" +:+ ": " +:+ Scripted.quoted n +:+ ", "
  +:+ Scripted.quoted "score" +:+ ": " +:+ sc +:+ "}".

Fixpoint scored_items (items : list (string * string)) : string :=
  match items with
  | [] => EmptyString
  | [(n, sc)] => scored_item n sc
  | (n, sc) :: rest => scored_item n sc +:+ ", " +:+ scored_items rest
  end.

Definition scored_array (items : list (string * string)) : string :=
  "[" +:+ scored_items items +:+ "]".

(** One object of a scored answer, without its braces. *)
Definition read_scored (inside : string) : option (@json Scripted.float) :=
  let opening := Scripted.quoted "concept" +:+ ": " +:+ String "034" EmptyString in
  let middle :=
    String "034" EmptyString +:+ ", " +:+ Scripted.quoted "score" +:+ ": " in
  if PyStr.startswith inside opening
  then match PyStr.split (PyStr.drop_front (String.length opening) inside) middle with
       | [n; sc] =>
           match Scripted.read_decimal sc (0, O) false false with
           | Some f =>
               Some (@JDict Scripted.float
                       [("concept", JStr n); ("score", @JFloat Scripted.float f)])
           | None => None
           end
       | _ => None
       end
  else None.

(** A reader of JSON arrays of objects with a "concept" and a "score". *)
Definition loads_scored (s : string) : option (@json Scripted.float) :=
  if PyStr.startswith s "[{" && PyStr.endswith s "}]"
  then match mapM read_scored
               (PyStr.split (PyStr.drop_back 2 (PyStr.drop_front 2 s)) "}, {") with
       | Some items => Some (JList items)
       | None => None
       end
  else if String.eqb s "[]" then Some (JList [])
  else None.

(** The scripted environment, reading scored answers instead of name
    arrays. *)
Definition scored_env (script : list api_outcome) : @Externals Scripted.float := {|
  encoding := unit;
  encoding_for_model _ := None;
  encoding_gpt4o := tt;
  encode _ := Scripted.tokens;
  _build_segment_selector_prompt _ := "Select the segments.";
  _build_topdown_matching_prompt labels segment_text :=
    "Labels: " +:+ Scripted.join_labels labels +:+ " Text: " +:+ segment_text;
  _build_match_validation_prompt segment_text labels :=
    "Validate: " +:+ Scripted.join_labels labels +:+ " Text: " +:+ segment_text;
  json_loads := loads_scored;
  World := nat;
  chat_completions_create _ n := (Scripted.answer script n, S n);
  sleep_effect _ n := n;
  ndarray := list Scripted.decimal;
  cosine_similarity_row _ embedded_concepts := embedded_concepts;
  argsort := Scripted.argsort_stable;
|}.

Definition scored_init (script : list api_outcome) : @State _ (scored_env script) :=
  @Build_State _ (scored_env script) O [].

(** ** Boundaries that cut a caption list *)

(** The range that starts at the boundary [b], as
    [create_segments_from_boundaries] takes it: up to the next boundary,
    or to [len] after the last one. *)
Definition range_end (len : Z) (rest : list Z) : Z :=
  match rest with
  | next :: _ => next
  | [] => len
  end.

(** The boundaries are indices of the caption list, in strictly increasing
    order. *)
Fixpoint increasing_within (len : Z) (boundaries : list Z) : Prop :=
  match boundaries with
  | [] => True
  | b :: rest =>
      0 ≤ b ∧ b < range_end len rest ∧ range_end len rest ≤ len
      ∧ increasing_within len rest
  end.

(** * Properties *)

Example strip_example : PyStr.strip "  [1, 2]
 " = "[1, 2]".
Proof. reflexivity. Qed.

Example split_example :
  PyStr.split "<think>a</think>b</think>c" "</think>" = ["<think>a"; "b"; "c"].
Proof. reflexivity. Qed.

Example split_no_separator : PyStr.split "<think>a" "</think>" = ["<think>a"].
Proof. reflexivity. Qed.

Example drop_back_example : PyStr.drop_back 3 "[]```" = "[]".
Proof. reflexivity. Qed.

(** ** Batching *)

Section BatchingFacts.
Context {A : Type} (cost : A → Z) (limit : Z).

Local Abbreviation step := (greedy_step cost limit).
Local Abbreviation batch_fits := (batch_fits cost limit).
Local Abbreviation batcher_inv := (batcher_inv cost limit).

Lemma truthy_true (l : list A) : truthy l = true ↔ l ≠ [].
Proof. destruct l; simpl; split; congruence. Qed.

Lemma finish_concat (st : batcher A) :
  concat (finish st) = concat (batches st) ++ current_batch st.
Proof.
  unfold finish. destruct (current_batch st) as [|x cur]; simpl.
  - by rewrite app_nil_r.
  - by rewrite concat_app; simpl; rewrite app_nil_r.
Qed.

Lemma greedy_step_concat (st : batcher A) (x : A) :
  concat (batches (step st x)) ++ current_batch (step st x)
  = (concat (batches st) ++ current_batch st) ++ [x].
Proof.
  unfold greedy_step.
  destruct (bool_decide _ && truthy _); simpl.
  - rewrite concat_app. simpl. by rewrite app_nil_r.
  - by rewrite app_assoc.
Qed.

Lemma greedy_fold_concat (l : list A) (st : batcher A) :
  concat (finish (foldl step st l))
  = concat (batches st) ++ current_batch st ++ l.
Proof.
  revert st. induction l as [|x l IH]; intros st; simpl.
  - by rewrite finish_concat, app_nil_r.
  - rewrite IH, app_assoc, greedy_step_concat.
    by rewrite <- !app_assoc.
Qed.

Lemma total_cost_snoc (b : list A) (x : A) :
  total_cost cost (b ++ [x]) = total_cost cost b + cost x.
Proof. induction b as [|y b IH]; simpl; lia. Qed.

Lemma greedy_step_inv (st : batcher A) (x : A) :
  batcher_inv st → batcher_inv (step st x).
Proof.
  intros (Hbs & Htok & Hcur). unfold greedy_step.
  destruct (bool_decide _ && truthy _) eqn:Hc.
  - apply andb_true_iff in Hc as [Hgt Hne].
    apply truthy_true in Hne.
    destruct Hcur as [? | Hfit]; [done|].
    split_and!; simpl.
    + apply Forall_app; split; [done | by constructor].
    + lia.
    + right. split; [done|].
      destruct (decide (cost x ≤ limit)); [left; simpl; lia|].
      right. exists x. split; [done | lia].
  - apply andb_false_iff in Hc.
    split_and!; simpl; [done | rewrite total_cost_snoc; lia |].
    right. split; [by destruct (current_batch st)|].
    destruct Hc as [Hle | Hemp].
    + apply bool_decide_eq_false in Hle.
      left. rewrite total_cost_snoc. lia.
    + assert (Hnil : current_batch st = []).
      { destruct (current_batch st); [done | discriminate]. }
      rewrite Hnil in *. simpl in *.
      destruct (decide (cost x ≤ limit)); [left; lia|].
      right. exists x. split; [done | lia].
Qed.

Lemma greedy_fold_inv (l : list A) (st : batcher A) :
  batcher_inv st → batcher_inv (foldl step st l).
Proof.
  revert st. induction l as [|x l IH]; intros st Hst; simpl; [done|].
  by apply IH, greedy_step_inv.
Qed.

Lemma finish_fits (st : batcher A) :
  batcher_inv st → Forall batch_fits (finish st).
Proof.
  intros (Hbs & _ & Hcur). unfold finish.
  destruct (truthy (current_batch st)) eqn:Ht; [|done].
  apply truthy_true in Ht. destruct Hcur as [? | ?]; [done|].
  apply Forall_app; split; [done | by constructor].
Qed.

Lemma greedy_batches_fit (l : list A) :
  Forall batch_fits (finish (foldl step batcher_init l)).
Proof.
  apply finish_fits, greedy_fold_inv.
  split_and!; simpl; [constructor | done | by left].
Qed.

Lemma total_cost_elem (b : list A) (x : A) :
  (∀ y, 0 ≤ cost y) → x ∈ b → cost x ≤ total_cost cost b.
Proof.
  intros Hpos. induction b as [|y b IH]; intros Hin.
  - by apply elem_of_nil in Hin.
  - apply elem_of_cons in Hin as [-> | Hin]; simpl.
    + assert (0 ≤ total_cost cost b); [|lia].
      clear -Hpos. induction b as [|z b IHb]; simpl; [lia|].
      specialize (Hpos z). lia.
    + specialize (IH Hin). specialize (Hpos y). lia.
Qed.

End BatchingFacts.

Lemma foldl_pointwise {S X} (f g : S → X → S) (l : list X) (s : S) :
  (∀ s x, f s x = g s x) → foldl f s l = foldl g s l.
Proof.
  intros Hfg. revert s. induction l as [|x l IH]; intros s; simpl; [done|].
  by rewrite Hfg, IH.
Qed.

(** An item of the concatenation sits in one of the batches. *)
Lemma concat_split_at {A} (bs : list (list A)) (pre : list A) (x : A) (post : list A) :
  concat bs = pre ++ x :: post →
  ∃ before b1 b2 after,
    bs = before ++ (b1 ++ x :: b2) :: after
    ∧ pre = concat before ++ b1
    ∧ post = b2 ++ concat after.
Proof.
  revert pre. induction bs as [|b bs IH]; intros pre; simpl.
  - intros Hnil. by destruct pre.
  - intros [(k & -> & Hk) | (k & -> & Hk)]%app_eq_inv.
    + destruct k as [|y k]; simpl in Hk.
      * symmetry in Hk. apply (IH []) in Hk
          as (before & b1 & b2 & after & -> & Hpre & ->).
        symmetry in Hpre. apply app_eq_nil in Hpre as [Hbefore ->].
        exists ((pre ++ []) :: before), [], b2, after. simpl.
        by rewrite Hbefore, !app_nil_r.
      * injection Hk as <- ->.
        exists [], pre, k, bs. by rewrite app_nil_l.
    + apply IH in Hk as (before & b1 & b2 & after & -> & -> & ->).
      exists (b :: before), b1, b2, after. simpl. by rewrite <- app_assoc.
Qed.

(** When every batch is as the contract wants it and the batches, put end
    to end, are the input, an item of the input that is too large on its
    own is a batch of its own, at its place. *)
Lemma oversized_placed {A} (cost : A → Z) (overhead budget : Z)
    (bs : list (list A)) (pre : list A) (x : A) (post : list A) :
  Forall (batch_ok cost overhead budget) bs →
  concat bs = pre ++ x :: post →
  cost x > budget - overhead →
  ∃ before after,
    bs = before ++ [x] :: after ∧ concat before = pre ∧ concat after = post.
Proof.
  intros Hok (before & b1 & b2 & after & -> & -> & ->)%concat_split_at Hbig.
  apply Forall_app in Hok as [_ Hok]. apply Forall_cons in Hok as [(_ & _ & Hone) _].
  specialize (Hone x). rewrite elem_of_app, elem_of_cons in Hone.
  specialize (Hone (or_intror (or_introl eq_refl)) Hbig).
  destruct b1 as [|y b1]; simpl in Hone.
  - injection Hone as ->. exists before, after.
    by rewrite app_nil_r, app_nil_l.
  - injection Hone as -> Hnil. by destruct b1.
Qed.

Section BatchingClaims.
Context `{Externals}.

Lemma segment_step_greedy enc overhead max_tokens st segment :
  segment_step enc overhead max_tokens st segment
  = greedy_step (segment_token_count enc) (max_tokens - overhead) st segment.
Proof.
  unfold segment_step, greedy_step.
  destruct (truthy (current_batch st)) eqn:Ht;
    repeat case_bool_decide; simpl; try done; lia.
Qed.

Lemma label_step_greedy enc available st label :
  label_step enc available st label
  = greedy_step (label_token_count enc) available st label.
Proof. reflexivity. Qed.

Lemma segment_token_count_pos enc segment : 0 < segment_token_count enc segment.
Proof. unfold segment_token_count. lia. Qed.

Lemma label_token_count_pos enc label : 0 < label_token_count enc label.
Proof. unfold label_token_count. lia. Qed.

(** From the loop invariant to the contract, for a limit that is the
    budget less the overhead, or that amount clamped at zero. *)
Lemma batch_fits_ok {A} (cost : A → Z) (overhead budget limit : Z) (b : list A) :
  (∀ y, 0 < cost y) →
  limit = budget - overhead ∨ limit = Z.max 0 (budget - overhead) →
  batch_fits cost limit b → batch_ok cost overhead budget b.
Proof.
  intros Hpos Hlim [Hne Hfit].
  assert (Hnn : ∀ y, 0 ≤ cost y) by (intros y; specialize (Hpos y); lia).
  assert (Hbudget : overhead + total_cost cost b ≤ budget
                    ∨ ∃ x, b = [x] ∧ cost x > budget - overhead).
  { destruct Hfit as [Hle | (x & -> & Hx)].
    - destruct Hlim as [-> | ->]; [left; lia|].
      destruct (decide (0 ≤ budget - overhead)); [left; lia|].
      destruct b as [|x b]; [done|].
      pose proof (total_cost_elem cost (x :: b) x Hnn (proj2 (elem_of_cons _ _ _) (or_introl eq_refl))).
      specialize (Hpos x). lia.
    - right. exists x. split; [done|]. lia. }
  split_and!; [done | done |].
  intros x Hin Hbig. destruct Hbudget as [Hle | (y & -> & _)].
  - pose proof (total_cost_elem cost b x Hnn Hin). lia.
  - by apply list_elem_of_singleton in Hin as ->.
Qed.

(** C2. Concatenating, in order, the batches that
    [_batch_segments_by_tokens] and [_batch_concept_labels_by_tokens]
    return gives back the input sequence: nothing is lost, duplicated or
    reordered, whatever the budget and the overhead. *)
Theorem batching_completeness :
  (∀ segments model max_tokens,
     concat (_batch_segments_by_tokens segments model max_tokens) = segments)
  ∧ (∀ labels segment_text model max_tokens,
       concat (_batch_concept_labels_by_tokens labels segment_text model max_tokens)
       = labels).
Proof.
  split.
  - intros segments model max_tokens. unfold _batch_segments_by_tokens.
    erewrite foldl_pointwise by (intros; apply segment_step_greedy).
    by rewrite greedy_fold_concat.
  - intros labels segment_text model max_tokens.
    unfold _batch_concept_labels_by_tokens.
    erewrite foldl_pointwise by (intros; apply label_step_greedy).
    by rewrite greedy_fold_concat.
Qed.

(** C3. Every batch the two batchers return is non-empty; its overhead
    plus the sum of its item costs stays within the budget, unless it is
    a single item whose own cost exceeds the budget less the overhead;
    such an oversized item is alone in its batch; no item is discarded,
    the batches put end to end being the input; and every item of the
    input whose own cost exceeds the budget less the overhead is placed:
    it is a batch of its own, over the budget, standing between the
    batches of the items before it and the batches of the items after
    it. *)
Theorem batching_budget :
  (∀ segments model max_tokens,
     let enc := _get_encoding_for_model model in
     let overhead :=
       Z.of_nat (length (encode enc (_build_segment_selector_prompt []))) in
     let batched := _batch_segments_by_tokens segments model max_tokens in
     Forall (batch_ok (segment_token_count enc) overhead max_tokens) batched
     ∧ concat batched = segments
     ∧ ∀ pre x post,
         segments = pre ++ x :: post →
         segment_token_count enc x > max_tokens - overhead →
         overhead + total_cost (segment_token_count enc) [x] > max_tokens
         ∧ ∃ before after,
             batched = before ++ [x] :: after
             ∧ concat before = pre ∧ concat after = post)
  ∧ (∀ labels segment_text model max_tokens,
       let enc := _get_encoding_for_model model in
       let overhead :=
         Z.of_nat (length (encode enc (_build_topdown_matching_prompt [] segment_text))) in
       let batched :=
         _batch_concept_labels_by_tokens labels segment_text model max_tokens in
       Forall (batch_ok (label_token_count enc) overhead max_tokens) batched
       ∧ concat batched = labels
       ∧ ∀ pre x post,
           labels = pre ++ x :: post →
           label_token_count enc x > max_tokens - overhead →
           overhead + total_cost (label_token_count enc) [x] > max_tokens
           ∧ ∃ before after,
               batched = before ++ [x] :: after
               ∧ concat before = pre ∧ concat after = post).
Proof.
  split.
  - intros segments model max_tokens enc overhead batched.
    assert (Hok : Forall (batch_ok (segment_token_count enc) overhead max_tokens)
                    batched).
    { unfold batched, _batch_segments_by_tokens. fold enc. fold overhead.
      erewrite foldl_pointwise by (intros; apply segment_step_greedy).
      eapply Forall_impl; [apply greedy_batches_fit|].
      intros b. apply batch_fits_ok; [apply segment_token_count_pos | by left]. }
    assert (Hcat : concat batched = segments).
    { unfold batched, _batch_segments_by_tokens.
      erewrite foldl_pointwise by (intros; apply segment_step_greedy).
      by rewrite greedy_fold_concat. }
    split_and!; [done | done |]. intros pre x post Hsplit Hbig. split; [simpl; lia|].
    rewrite Hsplit in Hcat. by eapply oversized_placed.
  - intros labels segment_text model max_tokens enc overhead batched.
    assert (Hok : Forall (batch_ok (label_token_count enc) overhead max_tokens)
                    batched).
    { unfold batched, _batch_concept_labels_by_tokens. fold enc. fold overhead.
      erewrite foldl_pointwise by (intros; apply label_step_greedy).
      eapply Forall_impl; [apply greedy_batches_fit|].
      intros b. apply batch_fits_ok; [apply label_token_count_pos | by right]. }
    assert (Hcat : concat batched = labels).
    { unfold batched, _batch_concept_labels_by_tokens.
      erewrite foldl_pointwise by (intros; apply label_step_greedy).
      by rewrite greedy_fold_concat. }
    split_and!; [done | done |]. intros pre x post Hsplit Hbig. split; [simpl; lia|].
    rewrite Hsplit in Hcat. by eapply oversized_placed.
Qed.

End BatchingClaims.

Lemma batching_budget_witness :
  let E := Scripted.env [] in
  let enc := @_get_encoding_for_model _ E "gpt-4.1" in
  let overhead :=
    Z.of_nat (length (@encode _ E enc (@_build_topdown_matching_prompt _ E [] "t"))) in
  overhead + total_cost (@label_token_count _ E enc) ["bbbbbbbbbbbb"] > 30
  ∧ ∃ before after,
      @_batch_concept_labels_by_tokens _ E ["aaaa"; "bbbbbbbbbbbb"; "cc"]
        "t" "gpt-4.1" 30
      = before ++ ["bbbbbbbbbbbb"] :: after
      ∧ concat before = ["aaaa"] ∧ concat after = ["cc"].
Proof.
  intros E enc overhead.
  apply (proj2 (proj2 (proj2 (@batching_budget _ E)
                         ["aaaa"; "bbbbbbbbbbbb"; "cc"] "t" "gpt-4.1" 30))
           ["aaaa"] "bbbbbbbbbbbb" ["cc"]).
  - reflexivity.
  - by vm_compute.
Defined.

(** ** Deduplication *)

Section DeduplicationFacts.
Context `{PyFloat}.

Lemma deduplicate_fold (ms : list MatchedConcept) seen acc :
  (foldl deduplicate_step (seen, acc) ms).2 = acc ++ dedup_from seen ms.
Proof.
  revert seen acc. induction ms as [|m ms IH]; intros seen acc; simpl.
  - by rewrite app_nil_r.
  - destruct (decide (uri (concept m) ∉ seen)); rewrite IH; [|done].
    by rewrite <- app_assoc.
Qed.

Lemma deduplicate_matches_unfold (ms : list MatchedConcept) :
  deduplicate_matches ms = dedup_from ∅ ms.
Proof. unfold deduplicate_matches. by rewrite deduplicate_fold. Qed.

Lemma dedup_from_union (ms : list MatchedConcept) (S T : gset string) :
  dedup_from (S ∪ T) ms = filter (λ x, uri (concept x) ∉ T) (dedup_from S ms).
Proof.
  revert S. induction ms as [|m ms IH]; intros S; simpl; [done|].
  destruct (decide (uri (concept m) ∉ S)) as [HS|HS].
  - destruct (decide (uri (concept m) ∈ T)) as [HT|HT].
    + rewrite decide_False by set_solver.
      rewrite filter_cons_False by set_solver.
      rewrite <- IH. f_equal. set_solver.
    + rewrite decide_True by set_solver.
      rewrite filter_cons_True by done.
      rewrite <- IH. do 2 f_equal. set_solver.
  - rewrite decide_False by set_solver. apply IH.
Qed.

Lemma dedup_from_first_occurrences (ms : list MatchedConcept) :
  dedup_from ∅ ms = first_occurrences ms.
Proof.
  induction ms as [|m ms IH]; simpl; [done|].
  rewrite decide_True by set_solver. f_equal.
  rewrite <- IH.
  replace ({[uri (concept m)]} ∪ ∅ : gset string)
    with (∅ ∪ {[uri (concept m)]} : gset string) by set_solver.
  rewrite dedup_from_union.
  apply list_filter_iff. intros x. set_solver.
Qed.

Lemma dedup_from_idemp (ms : list MatchedConcept) (S : gset string) :
  dedup_from S (dedup_from S ms) = dedup_from S ms.
Proof.
  revert S. induction ms as [|m ms IH]; intros S; simpl; [done|].
  destruct (decide (uri (concept m) ∉ S)) as [HS|HS]; simpl.
  - rewrite decide_True by done. f_equal. apply IH.
  - apply IH.
Qed.

Lemma dedup_from_sublist (ms : list MatchedConcept) (S : gset string) :
  dedup_from S ms `sublist_of` ms.
Proof.
  revert S. induction ms as [|m ms IH]; intros S; simpl; [constructor|].
  destruct (decide _); [apply sublist_skip | apply sublist_cons]; apply IH.
Qed.

Lemma dedup_from_fresh (ms : list MatchedConcept) (S : gset string) x :
  x ∈ dedup_from S ms → uri (concept x) ∉ S.
Proof.
  revert S. induction ms as [|m ms IH]; intros S; simpl.
  - by intros ?%elem_of_nil.
  - destruct (decide _) as [Hm|Hm]; [|by apply IH].
    intros [-> | Hx%IH]%elem_of_cons; [done | set_solver].
Qed.

Lemma dedup_from_NoDup (ms : list MatchedConcept) (S : gset string) :
  NoDup ((λ m, uri (concept m)) <$> dedup_from S ms).
Proof.
  revert S. induction ms as [|m ms IH]; intros S; simpl; [constructor|].
  destruct (decide _) as [Hm|Hm]; [|by apply IH].
  rewrite fmap_cons. constructor; [|by apply IH].
  intros (x & Heq & Hx%dedup_from_fresh)%list_elem_of_fmap. set_solver.
Qed.

Lemma dedup_from_covers (ms : list MatchedConcept) (S : gset string) m :
  m ∈ ms → uri (concept m) ∉ S →
  ∃ m', m' ∈ dedup_from S ms ∧ uri (concept m') = uri (concept m).
Proof.
  revert S. induction ms as [|y ms IH]; intros S Hin Hfresh; simpl.
  - by apply elem_of_nil in Hin.
  - destruct (decide (uri (concept y) ∉ S)) as [Hy|Hy].
    + destruct (decide (uri (concept y) = uri (concept m))) as [Heq|Hne].
      * exists y. split; [apply elem_of_cons; by left | done].
      * apply elem_of_cons in Hin as [-> | Hin]; [done|].
        destruct (IH ({[uri (concept y)]} ∪ S) Hin) as (m' & ? & ?); [set_solver|].
        exists m'. split; [apply elem_of_cons; by right | done].
    + apply elem_of_cons in Hin as [-> | Hin]; [done|].
      by apply IH.
Qed.

(** C8. [deduplicate_matches] keeps the first occurrence of each distinct
    concept uri, in input order, and drops the later ones: it agrees with
    the reference [first_occurrences], returns a sublist of its input in
    which no uri repeats and every input uri is still present, is
    idempotent, and sends [A, B, A, C, B] to [A, B, C]. *)
Theorem deduplicate_matches_first_occurrences :
  (∀ ms : list MatchedConcept,
     deduplicate_matches ms = first_occurrences ms
     ∧ deduplicate_matches ms `sublist_of` ms
     ∧ NoDup ((λ m, uri (concept m)) <$> deduplicate_matches ms)
     ∧ (∀ m, m ∈ ms →
          ∃ m', m' ∈ deduplicate_matches ms
                ∧ uri (concept m') = uri (concept m))
     ∧ deduplicate_matches (deduplicate_matches ms) = deduplicate_matches ms)
  ∧ deduplicate_matches
      (topdown_match <$> [concept_A; concept_B; concept_A; concept_C; concept_B])
    = topdown_match <$> [concept_A; concept_B; concept_C].
Proof.
  split; [|by vm_compute].
  intros ms. rewrite !deduplicate_matches_unfold. split_and!.
  - apply dedup_from_first_occurrences.
  - apply dedup_from_sublist.
  - apply dedup_from_NoDup.
  - intros m Hm. apply dedup_from_covers; [done | set_solver].
  - apply dedup_from_idemp.
Qed.

End DeduplicationFacts.

(** ** Exact occurrence *)

Lemma foldl_snoc_if {X Y} (p : X → bool) (f : X → Y) (l : list X) (acc : list Y) :
  foldl (λ acc x, if p x then acc ++ [f x] else acc) acc l
  = acc ++ (f <$> filter (λ x, p x = true) l).
Proof.
  revert acc. induction l as [|x l IH]; intros acc; simpl.
  - by rewrite app_nil_r.
  - rewrite IH. destruct (p x) eqn:Hp.
    + rewrite filter_cons_True by done. by rewrite <- app_assoc.
    + rewrite filter_cons_False by congruence. done.
Qed.

Section ExactOccurrenceFacts.
Context `{PyFloat}.

Lemma exact_occurrence_filter (segment : Segment) (concepts : list ThesaurusConcept) :
  match_segment_to_thesaurus_based_on_exact_occurrence segment concepts
  = exact_match <$>
      filter (λ c, re_search_word (PyStr.lower (name c))
                     (PyStr.lower (text segment)) = true) concepts.
Proof.
  exact (foldl_snoc_if
           (λ c, re_search_word (PyStr.lower (name c)) (PyStr.lower (text segment)))
           exact_match concepts []).
Qed.

Lemma concept_exact_match (l : list ThesaurusConcept) :
  concept <$> (exact_match <$> l) = l.
Proof. induction l as [|c l IH]; simpl; [done | by f_equal]. Qed.

(** C10. [match_segment_to_thesaurus_based_on_exact_occurrence] returns
    at most one candidate per concept of the input list, in the order of
    that list, each with source 'Exact occurrence' and score 1.0; a name
    that occurs several times in the text still gives one candidate. *)
Theorem exact_occurrence_one_per_concept :
  (∀ (segment : Segment) (concepts : list ThesaurusConcept),
     let found := match_segment_to_thesaurus_based_on_exact_occurrence segment concepts in
     (concept <$> found) `sublist_of` concepts
     ∧ Forall (λ m, source m = "Exact occurrence" ∧ score m = Some float_one) found)
  ∧ (∀ s e caps,
       match_segment_to_thesaurus_based_on_exact_occurrence
         {| start := s; end_ := e; text := "camp after Camp, the CAMP";
            captions := caps |} [concept_camp]
       = [exact_match concept_camp]).
Proof.
  split; [|intros; by vm_compute].
  intros segment concepts found. subst found.
  rewrite exact_occurrence_filter. split.
  - rewrite concept_exact_match. apply sublist_filter.
  - apply Forall_fmap, Forall_forall. by intros c _.
Qed.

End ExactOccurrenceFacts.


(** ** Response interpretation *)

Section ResponseFacts.
Context `{Externals}.

(** Once the cleaner has returned, a response that is not JSON, or not a
    JSON list, gives the empty list of matches. *)
Lemma unparseable_response_no_matches response clean concepts :
  _clean_json_output response = Ok clean →
  json_loads clean = None →
  _get_matched_concepts_from_response response concepts = Ok [].
Proof.
  intros Hclean Hjson. unfold _get_matched_concepts_from_response.
  rewrite Hclean. simpl. by rewrite Hjson.
Qed.

Lemma non_list_response_no_matches response clean parsed concepts :
  _clean_json_output response = Ok clean →
  json_loads clean = Some parsed →
  (∀ l, parsed ≠ JList l) →
  _get_matched_concepts_from_response response concepts = Ok [].
Proof.
  intros Hclean Hjson Hshape. unfold _get_matched_concepts_from_response.
  rewrite Hclean. simpl. rewrite Hjson.
  destruct parsed; try done. by destruct (Hshape l).
Qed.

(** The cleaner itself fails only on an opened and never closed reasoning
    preamble. *)
Lemma clean_json_output_raises response e :
  _clean_json_output response = Raise e →
  e = IndexError
  ∧ PyStr.startswith (PyStr.strip response) "<think>" = true
  ∧ PyStr.split (PyStr.strip response) "</think>" !! 1%nat = None.
Proof.
  unfold _clean_json_output.
  destruct (PyStr.startswith _ "```json"); [done|].
  destruct (PyStr.startswith _ "```"); [done|].
  destruct (PyStr.startswith _ "<think>"); [|done].
  destruct (PyStr.split _ _ !! 1%nat); [done|].
  simpl. by intros [= <-].
Qed.

End ResponseFacts.

(** C6. The claim that interpreting a response never raises fails on the
    code: for a response that opens a reasoning preamble and never closes
    it, [_clean_json_output] raises [IndexError], and so does
    [_get_matched_concepts_from_response], for every JSON reader and every
    concept list; the error is not caught by the retrying caller and ends
    the top-down match of the segment. *)
Theorem unclosed_think_marker_raises :
  (∀ `{Externals} (concepts : list ThesaurusConcept),
     _clean_json_output "<think>The segment mentions a camp." = Raise IndexError
     ∧ _get_matched_concepts_from_response
         "<think>The segment mentions a camp." concepts = Raise IndexError)
  ∧ (let script := [ApiContent "<think>The segment mentions a camp."] in
     (@match_segment_topdown _ (Scripted.env script) 5
        (Scripted.segment "We were taken to the camp.")
        [concept_A; concept_B; concept_C] [concept_A; concept_C]
        "key" "gpt-4.1" 800000 (Scripted.init script)).1
     = Raise IndexError).
Proof.
  split; [|by vm_compute].
  intros F E concepts. split; [by vm_compute|].
  unfold _get_matched_concepts_from_response.
  by replace (_clean_json_output "<think>The segment mentions a camp.")
    with (@Raise string IndexError) by (by vm_compute).
Qed.

(** ** The retrying chat wrapper *)

Section ChatFacts.
Context `{Externals}.
Implicit Types (prompt api_key model system_message : string) (st : State).

Lemma safe_chat_loop_exhausted prompt api_key model system_message st :
  safe_chat_loop 0 prompt api_key model system_message st
  = (Raise TooManyAttempts, st).
Proof. done. Qed.

Lemma safe_chat_loop_content n prompt api_key model system_message st content w :
  chat_completions_create (request prompt api_key model system_message) (world st)
  = (ApiContent content, w) →
  safe_chat_loop (S n) prompt api_key model system_message st
  = (Ok content,
     {| world := w;
        log := log st ++ [EvCreate (request prompt api_key model system_message)] |}).
Proof.
  intros Hc. simpl. unfold try_catch, openai_client__chat. by rewrite Hc.
Qed.

Lemma safe_chat_loop_other_error n prompt api_key model system_message st e w :
  chat_completions_create (request prompt api_key model system_message) (world st)
  = (ApiRaise e, w) →
  (∀ msg, e ≠ RateLimitError msg) →
  safe_chat_loop (S n) prompt api_key model system_message st
  = (Raise e,
     {| world := w;
        log := log st ++ [EvCreate (request prompt api_key model system_message)] |}).
Proof.
  intros Hc Hne. simpl. unfold try_catch, openai_client__chat. rewrite Hc.
  destruct e; try done. by destruct (Hne msg).
Qed.

Lemma safe_chat_loop_no_hint n prompt api_key model system_message st msg w :
  chat_completions_create (request prompt api_key model system_message) (world st)
  = (ApiRaise (RateLimitError msg), w) →
  re_search_try_again msg = None →
  safe_chat_loop (S n) prompt api_key model system_message st
  = safe_chat_loop n prompt api_key model system_message
      {| world := sleep_effect (WaitInt 10) w;
         log := (log st ++ [EvCreate (request prompt api_key model system_message)])
                ++ [EvSleep (WaitInt 10)] |}.
Proof.
  intros Hc Hre. simpl. unfold try_catch, openai_client__chat. rewrite Hc.
  unfold mbind, M_mbind, M_bind, wait_after_rate_limit. by rewrite Hre.
Qed.

Lemma safe_chat_loop_hint n prompt api_key model system_message st msg w g f :
  chat_completions_create (request prompt api_key model system_message) (world st)
  = (ApiRaise (RateLimitError msg), w) →
  re_search_try_again msg = Some g →
  float_of_str g = Some f →
  safe_chat_loop (S n) prompt api_key model system_message st
  = safe_chat_loop n prompt api_key model system_message
      {| world := sleep_effect (WaitFloat f) w;
         log := (log st ++ [EvCreate (request prompt api_key model system_message)])
                ++ [EvSleep (WaitFloat f)] |}.
Proof.
  intros Hc Hre Hf. simpl. unfold try_catch, openai_client__chat. rewrite Hc.
  unfold mbind, M_mbind, M_bind, wait_after_rate_limit. by rewrite Hre, Hf.
Qed.

Lemma safe_chat_loop_bad_hint n prompt api_key model system_message st msg w g :
  chat_completions_create (request prompt api_key model system_message) (world st)
  = (ApiRaise (RateLimitError msg), w) →
  re_search_try_again msg = Some g →
  float_of_str g = None →
  safe_chat_loop (S n) prompt api_key model system_message st
  = (Raise ValueError,
     {| world := w;
        log := log st ++ [EvCreate (request prompt api_key model system_message)] |}).
Proof.
  intros Hc Hre Hf. simpl. unfold try_catch, openai_client__chat. rewrite Hc.
  unfold mbind, M_mbind, M_bind, wait_after_rate_limit. by rewrite Hre, Hf.
Qed.

(** C7. The claim fails on the code when the rate-limit message carries a
    hint that the pattern accepts and [float] rejects: for the message
    "... try again in 1.2.3s." [_safe_chat_call] neither waits nor retries
    nor falls back to 10, it raises [ValueError] after a single call. *)
Theorem rate_limit_hint_not_a_number_raises
    prompt api_key model system_message (max_retries : Z) st w :
  0 < max_retries →
  chat_completions_create (request prompt api_key model system_message) (world st)
  = (ApiRaise (RateLimitError "Rate limit reached. Please try again in 1.2.3s."), w) →
  float_of_str "1.2.3" = None →
  _safe_chat_call prompt api_key model system_message max_retries st
  = (Raise ValueError,
     {| world := w;
        log := log st ++ [EvCreate (request prompt api_key model system_message)] |}).
Proof.
  intros Hpos Hc Hf. unfold _safe_chat_call.
  destruct (Z.to_nat max_retries) as [|n] eqn:Hn; [lia|].
  by eapply safe_chat_loop_bad_hint.
Qed.

End ChatFacts.

Lemma rate_limit_hint_not_a_number_witness :
  let script :=
    [ApiRaise (RateLimitError "Rate limit reached. Please try again in 1.2.3s.")] in
  @_safe_chat_call _ (Scripted.env script) "prompt" "key" "gpt-4.1" EmptyString 5
    (Scripted.init script)
  = (Raise ValueError,
     @Build_State _ (Scripted.env script) 1%nat
       [EvCreate (request "prompt" "key" "gpt-4.1" EmptyString)]).
Proof.
  intros script.
  apply (@rate_limit_hint_not_a_number_raises _ (Scripted.env script)
           "prompt" "key" "gpt-4.1" EmptyString 5 (Scripted.init script) 1%nat).
  - lia.
  - reflexivity.
  - reflexivity.
Defined.

(** ** The top-down matcher *)

Section TopdownFacts.
Context `{Externals}.
Implicit Types (st : State) (s : topdown_state) (segment : Segment).
Implicit Types (concepts candidates : list ThesaurusConcept).

Lemma extends_io_refl st : extends_io st st.
Proof. exists []. by rewrite app_nil_r. Qed.

Lemma extends_io_trans st1 st2 st3 :
  extends_io st1 st2 → extends_io st2 st3 → extends_io st1 st3.
Proof.
  intros (e1 & H1 & F1) (e2 & H2 & F2). exists (e1 ++ e2).
  split; [by rewrite H2, H1, app_assoc | by apply Forall_app].
Qed.

Lemma extends_io_one st e w :
  io_event e → extends_io st {| world := w; log := log st ++ [e] |}.
Proof. intros He. exists [e]. split; [done | by constructor]. Qed.

Lemma openai_chat_io prompt api_key model system_message st r st' :
  openai_client__chat prompt api_key model system_message st = (r, st') →
  extends_io st st'.
Proof.
  unfold openai_client__chat.
  destruct (chat_completions_create _ _) as [[c|e] w]; intros [= <- <-];
    by apply extends_io_one.
Qed.

Lemma wait_after_rate_limit_io msg st r st' :
  wait_after_rate_limit msg st = (r, st') → extends_io st st'.
Proof.
  unfold wait_after_rate_limit, mbind, M_mbind, M_bind, time_sleep.
  destruct (re_search_try_again msg) as [g|]; [destruct (float_of_str g)|];
    simpl; intros [= <- <-];
    first [by apply extends_io_one | apply extends_io_refl].
Qed.

Lemma safe_chat_loop_io n prompt api_key model system_message st r st' :
  safe_chat_loop n prompt api_key model system_message st = (r, st') →
  extends_io st st'.
Proof.
  revert st. induction n as [|n IH]; intros st; simpl.
  - intros [= <- <-]. apply extends_io_refl.
  - unfold try_catch.
    destruct (openai_client__chat _ _ _ _ st) as [[c|e] st1] eqn:Hc;
      apply openai_chat_io in Hc.
    + by intros [= <- <-].
    + destruct e; try (by intros [= <- <-]).
      unfold mbind, M_mbind, M_bind.
      destruct (wait_after_rate_limit msg st1) as [[[]|e] st2] eqn:Hw;
        apply wait_after_rate_limit_io in Hw.
      * intros Hloop%IH. eauto using extends_io_trans.
      * intros [= <- <-]. eauto using extends_io_trans.
Qed.

Lemma count_creates_app evs1 evs2 :
  count_creates (evs1 ++ evs2) = (count_creates evs1 + count_creates evs2)%nat.
Proof.
  induction evs1 as [|e evs1 IH]; simpl; [done|]. destruct e; simpl; lia.
Qed.

Lemma wait_after_rate_limit_sleeps msg st r st' :
  wait_after_rate_limit msg st = (r, st') →
  ∃ evs, log st' = log st ++ evs ∧ count_creates evs = 0%nat.
Proof.
  unfold wait_after_rate_limit, mbind, M_mbind, M_bind, time_sleep.
  destruct (re_search_try_again msg) as [g|]; [destruct (float_of_str g)|];
    simpl; intros [= <- <-];
    first [by eexists [_] | exists []; by rewrite app_nil_r].
Qed.

(** [_safe_chat_call] makes at most [max_retries] calls. *)
Lemma safe_chat_loop_attempts n prompt api_key model system_message st r st' :
  safe_chat_loop n prompt api_key model system_message st = (r, st') →
  ∃ evs, log st' = log st ++ evs ∧ (count_creates evs ≤ n)%nat.
Proof.
  revert st. induction n as [|n IH]; intros st; simpl.
  - intros [= <- <-]. exists []. by rewrite app_nil_r.
  - unfold try_catch, openai_client__chat.
    destruct (chat_completions_create _ _) as [[content|e] w].
    + intros [= <- <-]. eexists [_]. split; [done | simpl; lia].
    + destruct e;
        try (intros [= <- <-]; eexists [_]; split; [done | simpl; lia]).
      unfold mbind, M_mbind, M_bind.
      destruct (wait_after_rate_limit msg _) as [[[]|e] st2] eqn:Hw;
        apply wait_after_rate_limit_sleeps in Hw as (io & Hio & Hnone);
        simpl in Hio.
      * intros (evs & Hlog & Hle)%IH.
        exists ([EvCreate (request prompt api_key model system_message)]
                ++ io ++ evs).
        split; [by rewrite Hlog, Hio, <- !app_assoc|].
        rewrite !count_creates_app. simpl. lia.
      * intros [= <- <-].
        exists ([EvCreate (request prompt api_key model system_message)] ++ io).
        split; [by rewrite Hio, <- !app_assoc|].
        rewrite !count_creates_app. simpl. lia.
Qed.

Lemma chat_router_io prompt api_key model system_message st r st' :
  chat_router__chat prompt api_key model system_message st = (r, st') →
  extends_io st st'.
Proof.
  unfold chat_router__chat, _safe_chat_call.
  destruct (PyStr.startswith _ _); [apply safe_chat_loop_io|].
  intros [= <- <-]. apply extends_io_refl.
Qed.

Lemma resolve_names_fold (nws : gmap string (option pyfloat)) concepts
    (acc : list MatchedConcept) m :
  m ∈ foldl (λ matched c,
               match nws !! PyStr.strip (name c) with
               | Some sc =>
                   matched ++ [{| concept := c; source := "Top-down matching";
                                  score := sc |}]
               | None => matched
               end) acc concepts →
  m ∈ acc ∨ concept m ∈ concepts.
Proof.
  revert acc. induction concepts as [|c cs IH]; intros acc; simpl; [by left|].
  intros [Hacc | Hcs]%IH.
  - destruct (nws !! _); [|by left].
    apply elem_of_app in Hacc as [? | ->%list_elem_of_singleton]; [by left|].
    right. simpl. apply elem_of_cons. by left.
  - right. apply elem_of_cons. by right.
Qed.

Lemma resolve_names_candidates (nws : gmap string (option pyfloat)) concepts m :
  m ∈ resolve_names nws concepts → concept m ∈ concepts.
Proof.
  intros [Hnil | ?]%resolve_names_fold; [|done]. by apply elem_of_nil in Hnil.
Qed.

(** Every match resolved from a response is a match of one of the
    concepts the response was resolved against. *)
Lemma get_matched_candidates response concepts ms m :
  _get_matched_concepts_from_response response concepts = Ok ms →
  m ∈ ms → concept m ∈ concepts.
Proof.
  unfold _get_matched_concepts_from_response.
  destruct (_clean_json_output response) as [clean|e]; simpl; [|done].
  destruct (json_loads clean) as [parsed|];
    [|by intros [= <-] ?%elem_of_nil].
  destruct parsed; try (by intros [= <-] ?%elem_of_nil).
  destruct (_extract_selected_names l) as [nws|e]; simpl; [|done].
  destruct (decide (nws = ∅)); intros [= <-];
    [by intros ?%elem_of_nil | apply resolve_names_candidates].
Qed.

Lemma safe_get_loop_spec attempts max_retries prompt api_key model candidates
    st r st' :
  safe_get_loop attempts max_retries prompt api_key model candidates st = (r, st') →
  extends_io st st'
  ∧ ∀ ms m, r = Ok ms → m ∈ ms → concept m ∈ candidates.
Proof.
  revert st. induction attempts as [|a attempts IH]; intros st; simpl.
  - intros [= <- <-]. split; [apply extends_io_refl|].
    by intros ms m [= <-] ?%elem_of_nil.
  - unfold mbind, M_mbind, M_bind.
    destruct (chat_router__chat _ _ _ _ st) as [[response|e] st1] eqn:Hc;
      apply chat_router_io in Hc.
    + destruct (_get_matched_concepts_from_response response candidates)
        as [matched|e] eqn:Hm.
      * intros [= <- <-]. split; [done|].
        intros ms m [= <-]. by eapply get_matched_candidates.
      * case_bool_decide; [case_decide|].
        -- intros [= <- <-]. by split.
        -- intros [Hio Hres]%IH. split; [by eapply extends_io_trans | done].
        -- intros [= <- <-]. by split.
    + intros [= <- <-]. by split.
Qed.

Lemma query_batches_spec batched segment api_key model candidates acc st r st' :
  query_batches batched segment api_key model candidates acc st = (r, st') →
  extends_io st st'
  ∧ ∀ ms m, r = Ok ms → m ∈ ms → m ∈ acc ∨ concept m ∈ candidates.
Proof.
  revert acc st. induction batched as [|b batched IH]; intros acc st; simpl.
  - intros [= <- <-]. split; [apply extends_io_refl|].
    intros ms m [= <-] ?. by left.
  - unfold mbind, M_mbind, M_bind, _safe_get_relevant_concepts.
    destruct (safe_get_loop _ _ _ _ _ _ st) as [[rel|e] st1] eqn:Hg;
      apply safe_get_loop_spec in Hg as [Hio Hrel].
    + intros [Hio' Hres]%IH. split; [by eapply extends_io_trans|].
      intros ms m Hr Hin. destruct (Hres ms m Hr Hin) as [Hacc|?]; [|by right].
      apply elem_of_app in Hacc as [?|?]; [by left | right; eauto].
    + intros [= <- <-]. by split.
Qed.

(** One turn of the loop: it breaks at once when no new narrower concept
    is left; otherwise it logs the level, queries, and either fails, or
    breaks on an empty answer, or goes on with a non-empty list of matches
    of concepts of that level. *)
Lemma topdown_step_spec segment concepts api_key model max_tokens s st r st' :
  topdown_step segment concepts api_key model max_tokens s st = (r, st') →
  let level := new_narrower_concepts concepts s in
  (level = [] ∧ r = Ok (inr (matches s)) ∧ st' = st)
  ∨ (level ≠ [] ∧ ∃ io, Forall io_event io ∧
       ((∃ e, r = Raise e ∧ log st' = log st ++ [EvLevel level] ++ io)
        ∨ ∃ relevant,
            (∀ m, m ∈ relevant → concept m ∈ level)
            ∧ log st' = log st ++ [EvLevel level] ++ io ++ [EvMatched relevant]
            ∧ ((relevant = [] ∧ r = Ok (inr (matches s)))
               ∨ (relevant ≠ []
                  ∧ r = Ok (inl {| matches := matches s ++ relevant;
                                   current_matches := relevant;
                                   seen_uris := seen_uris s ∪ matched_uris relevant |}))))).
Proof.
  unfold topdown_step. intros Hrun. simpl.
  destruct (new_narrower_concepts concepts s) as [|c level'] eqn:Hlevel;
    simpl in Hrun.
  { left. by injection Hrun as <- <-. }
  right. split; [done|].
  unfold mbind, M_mbind, M_bind, tell in Hrun. simpl in Hrun.
  destruct (query_batches _ _ _ _ _ _ _) as [[relevant|e] st1] eqn:Hq;
    apply query_batches_spec in Hq as [(io & Hlog & Hio) Hrel]; simpl in Hlog.
  - simpl in Hrun. exists io. split; [done|]. right. exists relevant.
    split.
    { intros m Hm. destruct (Hrel relevant m eq_refl Hm) as [Hnil|?]; [|done].
      by apply elem_of_nil in Hnil. }
    destruct relevant as [|m relevant']; simpl in Hrun;
      injection Hrun as <- <-; simpl; rewrite Hlog, <- !app_assoc;
      (split; [done|]); [by left | by right].
  - injection Hrun as <- <-. exists io. split; [done|]. left. exists e.
    split; [done|]. by rewrite Hlog, <- app_assoc.
Qed.

Lemma narrower_uris_fold (cs : list ThesaurusConcept) (acc : list string) u :
  u ∈ foldl (λ acc c, acc ++ narrower c) acc cs
  ↔ u ∈ acc ∨ ∃ c, c ∈ cs ∧ u ∈ narrower c.
Proof.
  revert acc. induction cs as [|c cs IH]; intros acc; simpl.
  - split; [by left|]. intros [?|(c & Hc & _)]; [done|].
    by apply elem_of_nil in Hc.
  - rewrite IH, elem_of_app. split.
    + intros [[?|?]|(c' & ? & ?)]; [by left | right; exists c | right; exists c'];
        (split; [|done]); apply elem_of_cons; auto.
    + intros [?|(c' & [-> | ?]%elem_of_cons & ?)]; [by left; left | by left; right |].
      right. by exists c'.
Qed.

(** A concept of a level is in the pool, is not seen, and is listed as
    narrower by a concept of the current frontier. *)
Lemma new_narrower_elem concepts s c :
  c ∈ new_narrower_concepts concepts s →
  c ∈ concepts ∧ uri c ∉ seen_uris s
  ∧ ∃ p, p ∈ current_matches s ∧ uri c ∈ narrower (concept p).
Proof.
  unfold new_narrower_concepts, _find_narrower_concepts.
  intros [Hseen [Hnar Hpool]%list_elem_of_filter]%list_elem_of_filter.
  split_and!; [done..|].
  apply narrower_uris_fold in Hnar as [Hnil|(c' & Hc' & Hu)];
    [by apply elem_of_nil in Hnil|].
  apply list_elem_of_fmap in Hc' as (p & -> & Hp). by exists p.
Qed.

Lemma unseen_shrinks concepts (seen seen' : gset string) c :
  seen ⊆ seen' → c ∈ concepts → uri c ∉ seen → uri c ∈ seen' →
  (length (unseen concepts seen') < length (unseen concepts seen))%nat.
Proof.
  intros Hsub. unfold unseen.
  induction concepts as [|x concepts IH]; intros Hin Hout Hnow.
  - by apply elem_of_nil in Hin.
  - assert (Hle : ∀ l : list ThesaurusConcept,
             (length (filter (λ c, uri c ∉ seen') l)
              ≤ length (filter (λ c, uri c ∉ seen) l))%nat).
    { clear -Hsub. induction l as [|y l IHl]; [done|].
      destruct (decide (uri y ∈ seen')) as [Hy|Hy].
      - rewrite filter_cons_False by (intros Hn; by apply Hn).
        destruct (decide (uri y ∉ seen)).
        + rewrite filter_cons_True by done. simpl. lia.
        + by rewrite filter_cons_False.
      - rewrite !filter_cons_True by set_solver. simpl. lia. }
    apply elem_of_cons in Hin as [<- | Hin].
    + rewrite filter_cons_False by (intros Hn; by apply Hn).
      rewrite filter_cons_True by done. simpl.
      specialize (Hle concepts). lia.
    + specialize (IH Hin Hout Hnow).
      destruct (decide (uri x ∈ seen')) as [Hx|Hx].
      * rewrite filter_cons_False by (intros Hn; by apply Hn).
        destruct (decide (uri x ∉ seen)).
        -- rewrite filter_cons_True by done. simpl. lia.
        -- by rewrite filter_cons_False.
      * rewrite !filter_cons_True by set_solver. simpl. lia.
Qed.

Lemma matched_uris_elem (ms : list MatchedConcept) u :
  u ∈ matched_uris ms ↔ ∃ m, m ∈ ms ∧ uri (concept m) = u.
Proof.
  unfold matched_uris. rewrite elem_of_list_to_set, list_elem_of_fmap.
  naive_solver.
Qed.

(** A turn that goes on has added to [seen_uris] at least one uri of the
    pool that was not seen before, and nothing from outside the pool. *)
Lemma topdown_step_continue segment concepts api_key model max_tokens s st s' st' :
  topdown_step segment concepts api_key model max_tokens s st = (Ok (inl s'), st') →
  seen_uris s ⊂ seen_uris s'
  ∧ seen_uris s' ⊆ seen_uris s ∪ list_to_set (uri <$> concepts)
  ∧ (length (unseen concepts (seen_uris s'))
     < length (unseen concepts (seen_uris s)))%nat.
Proof.
  intros Hstep. apply topdown_step_spec in Hstep.
  destruct Hstep as [(_ & [=] & _) | (_ & io & _ & [(e & [=] & _) | Hgo])].
  destruct Hgo as (relevant & Hrel & _ & [[_ [=]] | [Hne [= ->]]]); simpl.
  destruct relevant as [|m relevant]; [done|].
  destruct (new_narrower_elem concepts s (concept m)) as (Hpool & Hout & _).
  { apply Hrel, elem_of_cons. by left. }
  assert (Hnow : uri (concept m) ∈ matched_uris (m :: relevant)).
  { apply matched_uris_elem. exists m. split; [apply elem_of_cons; by left | done]. }
  split_and!.
  - apply strict_spec_alt. split; [set_solver|].
    intros Heq. apply Hout. rewrite Heq. set_solver.
  - intros u [?|(x & Hx & <-)%matched_uris_elem]%elem_of_union; [set_solver|].
    apply elem_of_union_r, elem_of_list_to_set, list_elem_of_fmap.
    exists (concept x). split; [done|].
    by destruct (new_narrower_elem concepts s (concept x) (Hrel x Hx)).
  - apply (unseen_shrinks _ _ _ (concept m)); [set_solver | done | done | set_solver].
Qed.

(** With more fuel than the pool has concepts the loop does not run out,
    and any such amount of fuel gives the same run. *)
Lemma topdown_loop_fuel fuel segment concepts api_key model max_tokens s st :
  (length (unseen concepts (seen_uris s)) < fuel)%nat →
  (topdown_loop fuel segment concepts api_key model max_tokens s st).1 ≠ Ok None
  ∧ ∀ fuel', (length (unseen concepts (seen_uris s)) < fuel')%nat →
      topdown_loop fuel' segment concepts api_key model max_tokens s st
      = topdown_loop fuel segment concepts api_key model max_tokens s st.
Proof.
  revert s st. induction fuel as [|fuel IH]; intros s st Hlt; [lia|].
  simpl. destruct (truthy (current_matches s)) eqn:Hcur; simpl; cycle 1.
  { split; [done|]. intros [|fuel'] _; simpl; by rewrite Hcur. }
  unfold mbind, M_mbind, M_bind.
  destruct (topdown_step segment concepts api_key model max_tokens s st)
    as [[[s'|found]|e] st1] eqn:Hstep.
  - apply topdown_step_continue in Hstep as Hgo. destruct Hgo as (_ & _ & Hless).
    destruct (IH s' st1) as [Hsome Hsame]; [lia|].
    split; [done|]. intros [|fuel'] Hlt'; [lia|].
    simpl. rewrite Hcur. simpl. unfold mbind, M_mbind, M_bind. rewrite Hstep.
    apply Hsame. lia.
  - split; [done|]. intros [|fuel'] Hlt'; [lia|].
    simpl. rewrite Hcur. simpl. unfold mbind, M_mbind, M_bind. by rewrite Hstep.
  - split; [done|]. intros [|fuel'] Hlt'; [lia|].
    simpl. rewrite Hcur. simpl. unfold mbind, M_mbind, M_bind. by rewrite Hstep.
Qed.

Lemma unseen_length concepts (seen : gset string) :
  (length (unseen concepts seen) ≤ length concepts)%nat.
Proof. apply length_filter. Qed.

(** C5. For every hierarchy, cyclic or not, and every behaviour of the
    oracle, the narrower-expansion loop ends: with more fuel than the pool
    has concepts [match_segment_topdown] never runs out of fuel, and its
    run does not depend on the amount; on each turn that goes on the set of
    seen uris grows strictly and stays within what it was plus the uris of
    the pool. *)
Theorem topdown_terminates fuel fuel' segment concepts top_concepts
    api_key model max_tokens st :
  (length concepts < fuel)%nat →
  (length concepts < fuel')%nat →
  (match_segment_topdown fuel segment concepts top_concepts
     api_key model max_tokens st).1 ≠ Ok None
  ∧ match_segment_topdown fuel' segment concepts top_concepts
      api_key model max_tokens st
    = match_segment_topdown fuel segment concepts top_concepts
        api_key model max_tokens st
  ∧ ∀ s st0 s' st1,
      topdown_step segment concepts api_key model max_tokens s st0
      = (Ok (inl s'), st1) →
      seen_uris s ⊂ seen_uris s'
      ∧ seen_uris s' ⊆ seen_uris s ∪ list_to_set (uri <$> concepts).
Proof.
  intros Hfuel Hfuel'. split_and!.
  - unfold match_segment_topdown, mbind, M_mbind, M_bind, tell. simpl.
    destruct (query_batches _ _ _ _ _ _ _) as [[top|e] st1]; simpl; [|done].
    destruct (truthy top); simpl; [|done].
    apply topdown_loop_fuel. pose proof (unseen_length concepts (matched_uris top)).
    simpl. lia.
  - unfold match_segment_topdown, mbind, M_mbind, M_bind, tell. simpl.
    destruct (query_batches _ _ _ _ _ _ _) as [[top|e] st1]; simpl; [|done].
    destruct (truthy top); simpl; [|done].
    pose proof (unseen_length concepts (matched_uris top)).
    apply topdown_loop_fuel; simpl; lia.
  - intros s st0 s' st1 Hstep.
    apply topdown_step_continue in Hstep as (? & ? & _). done.
Qed.

End TopdownFacts.

(** ** Levels of the traversal *)

Section LevelFacts.
Context `{Externals}.
Implicit Types (st : State) (s : topdown_state) (evs io : list event).

Lemma levels_app evs1 evs2 : levels (evs1 ++ evs2) = levels evs1 ++ levels evs2.
Proof.
  induction evs1 as [|e evs1 IH]; simpl; [done|].
  destruct e; simpl; by rewrite ?IH.
Qed.

Lemma levels_io io : Forall io_event io → levels io = [].
Proof.
  induction 1 as [|e io He _ IH]; simpl; [done|]. by destruct e.
Qed.

Lemma respects_seen_io (S : gset string) io evs :
  Forall io_event io → respects_seen S evs → respects_seen S (io ++ evs).
Proof.
  induction 1 as [|e io He _ IH]; simpl; [done|]. by destruct e.
Qed.

Lemma respects_seen_level (S : gset string) evs between cs after c :
  respects_seen S evs →
  evs = between ++ EvLevel cs :: after →
  c ∈ cs → uri c ∉ S.
Proof.
  revert S evs. induction between as [|e between IH]; intros S evs Hok -> Hc.
  - simpl in Hok. by apply Hok.
  - destruct e; simpl in Hok.
    + by eapply IH.
    + by eapply IH.
    + destruct Hok as [_ Hok]. by eapply IH.
    + assert (uri c ∉ S ∪ matched_uris ms) by (by eapply IH). set_solver.
Qed.

Lemma respects_seen_never (S : gset string) evs :
  respects_seen S evs → never_requeries_matched evs.
Proof.
  intros Hok before. revert S evs Hok.
  induction before as [|e before IH];
    intros S evs Hok ms between cs after m c -> Hm Hc.
  - simpl in Hok.
    assert (uri c ∉ S ∪ matched_uris ms) by (by eapply respects_seen_level).
    assert (uri (concept m) ∈ matched_uris ms)
      by (apply matched_uris_elem; eauto).
    set_solver.
  - destruct e; simpl in Hok; [| |destruct Hok as [_ Hok]|]; by eapply IH.
Qed.

(** The loop on a ranked hierarchy: from a frontier of rank at most [k]
    it queries at most [k] levels and never a uri that is seen. *)
Lemma topdown_loop_levels rank top_concepts fuel segment concepts
    api_key model max_tokens k s st r st' :
  ranked rank concepts top_concepts →
  (k < fuel)%nat →
  frontier_bound rank concepts top_concepts k (current_matches s) →
  topdown_loop fuel segment concepts api_key model max_tokens s st = (r, st') →
  r ≠ Ok None
  ∧ ∃ evs, log st' = log st ++ evs
           ∧ (length (levels evs) ≤ k)%nat
           ∧ respects_seen (seen_uris s) evs.
Proof.
  intros Hrank. revert k s st.
  induction fuel as [|fuel IH]; intros k s st Hk Hfront; [lia|].
  simpl. destruct (truthy (current_matches s)) eqn:Hcur; simpl; cycle 1.
  { intros [= <- <-]. split; [done|]. exists []. rewrite app_nil_r.
    split_and!; [done | simpl; lia | done]. }
  unfold mbind, M_mbind, M_bind.
  destruct (topdown_step segment concepts api_key model max_tokens s st)
    as [r1 st1] eqn:Hstep.
  apply topdown_step_spec in Hstep.
  destruct Hstep as [(_ & -> & ->) | (Hne & io & Hio & Hcases)].
  { intros [= <- <-]. split; [done|]. exists []. rewrite app_nil_r.
    split_and!; [done | simpl; lia | done]. }
  assert (Hlevel : ∀ c, c ∈ new_narrower_concepts concepts s →
            c ∈ concepts ∧ uri c ∉ seen_uris s ∧ (rank (uri c) < k)%nat).
  { intros c (Hpool & Hout & p & Hp & Hu)%new_narrower_elem.
    split_and!; [done..|].
    destruct (Hfront p Hp) as [Hknown Hle].
    specialize (Hrank (concept p) c Hknown Hpool Hu). lia. }
  assert (Hk1 : (1 ≤ k)%nat).
  { destruct (new_narrower_concepts concepts s) as [|c l] eqn:Hl; [done|].
    destruct (Hlevel c) as (_ & _ & ?); [apply elem_of_cons; by left | lia]. }
  destruct Hcases as [(e & -> & Hlog) | (relevant & Hrel & Hlog & Hres)].
  - intros [= <- <-]. split; [done|].
    eexists. split; [exact Hlog|]. simpl.
    rewrite (levels_io io Hio). simpl. split; [lia|].
    split; [intros c Hc; by apply Hlevel|].
    rewrite <- (app_nil_r io). by apply respects_seen_io.
  - destruct Hres as [[-> ->] | [Hnonempty ->]].
    + intros [= <- <-]. split; [done|].
      eexists. split; [exact Hlog|]. simpl.
      rewrite levels_app, (levels_io io Hio). simpl. split; [lia|].
      split; [intros c Hc; by apply Hlevel|].
      by apply respects_seen_io.
    + intros Hloop. apply (IH (k - 1)%nat) in Hloop; [|lia|]; cycle 1.
      { intros m Hm. simpl in Hm.
        destruct (Hlevel (concept m) (Hrel m Hm)) as (Hpool & _ & Hlt).
        split; [apply elem_of_app; by right | lia]. }
      destruct Hloop as (Hsome & evs & Hlog' & Hcount & Hok). simpl in Hok.
      split; [done|].
      exists ([EvLevel (new_narrower_concepts concepts s)] ++ io
              ++ [EvMatched relevant] ++ evs).
      split; [by rewrite Hlog', Hlog, <- !app_assoc|].
      simpl. rewrite levels_app, (levels_io io Hio). simpl. split; [lia|].
      split; [intros c Hc; by apply Hlevel|].
      by apply respects_seen_io.
Qed.

(** C4, as the code has it. On a hierarchy without cycles, where every
    concept of the pool listed as narrower lies strictly below its parent
    and the top concepts have rank at most [depth], the traversal ends
    (any fuel above [depth] is enough), puts at most [depth] narrower
    levels to the oracle after the root level, and never puts to the
    oracle a uri that was matched before. A concept that was put to the
    oracle and not matched is not recorded as seen and can be put again. *)
Theorem topdown_acyclic_levels rank (depth fuel : nat) segment concepts
    top_concepts api_key model max_tokens st r st' :
  ranked rank concepts top_concepts →
  (∀ c, c ∈ top_concepts → (rank (uri c) ≤ depth)%nat) →
  (depth < fuel)%nat →
  match_segment_topdown fuel segment concepts top_concepts
    api_key model max_tokens st = (r, st') →
  r ≠ Ok None
  ∧ ∃ evs, log st' = log st ++ evs
           ∧ (length (levels evs) ≤ S depth)%nat
           ∧ never_requeries_matched evs.
Proof.
  intros Hrank Hdepth Hfuel.
  unfold match_segment_topdown, mbind, M_mbind, M_bind, tell. simpl.
  destruct (query_batches _ _ _ _ _ _ _) as [[top|e] st1] eqn:Hq;
    apply query_batches_spec in Hq as [(io & Hlog & Hio) Htop];
    simpl in Hlog; simpl.
  - assert (Htop' : ∀ m, m ∈ top → concept m ∈ top_concepts).
    { intros m Hm. destruct (Htop top m eq_refl Hm) as [Hnil|?]; [|done].
      by apply elem_of_nil in Hnil. }
    destruct (truthy top) eqn:Ht; simpl.
    + intros Hloop.
      apply (topdown_loop_levels rank top_concepts _ _ _ _ _ _ depth) in Hloop;
        [|done|done|]; cycle 1.
      { intros m Hm. simpl in Hm. split; [|by apply Hdepth, Htop'].
        apply elem_of_app. left. by apply Htop'. }
      destruct Hloop as (Hsome & evs & Hlog' & Hcount & Hok).
      simpl in Hlog', Hok. split; [done|].
      exists ([EvLevel top_concepts] ++ io ++ [EvMatched top] ++ evs).
      split; [by rewrite Hlog', Hlog, <- !app_assoc|].
      simpl. rewrite levels_app, (levels_io io Hio). simpl. split; [lia|].
      apply (respects_seen_never ∅). simpl. split; [set_solver|].
      apply respects_seen_io; [done|]. simpl.
      by rewrite (left_id_L ∅ (∪)).
    + intros [= <- <-]. split; [done|].
      exists ([EvLevel top_concepts] ++ io ++ [EvMatched top]).
      split; [by rewrite Hlog, <- !app_assoc|].
      simpl. rewrite levels_app, (levels_io io Hio). simpl. split; [lia|].
      apply (respects_seen_never ∅). simpl. split; [set_solver|].
      by apply respects_seen_io.
  - intros [= <- <-]. split; [done|].
    exists ([EvLevel top_concepts] ++ io).
    split; [by rewrite Hlog, <- !app_assoc|].
    simpl. rewrite (levels_io io Hio). simpl. split; [lia|].
    apply (respects_seen_never ∅). simpl. split; [set_solver|].
    rewrite <- (app_nil_r io). by apply respects_seen_io.
Qed.

End LevelFacts.

Lemma topdown_terminates_witness :
  let script := ApiContent <$> (Scripted.array_of <$> [["X"]; ["Y"]; ["X"]]) in
  let run fuel :=
    @match_segment_topdown _ (Scripted.env script) fuel
      (Scripted.segment "text") [concept_X; concept_Y] [concept_X]
      "key" "gpt-4.1" 800000 (Scripted.init script) in
  (run 3%nat).1 ≠ Ok None
  ∧ run 7%nat = run 3%nat
  ∧ ∀ s st0 s' st1,
      @topdown_step _ (Scripted.env script) (Scripted.segment "text")
        [concept_X; concept_Y] "key" "gpt-4.1" 800000 s st0
      = (Ok (inl s'), st1) →
      seen_uris s ⊂ seen_uris s'
      ∧ seen_uris s' ⊆ seen_uris s ∪ list_to_set (uri <$> [concept_X; concept_Y]).
Proof.
  intros script run.
  apply (@topdown_terminates _ (Scripted.env script) 3 7); simpl; lia.
Defined.

Example cyclic_thesaurus_run :
  let script := ApiContent <$> (Scripted.array_of <$> [["X"]; ["Y"]; ["X"]]) in
  (@match_segment_topdown _ (Scripted.env script) 3
     (Scripted.segment "text") [concept_X; concept_Y] [concept_X]
     "key" "gpt-4.1" 800000 (Scripted.init script)).1
  = Ok (Some [topdown_match concept_Y]).
Proof. by vm_compute. Qed.

Lemma ranked_PQR :
  ranked rank_PQR [concept_P; concept_Q; concept_R] [concept_P].
Proof.
  intros c c' Hc Hc' Hu.
  repeat (apply elem_of_cons in Hc as [-> | Hc]);
    try (by apply elem_of_nil in Hc);
    repeat (apply elem_of_cons in Hc' as [-> | Hc']);
    try (by apply elem_of_nil in Hc');
    simpl in Hu;
    repeat (apply elem_of_cons in Hu as [Hu | Hu]);
    try (by apply elem_of_nil in Hu); try discriminate Hu;
    vm_compute; lia.
Qed.

Lemma topdown_acyclic_levels_witness :
  let script := ApiContent <$> (Scripted.array_of <$> [["P"]; ["Q"]; []]) in
  let run :=
    @match_segment_topdown _ (Scripted.env script) 3
      (Scripted.segment "text") [concept_P; concept_Q; concept_R] [concept_P]
      "key" "gpt-4.1" 800000 (Scripted.init script) in
  run.1 ≠ Ok None
  ∧ ∃ evs, log run.2 = log (Scripted.init script) ++ evs
           ∧ (length (levels evs) ≤ 3)%nat
           ∧ never_requeries_matched evs.
Proof.
  intros script run.
  apply (@topdown_acyclic_levels _ (Scripted.env script) rank_PQR 2 3
           (Scripted.segment "text") [concept_P; concept_Q; concept_R]
           [concept_P] "key" "gpt-4.1" 800000 (Scripted.init script)).
  - apply ranked_PQR.
  - intros c Hc. apply list_elem_of_singleton in Hc as ->. vm_compute. lia.
  - lia.
  - apply surjective_pairing.
Defined.

(** C4, as stated, fails on the code: in the hierarchy where P lists Q and
    R as narrower and Q lists R, which has no cycle, the oracle that
    answers P, then Q, is asked about R at the level below P and, R not
    having been matched, again at the level below Q. *)
Lemma unmatched_concept_queried_twice :
  let script := ApiContent <$> (Scripted.array_of <$> [["P"]; ["Q"]; []]) in
  let run :=
    @match_segment_topdown _ (Scripted.env script) 3
      (Scripted.segment "text") [concept_P; concept_Q; concept_R] [concept_P]
      "key" "gpt-4.1" 800000 (Scripted.init script) in
  ranked rank_PQR [concept_P; concept_Q; concept_R] [concept_P]
  ∧ run.1 = Ok (Some [topdown_match concept_Q])
  ∧ levels (log run.2)
    = [[concept_P]; [concept_Q; concept_R]; [concept_R]]
  ∧ ¬ each_uri_queried_once (log run.2).
Proof.
  intros script run. split_and!.
  - apply ranked_PQR.
  - by vm_compute.
  - by vm_compute.
  - unfold each_uri_queried_once. intros Hnd.
    apply (bool_decide_pack _) in Hnd. by vm_compute in Hnd.
Qed.

(** ** The scenario of the specification *)

Section Scenario.
Context `{Externals}.
Implicit Types (st : State) (segment : Segment).

Lemma batch_single_label label segment_text model max_tokens :
  _batch_concept_labels_by_tokens [label] segment_text model max_tokens = [[label]].
Proof.
  unfold _batch_concept_labels_by_tokens, label_step. simpl.
  by rewrite andb_false_r.
Qed.

(** One batch put to a service that answers with content: the matches are
    those resolved from the names in the answer. *)
Lemma query_single_batch labels segment api_key model candidates acc st
    response clean parsed nws w :
  PyStr.startswith model "gpt-" = true →
  chat_completions_create
    (request (_build_topdown_matching_prompt labels (text segment)) api_key model EmptyString)
    (world st) = (ApiContent response, w) →
  _clean_json_output response = Ok clean →
  json_loads clean = Some (JList parsed) →
  _extract_selected_names parsed = Ok nws →
  nws ≠ ∅ →
  query_batches [labels] segment api_key model candidates acc st
  = (Ok (acc ++ resolve_names nws candidates),
     {| world := w;
        log := log st ++ [EvCreate (request (_build_topdown_matching_prompt
                                               labels (text segment))
                                      api_key model EmptyString)] |}).
Proof.
  intros Hgpt Hcreate Hclean Hjson Hnames Hne.
  unfold query_batches, _safe_get_relevant_concepts.
  change (seqZ 0 (1 + 1)) with [0; 1].
  unfold safe_get_loop, chat_router__chat, _safe_chat_call. rewrite Hgpt.
  change (Z.to_nat 5) with 5%nat.
  unfold mbind at 1, M_mbind at 1, M_bind at 1.
  unfold mbind at 1, M_mbind at 1, M_bind at 1.
  erewrite safe_chat_loop_content by exact Hcreate.
  unfold _get_matched_concepts_from_response. rewrite Hclean. simpl.
  rewrite Hjson, Hnames. simpl. by rewrite decide_False.
Qed.

(** C1. The thesaurus is A (top, narrower B), B, C (top). The two root
    labels go to the oracle as one query, answered ["A"]; the query for
    the narrower concepts of A is answered ["B"]. Then
    [match_segment_topdown] returns exactly [B]: the root match A sets the
    frontier and is not in the result. *)
Theorem topdown_root_match_not_in_result fuel segment api_key model max_tokens st
    response1 response2 clean1 clean2 w1 w2 :
  PyStr.startswith model "gpt-" = true →
  _batch_concept_labels_by_tokens ["A"; "C"] (text segment) model max_tokens
  = [["A"; "C"]] →
  chat_completions_create
    (request (_build_topdown_matching_prompt ["A"; "C"] (text segment)) api_key model EmptyString)
    (world st) = (ApiContent response1, w1) →
  chat_completions_create
    (request (_build_topdown_matching_prompt ["B"] (text segment)) api_key model EmptyString)
    w1 = (ApiContent response2, w2) →
  _clean_json_output response1 = Ok clean1 →
  json_loads clean1 = Some (JList [JStr "A"]) →
  _clean_json_output response2 = Ok clean2 →
  json_loads clean2 = Some (JList [JStr "B"]) →
  (2 ≤ fuel)%nat →
  match_segment_topdown fuel segment [concept_A; concept_B; concept_C]
    [concept_A; concept_C] api_key model max_tokens st
  = (Ok (Some [topdown_match concept_B]),
     {| world := w2;
        log := log st ++
          [EvLevel [concept_A; concept_C];
           EvCreate (request (_build_topdown_matching_prompt ["A"; "C"] (text segment))
                       api_key model EmptyString);
           EvMatched [topdown_match concept_A];
           EvLevel [concept_B];
           EvCreate (request (_build_topdown_matching_prompt ["B"] (text segment))
                       api_key model EmptyString);
           EvMatched [topdown_match concept_B]] |}).
Proof.
  intros Hgpt Hbatch Hcreate1 Hcreate2 Hclean1 Hjson1 Hclean2 Hjson2 Hfuel.
  destruct fuel as [|[|fuel]]; [lia..|].
  unfold match_segment_topdown.
  change (_generate_concept_labels [concept_A; concept_C]) with ["A"; "C"].
  rewrite Hbatch.
  unfold mbind at 1, M_mbind at 1, M_bind at 1. unfold tell at 1.
  unfold mbind at 1, M_mbind at 1, M_bind at 1.
  erewrite (query_single_batch ["A"; "C"] segment api_key model
              [concept_A; concept_C] [] _ response1 clean1 [JStr "A"]
              (<["A" := None]> ∅) w1);
    [|done|exact Hcreate1|done|done|done|apply insert_non_empty].
  change (resolve_names (<["A":=None]> ∅) [concept_A; concept_C])
    with [topdown_match concept_A].
  change ([] ++ [topdown_match concept_A]) with [topdown_match concept_A].
  unfold mbind at 1, M_mbind at 1, M_bind at 1, tell at 1.
  cbn [negb truthy log world].
  (* first turn of the loop: the narrower concepts of A *)
  cbn [topdown_loop current_matches negb truthy].
  unfold mbind at 1, M_mbind at 1, M_bind at 1.
  unfold topdown_step at 1.
  replace (new_narrower_concepts [concept_A; concept_B; concept_C] _)
    with [concept_B] by (by vm_compute).
  cbn [negb truthy].
  change (_generate_concept_labels [concept_B]) with ["B"].
  rewrite batch_single_label.
  unfold mbind at 1, M_mbind at 1, M_bind at 1, tell at 1.
  unfold mbind at 1, M_mbind at 1, M_bind at 1.
  erewrite (query_single_batch ["B"] segment api_key model
              [concept_B] [] _ response2 clean2 [JStr "B"]
              (<["B" := None]> ∅) w2);
    [|done|exact Hcreate2|done|done|done|apply insert_non_empty].
  change (resolve_names (<["B":=None]> ∅) [concept_B])
    with [topdown_match concept_B].
  change ([] ++ [topdown_match concept_B]) with [topdown_match concept_B].
  unfold mbind at 1, M_mbind at 1, M_bind at 1, tell at 1.
  cbn [negb truthy log world matches current_matches seen_uris app mret M_mret M_ret].
  (* second turn: B has no narrower concept *)
  unfold mbind at 1, M_mbind at 1, M_bind at 1.
  unfold topdown_step at 1.
  replace (new_narrower_concepts [concept_A; concept_B; concept_C] _)
    with (@nil ThesaurusConcept) by (by vm_compute).
  cbn [negb truthy mret M_mret M_ret matches].
  unfold mret, M_mret, M_ret. by rewrite <- !app_assoc.
Qed.

End Scenario.

Lemma topdown_root_match_not_in_result_witness :
  let script := ApiContent <$> (Scripted.array_of <$> [["A"]; ["B"]]) in
  let segment := Scripted.segment "We were taken to the camp." in
  let prompt labels :=
    @_build_topdown_matching_prompt _ (Scripted.env script) labels (text segment) in
  @match_segment_topdown _ (Scripted.env script) 2 segment
    [concept_A; concept_B; concept_C] [concept_A; concept_C]
    "key" "gpt-4.1" 800000 (Scripted.init script)
  = (Ok (Some [topdown_match concept_B]),
     @Build_State _ (Scripted.env script) 2%nat
       [EvLevel [concept_A; concept_C];
        EvCreate (request (prompt ["A"; "C"]) "key" "gpt-4.1" EmptyString);
        EvMatched [topdown_match concept_A];
        EvLevel [concept_B];
        EvCreate (request (prompt ["B"]) "key" "gpt-4.1" EmptyString);
        EvMatched [topdown_match concept_B]]).
Proof.
  intros script segment prompt.
  apply (@topdown_root_match_not_in_result _ (Scripted.env script) 2
           segment "key" "gpt-4.1" 800000 (Scripted.init script)
           (Scripted.array_of ["A"]) (Scripted.array_of ["B"])
           (Scripted.array_of ["A"]) (Scripted.array_of ["B"]) 1%nat 2%nat).
  - reflexivity.
  - by vm_compute.
  - reflexivity.
  - reflexivity.
  - reflexivity.
  - reflexivity.
  - reflexivity.
  - reflexivity.
  - lia.
Defined.

(** ** The embedding matcher *)


(** [l[-0:]] is the whole of [l]. *)
Lemma slice_last_zero {A} (l : list A) : slice_last 0 l = l.
Proof.
  unfold slice_last. rewrite bool_decide_eq_false_2 by lia.
  by replace (Z.to_nat _) with 0%nat by lia.
Qed.



Section EmbeddingFacts.
Context `{Externals}.


End EmbeddingFacts.


Example embeddings_top_k_run :
  @match_segment_to_thesaurus_based_on_embeddings _ (Scripted.env [])
    [] [(3, 1%nat); (9, 1%nat); (5, 1%nat)]
    [concept_A; concept_B; concept_C] 2
  = Ok [embedding_match concept_B (9, 1%nat); embedding_match concept_C (5, 1%nat)].
Proof. by vm_compute. Qed.

(** With [top_k = 0] the slice [[-0:]] keeps every index. *)
Example embeddings_top_zero_returns_all :
  @match_segment_to_thesaurus_based_on_embeddings _ (Scripted.env [])
    [] [(3, 1%nat); (9, 1%nat)] [concept_A; concept_B] 0
  = Ok [embedding_match concept_B (9, 1%nat); embedding_match concept_A (3, 1%nat)].
Proof. by vm_compute. Qed.


(** * Further properties *)

(** ** Strings *)

Lemma string_app_cons c (x y : string) : String c x +:+ y = String c (x +:+ y).
Proof. reflexivity. Qed.

Lemma string_app_nil_l (y : string) : EmptyString +:+ y = y.
Proof. reflexivity. Qed.

Lemma string_app_empty (x y : string) : x +:+ y = EmptyString → y = EmptyString.
Proof. destruct x; [done | discriminate]. Qed.

Lemma string_length_app (x y : string) :
  String.length (x +:+ y) = (String.length x + String.length y)%nat.
Proof.
  induction x as [|c x IH]; [done|]. rewrite string_app_cons. simpl. by rewrite IH.
Qed.

Lemma string_prefix_app (p x : string) : String.prefix p (p +:+ x) = true.
Proof.
  induction p as [|c p IH]; [by destruct x|].
  rewrite string_app_cons. simpl. by destruct (ascii_dec c c).
Qed.

Lemma drop_front_app (p x : string) :
  PyStr.drop_front (String.length p) (p +:+ x) = x.
Proof. induction p as [|c p IH]; [done|]. by rewrite string_app_cons. Qed.

Lemma take_front_app (x y : string) :
  PyStr.take_front (String.length x) (x +:+ y) = x.
Proof.
  induction x as [|c x IH]; [by destruct y|].
  rewrite string_app_cons. simpl. by rewrite IH.
Qed.

Lemma string_app_assoc (x y z : string) : (x +:+ y) +:+ z = x +:+ (y +:+ z).
Proof.
  induction x as [|c x IH]; [done|]. rewrite !string_app_cons. by rewrite IH.
Qed.

Lemma string_app_nil_r (x : string) : x +:+ EmptyString = x.
Proof. induction x as [|c x IH]; [done|]. rewrite string_app_cons. by rewrite IH. Qed.

Lemma string_rev_app_acc (x acc : string) :
  String.rev_app x acc = String.rev x +:+ acc.
Proof.
  revert acc. induction x as [|c x IH]; intros acc; [reflexivity|].
  change (String.rev_app (String c x) acc) with (String.rev_app x (String c acc)).
  change (String.rev (String c x)) with (String.rev_app x (String c EmptyString)).
  rewrite (IH (String c acc)), (IH (String c EmptyString)), string_app_assoc.
  reflexivity.
Qed.

Lemma string_rev_app (x y : string) :
  String.rev (x +:+ y) = String.rev y +:+ String.rev x.
Proof.
  induction x as [|c x IH].
  - by rewrite string_app_nil_l, string_app_nil_r.
  - rewrite string_app_cons.
    change (String.rev (String c (x +:+ y)))
      with (String.rev_app (x +:+ y) (String c EmptyString)).
    change (String.rev (String c x)) with (String.rev_app x (String c EmptyString)).
    rewrite !string_rev_app_acc, IH. by rewrite string_app_assoc.
Qed.

Lemma endswith_app (x q : string) : PyStr.endswith (x +:+ q) q = true.
Proof. unfold PyStr.endswith. rewrite string_rev_app. apply string_prefix_app. Qed.

Lemma drop_back_app (x q : string) : PyStr.drop_back (String.length q) (x +:+ q) = x.
Proof.
  unfold PyStr.drop_back. rewrite string_length_app.
  replace (String.length x + String.length q - String.length q)%nat
    with (String.length x) by lia.
  apply take_front_app.
Qed.

Lemma lstrip_head (s : string) :
  PyStr.lstrip s = EmptyString
  ∨ ∃ c r, PyStr.lstrip s = String c r ∧ PyStr.is_space c = false.
Proof.
  induction s as [|c s IH]; [by left|]. simpl.
  destruct (PyStr.is_space c) eqn:Hc; [done|]. right. by exists c, s.
Qed.

Lemma rstrip_idemp (s : string) : PyStr.rstrip (PyStr.rstrip s) = PyStr.rstrip s.
Proof.
  induction s as [|c s IH]; [done|]. simpl.
  destruct (PyStr.rstrip s) as [|d r] eqn:Hr.
  - destruct (PyStr.is_space c) eqn:Hc; [done|]. simpl. by rewrite Hc.
  - simpl in *. by rewrite IH.
Qed.

Lemma rstrip_head c (r : string) :
  PyStr.is_space c = false → ∃ r', PyStr.rstrip (String c r) = String c r'.
Proof.
  intros Hc. simpl. destruct (PyStr.rstrip r); [rewrite Hc|]; eauto.
Qed.

Lemma strip_idemp (s : string) : PyStr.strip (PyStr.strip s) = PyStr.strip s.
Proof.
  unfold PyStr.strip.
  destruct (lstrip_head s) as [-> | (c & r & -> & Hc)]; [done|].
  destruct (rstrip_head c r Hc) as [r' Hr]. rewrite Hr.
  simpl PyStr.lstrip. rewrite Hc, <- Hr. apply rstrip_idemp.
Qed.

(** A text that ends with a text on which [rstrip] does nothing keeps its
    end. *)
Lemma rstrip_app_keep (x y : string) :
  y ≠ EmptyString → PyStr.rstrip y = y → PyStr.rstrip (x +:+ y) = x +:+ y.
Proof.
  intros Hy Hkeep. induction x as [|c x IH]; [done|].
  rewrite string_app_cons. simpl. rewrite IH.
  destruct (x +:+ y) eqn:Hxy; [|done].
  by apply string_app_empty in Hxy.
Qed.

Lemma string_prefix_head (a : ascii) (p s : string) :
  String.prefix (String a p) s = true → ∃ s', s = String a s'.
Proof.
  destruct s as [|b s]; cbn [String.prefix]; [done|].
  destruct (ascii_dec a b) as [<-|]; [eauto | done].
Qed.

(** ** response_cleaner.py *)

(** X1. The cleaner fails exactly on a response that, once stripped, opens a
    reasoning preamble which is never closed, and then with [IndexError]. *)
Theorem clean_json_output_fails_iff (response : string) (e : exn) :
  _clean_json_output response = Raise e
  ↔ e = IndexError
    ∧ PyStr.startswith (PyStr.strip response) "<think>" = true
    ∧ PyStr.split (PyStr.strip response) "</think>" !! 1%nat = None.
Proof.
  split; [apply clean_json_output_raises|].
  intros (-> & Hthink & Hsplit). unfold _clean_json_output.
  assert (Hfence : PyStr.startswith (PyStr.strip response) "```" = false
                   ∧ PyStr.startswith (PyStr.strip response) "```json" = false).
  { unfold PyStr.startswith in *.
    apply string_prefix_head in Hthink as [s ->].
    cbn [String.prefix]. by destruct (ascii_dec "`" "<"). }
  destruct Hfence as [-> ->]. by rewrite Hthink, Hsplit.
Qed.

(** X2. What the cleaner returns has no white space at either end. *)
Theorem clean_json_output_stripped (response clean : string) :
  _clean_json_output response = Ok clean → PyStr.strip clean = clean.
Proof.
  unfold _clean_json_output.
  destruct (PyStr.startswith _ "```json");
    [|destruct (PyStr.startswith _ "```");
      [|destruct (PyStr.startswith _ "<think>");
        [destruct (PyStr.split _ _ !! 1%nat); [|done]|]]];
    simpl; intros [= <-]; apply strip_idemp.
Qed.

Lemma clean_json_output_stripped_witness :
  PyStr.strip "[1, 2]" = "[1, 2]".
Proof.
  apply (clean_json_output_stripped "  ```json
[1, 2]
```  ").
  reflexivity.
Defined.

(** X3. A body between a json fence and a closing fence comes back stripped,
    whatever the body is. *)
Theorem clean_json_output_fenced (body : string) :
  _clean_json_output ("```json" +:+ body +:+ "```") = Ok (PyStr.strip body).
Proof.
  unfold _clean_json_output.
  assert (Hstrip : PyStr.strip ("```json" +:+ body +:+ "```")
                   = "```json" +:+ body +:+ "```").
  { unfold PyStr.strip.
    replace (PyStr.lstrip ("```json" +:+ body +:+ "```"))
      with ("```json" +:+ body +:+ "```") by done.
    rewrite <- string_app_assoc. by apply rstrip_app_keep. }
  rewrite Hstrip. unfold PyStr.startswith.
  rewrite string_prefix_app. simpl. rewrite string_app_nil_l, endswith_app.
  change 3%nat with (String.length "```"). by rewrite drop_back_app.
Qed.

(** ** batching.py: greedy filling *)

Section GreedyFacts.
Context {A : Type} (cost : A → Z) (limit : Z).

Local Abbreviation chain := (greedy_chain cost limit).
Local Abbreviation late := (closed_late cost limit).

Lemma greedy_chain_cons (b next : list A) (tl : list (list A)) :
  chain (b :: next :: tl) ↔ late b next ∧ chain (next :: tl).
Proof. reflexivity. Qed.

Lemma greedy_chain_snoc (bs : list (list A)) (b next : list A) :
  chain (bs ++ [b]) → late b next → chain (bs ++ [b; next]).
Proof.
  induction bs as [|a bs IH]; intros Hchain Hlate.
  - simpl. by split.
  - destruct bs as [|a2 bs].
    + simpl in *. destruct Hchain as [Ha _]. by split_and!.
    + rewrite <- !app_comm_cons in *.
      apply greedy_chain_cons in Hchain as [Ha Hchain].
      apply greedy_chain_cons. split; [done|]. by apply IH.
Qed.

Lemma greedy_chain_last (bs : list (list A)) (b b' : list A) :
  chain (bs ++ [b]) → (∀ a, late a b → late a b') → chain (bs ++ [b']).
Proof.
  intros Hchain Hext. induction bs as [|a bs IH]; [done|].
  destruct bs as [|a2 bs].
  - simpl in *. destruct Hchain as [Ha _]. split; [by apply Hext | done].
  - rewrite <- !app_comm_cons in *.
    apply greedy_chain_cons in Hchain as [Ha Hchain].
    apply greedy_chain_cons. split; [done|]. by apply IH.
Qed.

Lemma greedy_chain_split (bs pre post : list (list A)) (b rest : list A) x :
  chain bs → bs = pre ++ b :: (x :: rest) :: post →
  total_cost cost b + cost x > limit.
Proof.
  revert bs. induction pre as [|a pre IH]; intros bs Hchain ->.
  - rewrite app_nil_l in Hchain. by apply greedy_chain_cons in Hchain as [Hlate _].
  - rewrite <- app_comm_cons in Hchain.
    remember (pre ++ b :: (x :: rest) :: post) as tl eqn:Htl.
    destruct tl as [|next tl]; [by destruct pre|].
    apply greedy_chain_cons in Hchain as [_ Hchain]. by eapply IH.
Qed.

Lemma greedy_step_chain (st : batcher A) (x : A) :
  greedy_inv cost limit st → greedy_inv cost limit (greedy_step cost limit st x).
Proof.
  intros (Hchain & Hempty & Htok). unfold greedy_step.
  destruct (bool_decide _ && truthy _) eqn:Hc.
  - apply andb_true_iff in Hc as [Hgt%bool_decide_eq_true Hne%truthy_true].
    split_and!; simpl.
    + rewrite <- app_assoc. simpl. apply greedy_chain_snoc; [done|].
      simpl. lia.
    + done.
    + lia.
  - split_and!; simpl.
    + destruct (current_batch st) as [|y cur] eqn:Hcur.
      * by rewrite Hempty.
      * apply (greedy_chain_last _ (y :: cur)); [done|]. by intros a.
    + by destruct (current_batch st).
    + rewrite total_cost_snoc. lia.
Qed.

Lemma greedy_fold_chain (l : list A) (st : batcher A) :
  greedy_inv cost limit st →
  greedy_inv cost limit (foldl (greedy_step cost limit) st l).
Proof.
  revert st. induction l as [|x l IH]; intros st Hst; simpl; [done|].
  by apply IH, greedy_step_chain.
Qed.

Lemma greedy_batches_chain (l : list A) :
  chain (finish (foldl (greedy_step cost limit) batcher_init l)).
Proof.
  destruct (greedy_fold_chain l batcher_init) as (Hchain & Hempty & _).
  { by split_and!. }
  unfold finish. destruct (current_batch _) as [|y cur] eqn:Hcur; simpl.
  - by rewrite Hempty.
  - done.
Qed.

Lemma total_cost_app (b1 b2 : list A) :
  total_cost cost (b1 ++ b2) = total_cost cost b1 + total_cost cost b2.
Proof. induction b1 as [|y b1 IH]; simpl; lia. Qed.

Lemma total_cost_nonneg (b : list A) : (∀ y, 0 ≤ cost y) → 0 ≤ total_cost cost b.
Proof.
  intros Hpos. induction b as [|y b IH]; simpl; [lia|]. specialize (Hpos y). lia.
Qed.

(** When everything fits under the limit there is one batch. *)
Lemma greedy_single_batch (l : list A) :
  (∀ y, 0 ≤ cost y) → l ≠ [] → total_cost cost l ≤ limit →
  finish (foldl (greedy_step cost limit) batcher_init l) = [l].
Proof.
  intros Hpos Hne Hfits.
  pose proof (greedy_batches_chain l) as Hchain.
  pose proof (greedy_fold_concat cost limit l batcher_init) as Hcat.
  pose proof (greedy_batches_fit cost limit l) as Hfit.
  simpl in Hcat.
  destruct (finish _) as [|b [|b2 bs]] eqn:Hres.
  - simpl in Hcat. congruence.
  - simpl in Hcat. rewrite app_nil_r in Hcat. by subst.
  - exfalso. apply greedy_chain_cons in Hchain as [Hlate _].
    apply Forall_cons in Hfit as [_ Hfit].
    apply Forall_cons in Hfit as [[Hb2 _] _].
    destruct b2 as [|x r]; [done|]. simpl in Hlate.
    rewrite <- Hcat, !concat_cons, !total_cost_app in Hfits.
    change (total_cost cost (x :: r)) with (cost x + total_cost cost r) in Hfits.
    pose proof (total_cost_nonneg r Hpos).
    pose proof (total_cost_nonneg (concat bs) Hpos). lia.
Qed.

End GreedyFacts.

Section GreedyBatchers.
Context `{Externals}.

(** X4. Batches are filled greedily: in what either batcher returns, a batch
    that is followed by another one could not have taken the first item of
    that one without passing the budget. *)
Theorem batches_closed_late :
  (∀ segments model max_tokens pre b x rest post,
     let enc := _get_encoding_for_model model in
     let overhead :=
       Z.of_nat (length (encode enc (_build_segment_selector_prompt []))) in
     _batch_segments_by_tokens segments model max_tokens
     = pre ++ b :: (x :: rest) :: post →
     overhead + total_cost (segment_token_count enc) b
     + segment_token_count enc x > max_tokens)
  ∧ (∀ labels segment_text model max_tokens pre b x rest post,
       let enc := _get_encoding_for_model model in
       let overhead :=
         Z.of_nat (length (encode enc (_build_topdown_matching_prompt [] segment_text))) in
       _batch_concept_labels_by_tokens labels segment_text model max_tokens
       = pre ++ b :: (x :: rest) :: post →
       overhead + total_cost (label_token_count enc) b
       + label_token_count enc x > max_tokens).
Proof.
  split.
  - intros segments model max_tokens pre b x rest post enc overhead.
    unfold _batch_segments_by_tokens. fold enc. fold overhead.
    erewrite foldl_pointwise by (intros; apply segment_step_greedy).
    intros Hsplit.
    pose proof (greedy_chain_split _ _ _ _ _ _ _ _
                  (greedy_batches_chain _ _ segments) Hsplit). lia.
  - intros labels segment_text model max_tokens pre b x rest post enc overhead.
    unfold _batch_concept_labels_by_tokens. fold enc. fold overhead.
    erewrite foldl_pointwise by (intros; apply label_step_greedy).
    intros Hsplit.
    pose proof (greedy_chain_split _ _ _ _ _ _ _ _
                  (greedy_batches_chain _ _ labels) Hsplit). lia.
Qed.

(** X5. Items that fit together under the budget are not split: a non-empty
    input whose total cost plus the overhead is within the budget comes
    back as one batch. *)
Theorem batches_single_when_fits :
  (∀ segments model max_tokens,
     let enc := _get_encoding_for_model model in
     let overhead :=
       Z.of_nat (length (encode enc (_build_segment_selector_prompt []))) in
     segments ≠ [] →
     overhead + total_cost (segment_token_count enc) segments ≤ max_tokens →
     _batch_segments_by_tokens segments model max_tokens = [segments])
  ∧ (∀ labels segment_text model max_tokens,
       let enc := _get_encoding_for_model model in
       let overhead :=
         Z.of_nat (length (encode enc (_build_topdown_matching_prompt [] segment_text))) in
       labels ≠ [] →
       overhead + total_cost (label_token_count enc) labels ≤ max_tokens →
       _batch_concept_labels_by_tokens labels segment_text model max_tokens = [labels]).
Proof.
  split.
  - intros segments model max_tokens enc overhead Hne Hfits.
    unfold _batch_segments_by_tokens. fold enc. fold overhead.
    erewrite foldl_pointwise by (intros; apply segment_step_greedy).
    apply greedy_single_batch; [|done|lia].
    intros y. pose proof (segment_token_count_pos enc y). lia.
  - intros labels segment_text model max_tokens enc overhead Hne Hfits.
    unfold _batch_concept_labels_by_tokens. fold enc. fold overhead.
    erewrite foldl_pointwise by (intros; apply label_step_greedy).
    apply greedy_single_batch; [|done|lia].
    intros y. pose proof (label_token_count_pos enc y). lia.
Qed.

(** Empty input, no batch. *)
Lemma batches_of_nothing model segment_text max_tokens :
  _batch_segments_by_tokens [] model max_tokens = []
  ∧ _batch_concept_labels_by_tokens [] segment_text model max_tokens = [].
Proof. done. Qed.

End GreedyBatchers.

Lemma batches_closed_late_witness :
  let E := Scripted.env [] in
  let enc := @_get_encoding_for_model _ E "gpt-4.1" in
  let overhead :=
    Z.of_nat (length (@encode _ E enc (@_build_topdown_matching_prompt _ E [] "t"))) in
  overhead + total_cost (@label_token_count _ E enc) ["aaaa"]
  + @label_token_count _ E enc "bbbb" > 30.
Proof.
  intros E enc overhead.
  apply (proj2 (@batches_closed_late _ E) ["aaaa"; "bbbb"] "t" "gpt-4.1" 30
           [] ["aaaa"] "bbbb" [] []).
  by vm_compute.
Defined.

Lemma batches_single_when_fits_witness :
  @_batch_concept_labels_by_tokens _ (Scripted.env []) ["aaaa"; "bbbb"] "t" "gpt-4.1" 800
  = [["aaaa"; "bbbb"]].
Proof.
  apply (proj2 (@batches_single_when_fits _ (Scripted.env []))
           ["aaaa"; "bbbb"] "t" "gpt-4.1" 800).
  - done.
  - by vm_compute.
Defined.

(** ** batching.py: the first minutes of captions *)

Section FirstBatchFacts.
Context `{PyFloat} `{!PyFloatArith}.

Lemma captions_until_prefix (end_limit : pyfloat) (caps : list Caption) :
  ∃ rest, caps = captions_until end_limit caps ++ rest
    ∧ Forall (λ c, float_le (caption_end c) end_limit = true)
        (captions_until end_limit caps)
    ∧ (∀ c rest', rest = c :: rest' → float_le (caption_end c) end_limit = false).
Proof.
  induction caps as [|c caps (rest & Heq & Hall & Hnext)]; simpl.
  - exists []. by split_and!.
  - destruct (float_le (caption_end c) end_limit) eqn:Hc.
    + exists rest. split_and!; [simpl; by f_equal | by constructor | done].
    + exists (c :: caps). split_and!; [done | constructor |].
      by intros c' rest' [= <- <-].
Qed.

(** X6. The first batch is a prefix of the captions: every caption in it ends
    no later than the first caption's end plus [max_minutes * 60], and the
    caption that follows the batch, if there is one, ends later. No later
    caption is taken, even one that ends within the limit. *)
Theorem first_batch_prefix (caps : list Caption) (max_minutes : Z) :
  ∃ rest,
    caps = _first_batch_with_x_minutes_of_captions caps max_minutes ++ rest
    ∧ ∀ first tl, caps = first :: tl →
        let end_limit := float_add_int (caption_end first) (max_minutes * 60) in
        Forall (λ c, float_le (caption_end c) end_limit = true)
          (_first_batch_with_x_minutes_of_captions caps max_minutes)
        ∧ ∀ c rest', rest = c :: rest' →
            float_le (caption_end c) end_limit = false.
Proof.
  destruct caps as [|first tl].
  - exists []. by split.
  - unfold _first_batch_with_x_minutes_of_captions.
    destruct (captions_until_prefix
                (float_add_int (caption_end first) (max_minutes * 60))
                (first :: tl)) as (rest & Heq & Hall & Hnext).
    exists rest. split; [done|]. by intros ? ? [= <- <-].
Qed.

End FirstBatchFacts.

(** ** matching.py: names, resolution, validation *)

Section NamesFacts.
Context `{PyFloat}.

Lemma score_value_raises (score : option json) (e : exn) :
  score_value score = Raise e → e = OverflowError.
Proof.
  unfold score_value, py_float.
  destruct score as [[| [] | n | f | s | l | d]|]; try done;
    repeat match goal with
           | |- context [float_of_int ?n] => destruct (float_of_int n)
           | |- context [float_of_str ?s] => destruct (float_of_str s)
           end; by intros [= <-].
Qed.

Lemma extract_item_ok (acc acc' : gmap string (option pyfloat)) (item : json) :
  extract_item acc item = Ok acc' →
  ∀ n, is_Some (acc' !! n) ↔ is_Some (acc !! n) ∨ names_item item n.
Proof.
  unfold extract_item, names_item.
  destruct item as [| b | z | f | s | l | d]; try (intros [= <-] n; naive_solver).
  - intros [= <-] n. rewrite lookup_insert_is_Some'. naive_solver.
  - destruct (dict_get d "concept") as [c|] eqn:Hc;
      [|intros [= <-] n; naive_solver].
    destruct c as [| b | z | f | s | l | d']; try done. simpl.
    destruct (score_value _) as [sc|e]; simpl; [|done].
    intros [= <-] n. rewrite lookup_insert_is_Some'. naive_solver.
Qed.

Lemma extract_item_raises (acc : gmap string (option pyfloat)) (item : json) e :
  extract_item acc item = Raise e → e = AttributeError ∨ e = OverflowError.
Proof.
  unfold extract_item.
  destruct item as [| b | z | f | s | l | d]; try done.
  destruct (dict_get d "concept") as [c|]; [|done].
  destruct c as [| b | z | f | s | l | d']; simpl;
    try (intros [= <-]; by left).
  destruct (score_value _) as [sc|e'] eqn:Hs; simpl; [done|].
  intros [= <-]. right. by eapply score_value_raises.
Qed.

Lemma extract_fold_ok (parsed : list json) (acc nws : gmap string (option pyfloat)) :
  result_foldl extract_item acc parsed = Ok nws →
  ∀ n, is_Some (nws !! n)
       ↔ is_Some (acc !! n) ∨ ∃ item, item ∈ parsed ∧ names_item item n.
Proof.
  revert acc. induction parsed as [|item parsed IH]; intros acc; simpl.
  - intros [= <-] n. split; [by left|].
    intros [?|(item & Hin & _)]; [done | by apply elem_of_nil in Hin].
  - destruct (extract_item acc item) as [acc'|e] eqn:Hitem; simpl; [|done].
    intros Hrest n. rewrite (IH _ Hrest n), (extract_item_ok _ _ _ Hitem n).
    split.
    + intros [[?|?]|(it & Hin & ?)]; [by left | right; exists item | right; exists it];
        (split; [|done]); apply elem_of_cons; auto.
    + intros [?|(it & [-> | Hin]%elem_of_cons & ?)];
        [by left; left | by left; right | right; by exists it].
Qed.

Lemma extract_fold_raises (parsed : list json) (acc : gmap string (option pyfloat)) e :
  result_foldl extract_item acc parsed = Raise e →
  e = AttributeError ∨ e = OverflowError.
Proof.
  revert acc. induction parsed as [|item parsed IH]; intros acc; simpl; [done|].
  destruct (extract_item acc item) as [acc'|e'] eqn:Hitem; simpl.
  - apply IH.
  - intros [= <-]. by eapply extract_item_raises.
Qed.

Lemma extract_names_lookup (parsed : list json)
    (nws : gmap string (option pyfloat)) (n : string) :
  _extract_selected_names parsed = Ok nws →
  is_Some (nws !! n) ↔ ∃ item, item ∈ parsed ∧ names_item item n.
Proof.
  intros Hok. rewrite (extract_fold_ok _ _ _ Hok n), lookup_empty.
  split; [|by right]. intros [[? [=]]|?]. done.
Qed.

(** X7. The names [_extract_selected_names] returns are exactly the stripped
    names the items of the answer carry, as plain strings or under the
    key "concept"; every other item is passed over. *)
Theorem extract_selected_names_domain (parsed : list json)
    (nws : gmap string (option pyfloat)) :
  _extract_selected_names parsed = Ok nws →
  ∀ n, is_Some (nws !! n) ↔ ∃ item, item ∈ parsed ∧ names_item item n.
Proof. intros Hok n. by apply extract_names_lookup. Qed.

(** X8. [_extract_selected_names] fails only with [AttributeError] (an object
    whose "concept" is not a string) or [OverflowError] (a score that is
    an integer too large for a float): never with the [TypeError] or the
    [JSONDecodeError] its caller retries on. *)
Theorem extract_selected_names_errors (parsed : list json) (e : exn) :
  _extract_selected_names parsed = Raise e →
  e = AttributeError ∨ e = OverflowError.
Proof. apply extract_fold_raises. Qed.

Lemma resolve_fold_omap (nws : gmap string (option pyfloat))
    (concepts : list ThesaurusConcept) (acc : list MatchedConcept) :
  foldl (λ matched c,
           match nws !! PyStr.strip (name c) with
           | Some sc =>
               matched ++ [{| concept := c; source := "Top-down matching";
                              score := sc |}]
           | None => matched
           end) acc concepts
  = acc ++ omap (λ c, (λ sc, {| concept := c; source := "Top-down matching";
                                score := sc |})
                      <$> nws !! PyStr.strip (name c)) concepts.
Proof.
  revert acc. induction concepts as [|c cs IH]; intros acc; simpl.
  - by rewrite app_nil_r.
  - rewrite IH. destruct (nws !! _); simpl; [|done]. by rewrite <- app_assoc.
Qed.

Lemma resolve_names_omap (nws : gmap string (option pyfloat))
    (concepts : list ThesaurusConcept) :
  resolve_names nws concepts
  = omap (λ c, (λ sc, {| concept := c; source := "Top-down matching";
                         score := sc |})
               <$> nws !! PyStr.strip (name c)) concepts.
Proof. apply (resolve_fold_omap nws concepts []). Qed.

Lemma resolve_names_sublist (nws : gmap string (option pyfloat))
    (concepts : list ThesaurusConcept) :
  concept <$> resolve_names nws concepts `sublist_of` concepts.
Proof.
  rewrite resolve_names_omap.
  induction concepts as [|c cs IH]; simpl; [constructor|].
  destruct (nws !! _); simpl; [by apply sublist_skip | by apply sublist_cons].
Qed.

Lemma resolve_names_source (nws : gmap string (option pyfloat))
    (concepts : list ThesaurusConcept) :
  Forall (λ m, source m = "Top-down matching") (resolve_names nws concepts).
Proof.
  rewrite resolve_names_omap.
  induction concepts as [|c cs IH]; simpl; [constructor|].
  destruct (nws !! _); simpl; [by constructor | done].
Qed.

Lemma resolve_names_elem (nws : gmap string (option pyfloat))
    (concepts : list ThesaurusConcept) (c : ThesaurusConcept) :
  c ∈ concept <$> resolve_names nws concepts
  ↔ c ∈ concepts ∧ is_Some (nws !! PyStr.strip (name c)).
Proof.
  rewrite resolve_names_omap, list_elem_of_fmap. split.
  - intros (m & -> & (c' & Hc' & Hm)%list_elem_of_omap).
    destruct (nws !! PyStr.strip (name c')) as [sc|] eqn:Hsc; [|done].
    injection Hm as <-. simpl. split; [done|]. by rewrite Hsc.
  - intros [Hc [sc Hsc]].
    exists {| concept := c; source := "Top-down matching"; score := sc |}.
    split; [done|]. apply list_elem_of_omap. exists c. by rewrite Hsc.
Qed.

End NamesFacts.

Lemma extract_selected_names_domain_witness :
  is_Some ((<["A" := None]> ∅ : gmap string (option Scripted.decimal)) !! "A")
  ↔ ∃ item, item ∈ [@JStr Scripted.float " A "; JInt 1]
            ∧ names_item item "A".
Proof.
  apply (@extract_selected_names_domain Scripted.float [JStr " A "; JInt 1]).
  reflexivity.
Defined.

Lemma extract_selected_names_errors_witness :
  AttributeError = AttributeError ∨ AttributeError = OverflowError.
Proof.
  apply (@extract_selected_names_errors Scripted.float
           [JStr "A"; JDict [("concept", JInt 3)]] AttributeError).
  reflexivity.
Defined.

Section ResolutionFacts.
Context `{Externals}.
Implicit Types (st : State) (concepts : list ThesaurusConcept).

(** X9. The matches resolved from a response follow the order of the concept
    list, not the order of the answer, with at most one match for each
    entry of the list, and all carry the source 'Top-down matching'. *)
Theorem get_matched_in_concept_order response concepts ms :
  _get_matched_concepts_from_response response concepts = Ok ms →
  concept <$> ms `sublist_of` concepts
  ∧ Forall (λ m, source m = "Top-down matching") ms.
Proof.
  unfold _get_matched_concepts_from_response.
  destruct (_clean_json_output response) as [clean|e]; simpl; [|done].
  destruct (json_loads clean) as [parsed|];
    [|intros [= <-]; split; [apply sublist_nil_l | constructor]].
  destruct parsed;
    try (intros [= <-]; split; [apply sublist_nil_l | constructor]).
  destruct (_extract_selected_names l) as [nws|e]; simpl; [|done].
  destruct (decide (nws = ∅)); intros [= <-].
  - split; [apply sublist_nil_l | constructor].
  - split; [apply resolve_names_sublist | apply resolve_names_source].
Qed.

(** X10. Resolution is by stripped name: once the response parses to a list, a
    concept of the list is matched exactly when some item of the answer
    names it; every concept carrying a returned name is matched, and a
    returned name that no concept carries is dropped. *)
Theorem get_matched_by_name response concepts clean parsed nws :
  _clean_json_output response = Ok clean →
  json_loads clean = Some (JList parsed) →
  _extract_selected_names parsed = Ok nws →
  ∃ ms, _get_matched_concepts_from_response response concepts = Ok ms
        ∧ ∀ c, c ∈ concept <$> ms
               ↔ c ∈ concepts
                 ∧ ∃ item, item ∈ parsed ∧ names_item item (PyStr.strip (name c)).
Proof.
  intros Hclean Hjson Hnames. unfold _get_matched_concepts_from_response.
  rewrite Hclean. simpl. rewrite Hjson, Hnames. simpl.
  destruct (decide (nws = ∅)) as [->|Hne].
  - exists []. split; [done|]. intros c. split.
    + by intros ?%elem_of_nil.
    + intros [_ Hitem].
      apply (extract_names_lookup _ _ _ Hnames) in Hitem.
      rewrite lookup_empty in Hitem. by destruct Hitem.
  - eexists. split; [done|]. intros c.
    rewrite resolve_names_elem.
    by rewrite (extract_names_lookup _ _ _ Hnames).
Qed.

Lemma get_matched_errors response concepts e :
  _get_matched_concepts_from_response response concepts = Raise e →
  e = IndexError ∨ e = AttributeError ∨ e = OverflowError.
Proof.
  unfold _get_matched_concepts_from_response.
  destruct (_clean_json_output response) as [clean|e'] eqn:Hclean; simpl.
  - destruct (json_loads clean) as [parsed|]; [|done].
    destruct parsed; try done.
    destruct (_extract_selected_names l) as [nws|e'] eqn:Hn; simpl.
    + by destruct (decide _).
    + intros [= <-]. right. by eapply extract_fold_raises.
  - intros [= <-]. left. by apply clean_json_output_raises in Hclean as [-> _].
Qed.

(** X11. The retry of [_safe_get_relevant_concepts] is never taken: interpreting
    a response does not raise the [TypeError] or [JSONDecodeError] it
    waits for, so for [0 <= max_retries] the helper is one chat call
    followed by one interpretation, and a malformed answer is not asked for
    again. *)
Theorem safe_get_relevant_concepts_single_call prompt api_key model concepts
    (max_retries : Z) st :
  0 ≤ max_retries →
  _safe_get_relevant_concepts prompt api_key model concepts max_retries st
  = (response ← chat_router__chat prompt api_key model EmptyString;
     M_of_result (_get_matched_concepts_from_response response concepts)) st.
Proof.
  intros Hpos. unfold _safe_get_relevant_concepts.
  replace (max_retries + 1) with (Z.succ max_retries) by lia.
  rewrite seqZ_cons by lia. simpl.
  unfold mbind, M_mbind, M_bind.
  destruct (chat_router__chat _ _ _ _ st) as [[response|e] st1]; [|done].
  destruct (_get_matched_concepts_from_response response concepts)
    as [ms|e] eqn:Hm; [done|].
  apply get_matched_errors in Hm.
  rewrite bool_decide_eq_false_2; [done|].
  intros [-> | ->]; naive_solver.
Qed.

(** X12. The narrower concepts found are the concepts of the pool, in pool
    order, whose uri some current concept lists as narrower: a listed uri
    with no concept in the pool is dropped, and a concept listed by
    several parents comes once. *)
Theorem find_narrower_concepts_spec (current target : list ThesaurusConcept) :
  _find_narrower_concepts current target `sublist_of` target
  ∧ ∀ c, c ∈ _find_narrower_concepts current target
         ↔ c ∈ target ∧ ∃ p, p ∈ current ∧ uri c ∈ narrower p.
Proof.
  unfold _find_narrower_concepts. split; [apply sublist_filter|].
  intros c. rewrite list_elem_of_filter, narrower_uris_fold. split.
  - intros [[Hnil|?] ?]; [by apply elem_of_nil in Hnil | done].
  - intros [? ?]. split; [by right | done].
Qed.

End ResolutionFacts.

Lemma get_matched_in_concept_order_witness :
  let ms := [topdown_match concept_A; topdown_match concept_C] in
  concept <$> ms `sublist_of` [concept_A; concept_B; concept_C]
  ∧ Forall (λ m, source m = "Top-down matching") ms.
Proof.
  intros ms.
  apply (@get_matched_in_concept_order _ (Scripted.env [])
           (Scripted.array_of ["C"; "A"]) [concept_A; concept_B; concept_C]).
  by vm_compute.
Defined.

Lemma get_matched_by_name_witness :
  ∃ ms, @_get_matched_concepts_from_response _ (Scripted.env [])
          (Scripted.array_of ["C"; "Z"]) [concept_A; concept_B; concept_C] = Ok ms
        ∧ ∀ c, c ∈ concept <$> ms
               ↔ c ∈ [concept_A; concept_B; concept_C]
                 ∧ ∃ item, item ∈ [JStr "C"; JStr "Z"]
                           ∧ names_item item (PyStr.strip (name c)).
Proof.
  apply (@get_matched_by_name _ (Scripted.env [])
           (Scripted.array_of ["C"; "Z"]) [concept_A; concept_B; concept_C]
           (Scripted.array_of ["C"; "Z"]) [JStr "C"; JStr "Z"]
           (<["Z" := None]> (<["C" := None]> ∅))).
  - reflexivity.
  - reflexivity.
  - reflexivity.
Defined.

Lemma safe_get_relevant_concepts_single_call_witness :
  let script := [ApiContent "not json"; ApiContent (Scripted.array_of ["A"])] in
  @_safe_get_relevant_concepts _ (Scripted.env script)
    "prompt" "key" "gpt-4.1" [concept_A] 1 (Scripted.init script)
  = (response ← @chat_router__chat _ (Scripted.env script)
                  "prompt" "key" "gpt-4.1" EmptyString;
     M_of_result (@_get_matched_concepts_from_response _ (Scripted.env script)
                    response [concept_A])) (Scripted.init script).
Proof.
  intros script.
  apply (@safe_get_relevant_concepts_single_call _ (Scripted.env script)).
  lia.
Defined.

Section ValidationFacts.
Context `{PyFloat}.

Lemma revalidate_fold (nts : gmap string (option pyfloat))
    (mcs acc : list MatchedConcept) :
  foldl (λ validated_matches mc,
           match nts !! PyStr.strip (name (concept mc)) with
           | Some new_score =>
               validated_matches
               ++ [{| concept := concept mc;
                      source := source mc;
                      score := match new_score with
                               | Some f => Some f
                               | None => score mc
                               end |}]
           | None => validated_matches
           end) acc mcs
  = acc ++ omap (λ mc, (λ new_score,
                          {| concept := concept mc;
                             source := source mc;
                             score := match new_score with
                                      | Some f => Some f
                                      | None => score mc
                                      end |})
                       <$> nts !! PyStr.strip (name (concept mc))) mcs.
Proof.
  revert acc. induction mcs as [|mc mcs IH]; intros acc; simpl.
  - by rewrite app_nil_r.
  - rewrite IH. destruct (nts !! _); simpl; [|done]. by rewrite <- app_assoc.
Qed.

Lemma names_item_dec (item : json) (n : string) :
  names_item item n ∨ ¬ names_item item n.
Proof.
  unfold names_item. destruct item as [| b | z | f | s | l | d];
    try (right; intros [(s' & [=] & _) | (d' & s' & [=] & _)]; fail).
  - destruct (decide (n = PyStr.strip s)) as [->|Hne].
    + left. left. by exists s.
    + right. intros [(s' & [= <-] & ?) | (d' & s' & [=] & _)]. done.
  - destruct (dict_get d "concept") as [c|] eqn:Hc; cycle 1.
    { right. intros [(s' & [=] & _) | (d' & s' & [= <-] & Hget & _)]. congruence. }
    destruct c as [| b | z | f | s | l | d0];
      try (right; intros [(s' & [=] & _) | (d' & s' & [= <-] & Hget & _)];
           congruence).
    destruct (decide (n = PyStr.strip s)) as [->|Hne].
    + left. right. by exists d, s.
    + right. intros [(s' & [=] & _) | (d' & s' & [= <-] & Hget & ->)]. congruence.
Qed.

Lemma extract_item_value (acc acc' : gmap string (option pyfloat)) (item : json)
    (n : string) :
  extract_item acc item = Ok acc' →
  (names_item item n → acc' !! n = Some (item_score item))
  ∧ (¬ names_item item n → acc' !! n = acc !! n).
Proof.
  unfold extract_item, names_item.
  destruct item as [| b | z | f | s | l | d]; simpl;
    try (intros [= <-]; split; [|done];
         intros [(s' & [=] & _) | (d' & s' & [=] & _)]; fail).
  - intros [= <-]. split.
    + intros [(s' & [= <-] & ->) | (d' & s' & [=] & _)]. by rewrite lookup_insert_eq.
    + intros Hno. rewrite lookup_insert_ne; [done|].
      intros <-. apply Hno. left. by exists s.
  - destruct (dict_get d "concept") as [c|] eqn:Hc; cycle 1.
    { intros [= <-]. split; [|done].
      intros [(s' & [=] & _) | (d' & s' & [= <-] & Hget & _)]. congruence. }
    destruct c as [| b | z | f | s | l | d0]; simpl; try done.
    destruct (score_value (dict_get d "score")) as [sc|e]; simpl; [|done].
    intros [= <-]. split.
    + intros [(s' & [=] & _) | (d' & s' & [= <-] & Hget & ->)].
      rewrite Hc in Hget. injection Hget as <-. by rewrite lookup_insert_eq.
    + intros Hno. rewrite lookup_insert_ne; [done|].
      intros <-. apply Hno. right. by exists d, s.
Qed.

(** What the loop leaves under a name is the score of the last item that
    names it, or what was there before when no item names it. *)
Lemma extract_fold_value (parsed : list json)
    (acc nts : gmap string (option pyfloat)) (n : string) (sc : option pyfloat) :
  result_foldl extract_item acc parsed = Ok nts →
  nts !! n = Some sc →
  (∃ item, last_naming parsed n item ∧ sc = item_score item)
  ∨ (acc !! n = Some sc ∧ ∀ it, it ∈ parsed → ¬ names_item it n).
Proof.
  revert acc. induction parsed as [|item parsed IH]; intros acc; simpl.
  - intros [= <-] Hn. right. split; [done|]. by intros it ?%elem_of_nil.
  - destruct (extract_item acc item) as [acc1|e] eqn:Hitem; simpl; [|done].
    intros Hrest Hn.
    destruct (IH acc1 Hrest Hn)
      as [(it & (pre & post & -> & Hnames & Hlast) & ->) | [Hacc1 Hnone]].
    + left. exists it. split; [|done].
      exists (item :: pre), post. by rewrite app_comm_cons.
    + destruct (extract_item_value acc acc1 item n Hitem) as [Hyes Hno].
      destruct (names_item_dec item n) as [Hnames|Hnames].
      * left. exists item. split.
        -- exists [], parsed. by rewrite app_nil_l.
        -- rewrite (Hyes Hnames) in Hacc1. by injection Hacc1.
      * right. split; [by rewrite <- (Hno Hnames)|].
        intros it [-> | Hin]%elem_of_cons; [done | by apply Hnone].
Qed.

Lemma revalidate_kept (parsed : list json) (nts : gmap string (option pyfloat))
    (mcs : list MatchedConcept) :
  result_foldl extract_item ∅ parsed = Ok nts →
  ∃ kept, kept `sublist_of` mcs
          ∧ Forall2 (validated_from parsed) kept (revalidate nts mcs).
Proof.
  intros Hfold. unfold revalidate. rewrite (revalidate_fold nts mcs []). simpl.
  induction mcs as [|mc mcs (kept & Hsub & Hall)]; simpl.
  - exists []. by split.
  - destruct (nts !! _) as [new_score|] eqn:Hn; simpl.
    + exists (mc :: kept). split; [by apply sublist_skip|].
      constructor; [|done]. split_and!; [done..|]. simpl.
      destruct (extract_fold_value parsed ∅ nts _ _ Hfold Hn)
        as [(item & Hlast & ->) | [Hempty _]].
      * by exists item.
      * by rewrite lookup_empty in Hempty.
    + exists kept. split; [by apply sublist_cons | done].
Qed.

(** With scores all absent, validation keeps the matches as they are. *)
Lemma revalidate_unscored (nts : gmap string (option pyfloat))
    (mcs : list MatchedConcept) :
  map_Forall (λ _ sc, sc = None) nts → revalidate nts mcs `sublist_of` mcs.
Proof.
  intros Hnone. unfold revalidate. rewrite (revalidate_fold nts mcs []). simpl.
  induction mcs as [|mc mcs IH]; simpl; [constructor|].
  destruct (nts !! _) as [new_score|] eqn:Hn; simpl.
  - rewrite (Hnone _ _ Hn). destruct mc. by apply sublist_skip.
  - by apply sublist_cons.
Qed.

Lemma extract_fold_unscored (parsed : list json)
    (acc : gmap string (option pyfloat)) :
  Forall (λ item, ∃ s, item = JStr s) parsed →
  map_Forall (λ _ sc, sc = None) acc →
  ∃ nts, result_foldl extract_item acc parsed = Ok nts
         ∧ map_Forall (λ _ sc, sc = None) nts.
Proof.
  intros Hstr. revert acc.
  induction Hstr as [|item parsed [s ->] _ IH]; intros acc Hacc; simpl.
  - by exists acc.
  - apply IH. by apply map_Forall_insert_2.
Qed.

Lemma dedup_from_app (l1 l2 : list MatchedConcept) (S : gset string) :
  dedup_from S (l1 ++ l2)
  = dedup_from S l1 ++ dedup_from (matched_uris l1 ∪ S) l2.
Proof.
  revert S. induction l1 as [|m l1 IH]; intros S.
  - simpl. f_equal. unfold matched_uris. set_solver.
  - rewrite <- app_comm_cons. cbn [dedup_from].
    assert (Hm : matched_uris (m :: l1) = {[uri (concept m)]} ∪ matched_uris l1)
      by done.
    destruct (decide (uri (concept m) ∉ S)) as [Hout|Hin].
    + rewrite IH, <- app_comm_cons.
      by replace (matched_uris (m :: l1) ∪ S)
        with (matched_uris l1 ∪ ({[uri (concept m)]} ∪ S))
        by (rewrite Hm; set_solver).
    + apply dec_stable in Hin. rewrite IH.
      by replace (matched_uris (m :: l1) ∪ S) with (matched_uris l1 ∪ S)
        by (rewrite Hm; set_solver).
Qed.

(** X13. Deduplicating two lists put end to end keeps the deduplicated first
    list and then, of the deduplicated second list, the matches whose uri
    the first list does not have. *)
Theorem deduplicate_matches_app (l1 l2 : list MatchedConcept) :
  deduplicate_matches (l1 ++ l2)
  = deduplicate_matches l1
    ++ filter (λ m, uri (concept m) ∉ matched_uris l1) (deduplicate_matches l2).
Proof.
  rewrite !deduplicate_matches_unfold, dedup_from_app. f_equal.
  replace (matched_uris l1 ∪ ∅) with (∅ ∪ matched_uris l1) by set_solver.
  apply dedup_from_union.
Qed.

End ValidationFacts.

Section ValidationRuns.
Context `{Externals}.
Implicit Types (st : State) (segment : Segment).

Lemma get_relevant_kept response (mcs vs : list MatchedConcept) :
  _get_revelant_matched_concepts_from_response response mcs = Ok vs →
  ∃ kept, kept `sublist_of` mcs ∧ Forall2 (validated_by response) kept vs.
Proof.
  unfold _get_revelant_matched_concepts_from_response.
  destruct (_clean_json_output response) as [clean|e] eqn:Hclean; simpl; [|done].
  assert (Hnil : ∃ kept : list MatchedConcept,
             kept `sublist_of` mcs ∧ Forall2 (validated_by response) kept []).
  { exists []. split; [apply sublist_nil_l | constructor]. }
  destruct (json_loads clean) as [parsed|] eqn:Hjson; [|by intros [= <-]].
  destruct parsed as [| b | z | f | s | parsed | d]; try (by intros [= <-]).
  destruct (result_foldl extract_item ∅ parsed) as [nts|e] eqn:Hfold; simpl; [|done].
  destruct (decide (nts = ∅)); intros [= <-]; [done|].
  destruct (revalidate_kept parsed nts mcs Hfold) as (kept & Hsub & Hall).
  exists kept. split; [done|].
  eapply Forall2_impl; [exact Hall|]. intros mc v Hv. by exists clean, parsed.
Qed.

Lemma chat_router_attempts prompt api_key model system_message st r st' :
  chat_router__chat prompt api_key model system_message st = (r, st') →
  ∃ evs, log st' = log st ++ evs ∧ (count_creates evs ≤ 5)%nat.
Proof.
  unfold chat_router__chat, _safe_chat_call.
  destruct (PyStr.startswith _ _).
  - apply safe_chat_loop_attempts.
  - intros [= <- <-]. exists []. rewrite app_nil_r. split; [done | simpl; lia].
Qed.

(** X14. Validation never adds a match and takes its scores from the
    answer. When [llm_validate_segment_matches] returns, the chat call on
    the validation prompt has returned a response, and the result comes
    from a sublist of the given matches, in their order: each has its
    concept and source unchanged, is named by the parsed response, and has
    the score carried by the last item of the response that names it, or
    its own score when that item carries none. The service is called at
    most five times. *)
Theorem llm_validate_keeps_sublist segment (mcs vs : list MatchedConcept)
    api_key model st st' :
  llm_validate_segment_matches segment mcs api_key model st = (Ok vs, st') →
  ∃ response,
    chat_router__chat
      (_build_match_validation_prompt (text segment)
         (_generate_matched_concept_labels mcs))
      api_key model EmptyString st
    = (Ok response, st')
    ∧ (∃ kept, kept `sublist_of` mcs ∧ Forall2 (validated_by response) kept vs)
    ∧ ∃ evs, log st' = log st ++ evs ∧ (count_creates evs ≤ 5)%nat.
Proof.
  unfold llm_validate_segment_matches, mbind, M_mbind, M_bind, M_of_result.
  destruct (chat_router__chat _ _ _ _ st) as [[response|e] st1] eqn:Hc; [|done].
  intros [= Hres <-]. exists response. split_and!.
  - done.
  - by eapply get_relevant_kept.
  - by eapply chat_router_attempts.
Qed.

(** X15. When the oracle answers with plain names, and so with no score, the
    validated matches are a sublist of the given ones, unchanged. *)
Theorem get_relevant_plain_names response clean parsed (mcs : list MatchedConcept) :
  _clean_json_output response = Ok clean →
  json_loads clean = Some (JList parsed) →
  Forall (λ item, ∃ s, item = JStr s) parsed →
  ∃ vs, _get_revelant_matched_concepts_from_response response mcs = Ok vs
        ∧ vs `sublist_of` mcs.
Proof.
  intros Hclean Hjson Hplain.
  unfold _get_revelant_matched_concepts_from_response.
  rewrite Hclean. simpl. rewrite Hjson.
  destruct (extract_fold_unscored parsed ∅ Hplain) as (nts & -> & Hnone).
  { apply map_Forall_empty. }
  simpl. destruct (decide (nts = ∅)).
  - exists []. split; [done | apply sublist_nil_l].
  - eexists. split; [done|]. by apply revalidate_unscored.
Qed.

End ValidationRuns.

Lemma llm_validate_keeps_sublist_witness :
  let script := [ApiContent (scored_array [("B", "0.9")])] in
  let mcs := [@exact_match Scripted.float concept_A; exact_match concept_B] in
  let vs := [{| concept := concept_B; source := "Exact occurrence";
                score := Some ((9, 1%nat) : Scripted.decimal) |}] in
  let st := scored_init script in
  let run :=
    @llm_validate_segment_matches _ (scored_env script)
      (Scripted.segment "text") mcs "key" "gpt-4.1" st in
  ∃ response,
    @chat_router__chat _ (scored_env script)
      (@_build_match_validation_prompt _ (scored_env script) "text"
         (_generate_matched_concept_labels mcs))
      "key" "gpt-4.1" EmptyString st
    = (Ok response, run.2)
    ∧ (∃ kept, kept `sublist_of` mcs
               ∧ Forall2 (@validated_by _ (scored_env script) response) kept vs)
    ∧ ∃ evs, log run.2 = log st ++ evs ∧ (count_creates evs ≤ 5)%nat.
Proof.
  intros script mcs vs st run.
  apply (@llm_validate_keeps_sublist _ (scored_env script)
           (Scripted.segment "text") mcs vs "key" "gpt-4.1" st run.2).
  reflexivity.
Defined.

Lemma get_relevant_plain_names_witness :
  let mcs := [exact_match concept_A; exact_match concept_B] in
  ∃ vs, @_get_revelant_matched_concepts_from_response _ (Scripted.env [])
          (Scripted.array_of ["B"]) mcs = Ok vs
        ∧ vs `sublist_of` mcs.
Proof.
  intros mcs.
  apply (@get_relevant_plain_names _ (Scripted.env [])
           (Scripted.array_of ["B"]) (Scripted.array_of ["B"]) [JStr "B"] mcs).
  - reflexivity.
  - reflexivity.
  - repeat constructor. by eexists.
Defined.

(** ** openai_client.py: what the retrying wrapper does *)

Section RetryFacts.
Context `{Externals}.
Implicit Types (st : State).

(** X16. [_safe_chat_call] calls the service at most [max_retries] times; with
    [max_retries <= 0] it calls nothing and raises the too-many-attempts
    error at once. *)
Theorem safe_chat_call_attempts prompt api_key model system_message
    (max_retries : Z) st r st' :
  _safe_chat_call prompt api_key model system_message max_retries st = (r, st') →
  (∃ evs, log st' = log st ++ evs
          ∧ (count_creates evs ≤ Z.to_nat max_retries)%nat)
  ∧ (max_retries ≤ 0 → r = Raise TooManyAttempts ∧ st' = st).
Proof.
  unfold _safe_chat_call. intros Hrun. split.
  - by eapply safe_chat_loop_attempts.
  - intros Hle. replace (Z.to_nat max_retries) with 0%nat in Hrun by lia.
    simpl in Hrun. by injection Hrun as <- <-.
Qed.

(** X17. An error of the service that is not a rate limit is passed on after
    one call, without sleeping and without another attempt. *)
Theorem safe_chat_call_other_error prompt api_key model system_message
    (max_retries : Z) st e w :
  0 < max_retries →
  chat_completions_create (request prompt api_key model system_message) (world st)
  = (ApiRaise e, w) →
  (∀ msg, e ≠ RateLimitError msg) →
  _safe_chat_call prompt api_key model system_message max_retries st
  = (Raise e,
     {| world := w;
        log := log st ++ [EvCreate (request prompt api_key model system_message)] |}).
Proof.
  intros Hpos Hc Hne. unfold _safe_chat_call.
  destruct (Z.to_nat max_retries) as [|n] eqn:Hn; [lia|].
  by apply safe_chat_loop_other_error.
Qed.

Lemma safe_chat_loop_always_limited n prompt api_key model system_message st :
  (∀ w, ∃ msg w',
     chat_completions_create (request prompt api_key model system_message) w
     = (ApiRaise (RateLimitError msg), w')
     ∧ re_search_try_again msg = None) →
  ∃ st',
    safe_chat_loop n prompt api_key model system_message st
    = (Raise TooManyAttempts, st')
    ∧ log st' = log st
        ++ concat (replicate n [EvCreate (request prompt api_key model system_message);
                                EvSleep (WaitInt 10)]).
Proof.
  intros Hlimited. revert st. induction n as [|n IH]; intros st.
  - exists st. split; [done|]. simpl. by rewrite app_nil_r.
  - destruct (Hlimited (world st)) as (msg & w' & Hc & Hre).
    rewrite (safe_chat_loop_no_hint _ _ _ _ _ _ _ _ Hc Hre).
    destruct (IH {| world := sleep_effect (WaitInt 10) w';
                    log := (log st ++ [EvCreate (request prompt api_key model
                                                   system_message)])
                           ++ [EvSleep (WaitInt 10)] |})
      as (st' & Hrun & Hlog).
    exists st'. split; [done|]. rewrite Hlog. simpl.
    by rewrite <- !app_assoc.
Qed.

(** X18. Against a service that answers every call with a rate-limit error
    carrying no wait hint, [_safe_chat_call] makes exactly [max_retries]
    calls, sleeps 10 after each of them, also after the last, and then
    raises the too-many-attempts error. *)
Theorem safe_chat_call_exhausted prompt api_key model system_message
    (max_retries : Z) st :
  (∀ w, ∃ msg w',
     chat_completions_create (request prompt api_key model system_message) w
     = (ApiRaise (RateLimitError msg), w')
     ∧ re_search_try_again msg = None) →
  ∃ st',
    _safe_chat_call prompt api_key model system_message max_retries st
    = (Raise TooManyAttempts, st')
    ∧ log st' = log st
        ++ concat (replicate (Z.to_nat max_retries)
                     [EvCreate (request prompt api_key model system_message);
                      EvSleep (WaitInt 10)]).
Proof. apply safe_chat_loop_always_limited. Qed.

End RetryFacts.

Lemma safe_chat_call_attempts_witness :
  let script := [ApiRaise (RateLimitError "slow down"); ApiContent "hello"] in
  let run :=
    @_safe_chat_call _ (Scripted.env script) "p" "k" "gpt-4.1" EmptyString 5
      (Scripted.init script) in
  (∃ evs, log run.2 = log (Scripted.init script) ++ evs
          ∧ (count_creates evs ≤ Z.to_nat 5)%nat)
  ∧ (5 ≤ 0 → run.1 = Raise TooManyAttempts ∧ run.2 = Scripted.init script).
Proof.
  intros script run.
  apply (@safe_chat_call_attempts _ (Scripted.env script)
           "p" "k" "gpt-4.1" EmptyString 5 (Scripted.init script)).
  apply surjective_pairing.
Defined.

Lemma safe_chat_call_other_error_witness :
  let script := [ApiRaise (OpenAIError "bad request")] in
  @_safe_chat_call _ (Scripted.env script) "p" "k" "gpt-4.1" EmptyString 5
    (Scripted.init script)
  = (Raise (OpenAIError "bad request"),
     @Build_State _ (Scripted.env script) 1%nat
       [EvCreate (request "p" "k" "gpt-4.1" EmptyString)]).
Proof.
  intros script.
  apply (@safe_chat_call_other_error _ (Scripted.env script)
           "p" "k" "gpt-4.1" EmptyString 5 (Scripted.init script)
           (OpenAIError "bad request") 1%nat).
  - lia.
  - reflexivity.
  - done.
Defined.

Lemma safe_chat_call_exhausted_witness :
  let out := ApiRaise (RateLimitError "Rate limit reached.") in
  ∃ st',
    @_safe_chat_call _ (always_env out) "p" "k" "gpt-4.1" EmptyString 3
      (always_init out)
    = (Raise TooManyAttempts, st')
    ∧ log st' = log (always_init out)
        ++ concat (replicate (Z.to_nat 3)
                     [EvCreate (request "p" "k" "gpt-4.1" EmptyString);
                      EvSleep (WaitInt 10)]).
Proof.
  intros out.
  apply (@safe_chat_call_exhausted _ (always_env out)).
  intros w. exists "Rate limit reached.", (S w). by split.
Defined.

(** ** batching.py: the batches, put end to end *)

Lemma segment_batches_concat `{Externals} segments model max_tokens :
  concat (_batch_segments_by_tokens segments model max_tokens) = segments.
Proof.
  unfold _batch_segments_by_tokens.
  erewrite foldl_pointwise by (intros; apply segment_step_greedy).
  by rewrite greedy_fold_concat.
Qed.

Lemma label_batches_concat `{Externals} labels segment_text model max_tokens :
  concat (_batch_concept_labels_by_tokens labels segment_text model max_tokens)
  = labels.
Proof.
  unfold _batch_concept_labels_by_tokens.
  erewrite foldl_pointwise by (intros; apply label_step_greedy).
  by rewrite greedy_fold_concat.
Qed.

(** ** matching.py: what the top-down matcher returns *)

Section TopdownResults.
Context `{Externals}.
Implicit Types (st : State) (s : topdown_state) (segment : Segment).
Implicit Types (concepts candidates : list ThesaurusConcept).

Lemma matched_lists_app evs1 evs2 :
  matched_lists (evs1 ++ evs2) = matched_lists evs1 ++ matched_lists evs2.
Proof.
  induction evs1 as [|e evs1 IH]; simpl; [done|].
  destruct e; simpl; by rewrite ?IH.
Qed.

Lemma matched_lists_io io : Forall io_event io → matched_lists io = [].
Proof. induction 1 as [|e io He _ IH]; simpl; [done|]. by destruct e. Qed.

Lemma get_matched_source response concepts ms :
  _get_matched_concepts_from_response response concepts = Ok ms →
  Forall (λ m, source m = "Top-down matching") ms.
Proof.
  unfold _get_matched_concepts_from_response.
  destruct (_clean_json_output response) as [clean|e]; simpl; [|done].
  destruct (json_loads clean) as [parsed|]; [|by intros [= <-]].
  destruct parsed; try (by intros [= <-]).
  destruct (_extract_selected_names l) as [nws|e]; simpl; [|done].
  destruct (decide (nws = ∅)); intros [= <-]; [done|].
  apply resolve_names_source.
Qed.

Lemma safe_get_loop_source attempts max_retries prompt api_key model candidates
    st ms st' :
  safe_get_loop attempts max_retries prompt api_key model candidates st
  = (Ok ms, st') →
  Forall (λ m, source m = "Top-down matching") ms.
Proof.
  revert st. induction attempts as [|a attempts IH]; intros st; simpl.
  - by intros [= <- <-].
  - unfold mbind, M_mbind, M_bind.
    destruct (chat_router__chat _ _ _ _ st) as [[response|e] st1]; [|done].
    destruct (_get_matched_concepts_from_response response candidates)
      as [matched|e] eqn:Hm.
    + intros [= <- <-]. by eapply get_matched_source.
    + case_bool_decide; [case_decide|]; [done | apply IH | done].
Qed.

Lemma query_batches_source batched segment api_key model candidates acc st ms st' :
  Forall (λ m, source m = "Top-down matching") acc →
  query_batches batched segment api_key model candidates acc st = (Ok ms, st') →
  Forall (λ m, source m = "Top-down matching") ms.
Proof.
  revert acc st. induction batched as [|b batched IH]; intros acc st Hacc; simpl.
  - by intros [= <- <-].
  - unfold mbind, M_mbind, M_bind, _safe_get_relevant_concepts.
    destruct (safe_get_loop _ _ _ _ _ _ st) as [[rel|e] st1] eqn:Hg; [|done].
    apply safe_get_loop_source in Hg. apply IH. by apply Forall_app.
Qed.

Lemma topdown_step_source segment concepts api_key model max_tokens s st s' st' :
  topdown_step segment concepts api_key model max_tokens s st = (Ok (inl s'), st') →
  Forall (λ m, source m = "Top-down matching") (current_matches s').
Proof.
  unfold topdown_step.
  destruct (truthy (new_narrower_concepts concepts s)); simpl; [|done].
  unfold mbind, M_mbind, M_bind, tell. simpl.
  destruct (query_batches _ _ _ _ _ _ _) as [[relevant|e] st1] eqn:Hq; [|done].
  apply query_batches_source in Hq; [|done]. simpl.
  destruct (truthy relevant); simpl; [|done]. by intros [= <- <-].
Qed.

(** What the loop adds to [matches] is the concatenation of the matches of
    the levels it went through; each of them is a match of a pool concept
    that was not seen when the loop started and that a known concept
    lists as narrower. *)
Lemma topdown_loop_results top_concepts fuel segment concepts api_key model
    max_tokens s st ms st' :
  (∀ p, p ∈ current_matches s → concept p ∈ top_concepts ++ concepts) →
  topdown_loop fuel segment concepts api_key model max_tokens s st
  = (Ok (Some ms), st') →
  ∃ evs, log st' = log st ++ evs
    ∧ ms = matches s ++ concat (matched_lists evs)
    ∧ ∀ x, x ∈ concat (matched_lists evs) →
        concept x ∈ concepts
        ∧ source x = "Top-down matching"
        ∧ uri (concept x) ∉ seen_uris s
        ∧ ∃ p, p ∈ top_concepts ++ concepts ∧ uri (concept x) ∈ narrower p.
Proof.
  revert s st. induction fuel as [|fuel IH]; intros s st Hfront; simpl.
  { destruct (truthy (current_matches s)); simpl; [done|].
    intros [= <- <-]. exists []. rewrite !app_nil_r.
    split_and!; [done..|]. by intros x ?%elem_of_nil. }
  destruct (truthy (current_matches s)) eqn:Hcur; simpl; cycle 1.
  { intros [= <- <-]. exists []. rewrite !app_nil_r.
    split_and!; [done..|]. by intros x ?%elem_of_nil. }
  unfold mbind, M_mbind, M_bind.
  destruct (topdown_step segment concepts api_key model max_tokens s st)
    as [r1 st1] eqn:Hstep.
  pose proof Hstep as Hspec. apply topdown_step_spec in Hspec.
  destruct Hspec as [(_ & -> & ->) | (Hne & io & Hio & Hcases)].
  { intros [= <- <-]. exists []. rewrite !app_nil_r.
    split_and!; [done..|]. by intros x ?%elem_of_nil. }
  destruct Hcases as [(e & -> & Hlog) | (relevant & Hrel & Hlog & Hres)]; [done|].
  assert (Hlevel : ∀ x, x ∈ relevant →
            concept x ∈ concepts ∧ uri (concept x) ∉ seen_uris s
            ∧ ∃ p, p ∈ top_concepts ++ concepts ∧ uri (concept x) ∈ narrower p).
  { intros x (Hpool & Hout & p & Hp & Hu)%Hrel%new_narrower_elem.
    split_and!; [done..|]. exists (concept p). split; [by apply Hfront | done]. }
  destruct Hres as [[-> ->] | [Hnonempty ->]].
  - intros [= <- <-]. eexists. split; [exact Hlog|].
    simpl. rewrite matched_lists_app, (matched_lists_io io Hio). simpl.
    rewrite app_nil_r. split; [done|]. by intros x ?%elem_of_nil.
  - apply topdown_step_source in Hstep. simpl in Hstep.
    intros Hloop. apply IH in Hloop; cycle 1.
    { intros p Hp. simpl in Hp. apply elem_of_app. right.
      by destruct (Hlevel p Hp). }
    destruct Hloop as (evs & Hlog' & -> & Hall). simpl in *.
    exists ([EvLevel (new_narrower_concepts concepts s)] ++ io
            ++ [EvMatched relevant] ++ evs).
    split; [rewrite Hlog', Hlog, <- ?app_assoc; simpl; by rewrite <- ?app_assoc|].
    simpl. rewrite matched_lists_app, (matched_lists_io io Hio). simpl.
    split; [by rewrite <- app_assoc|].
    intros x [Hx | Hx]%elem_of_app.
    + destruct (Hlevel x Hx) as (? & ? & ?).
      rewrite Forall_forall in Hstep. split_and!; auto.
    + destruct (Hall x Hx) as (? & ? & Hseen & ?).
      split_and!; [done..| |done]. set_solver.
Qed.

(** X19. What [match_segment_topdown] returns is the concatenation, level by
    level, of the matches of the narrower levels: the matches of the root
    level are left out, and no returned match has the uri of a root
    match. *)
Theorem topdown_result_is_narrower_levels fuel segment concepts top_concepts
    api_key model max_tokens st ms st' :
  match_segment_topdown fuel segment concepts top_concepts
    api_key model max_tokens st = (Ok (Some ms), st') →
  ∃ io roots evs,
    log st' = log st ++ EvLevel top_concepts :: io ++ EvMatched roots :: evs
    ∧ Forall io_event io
    ∧ ms = concat (matched_lists evs)
    ∧ ∀ x, x ∈ ms → uri (concept x) ∉ matched_uris roots.
Proof.
  unfold match_segment_topdown, mbind, M_mbind, M_bind, tell. simpl.
  destruct (query_batches _ _ _ _ _ _ _) as [[top|e] st1] eqn:Hq; [|done].
  apply query_batches_spec in Hq as [(io & Hlog & Hio) Htop]. simpl in Hlog.
  simpl. destruct (truthy top) eqn:Ht; simpl.
  - intros Hloop.
    apply (topdown_loop_results top_concepts) in Hloop; cycle 1.
    { intros p Hp. simpl in Hp. apply elem_of_app. left.
      destruct (Htop top p eq_refl Hp) as [Hnil|?]; [|done].
      by apply elem_of_nil in Hnil. }
    destruct Hloop as (evs & Hlog' & -> & Hall). simpl in *.
    exists io, top, evs. split_and!; [|done|done|].
    + rewrite Hlog', Hlog, <- ?app_assoc; simpl; by rewrite <- ?app_assoc.
    + intros x Hx. by destruct (Hall x Hx) as (_ & _ & ? & _).
  - intros [= <- <-]. exists io, top, []. split_and!; [|done|done|].
    + rewrite Hlog, <- ?app_assoc; simpl; by rewrite <- ?app_assoc.
    + by intros x ?%elem_of_nil.
Qed.

(** X20. Every match [match_segment_topdown] returns is a match of a concept of
    the pool, with source 'Top-down matching', whose uri a top concept or
    a concept of the pool lists as narrower. *)
Theorem topdown_result_in_pool fuel segment concepts top_concepts
    api_key model max_tokens st ms st' :
  match_segment_topdown fuel segment concepts top_concepts
    api_key model max_tokens st = (Ok (Some ms), st') →
  ∀ x, x ∈ ms →
    concept x ∈ concepts
    ∧ source x = "Top-down matching"
    ∧ ∃ p, p ∈ top_concepts ++ concepts ∧ uri (concept x) ∈ narrower p.
Proof.
  unfold match_segment_topdown, mbind, M_mbind, M_bind, tell. simpl.
  destruct (query_batches _ _ _ _ _ _ _) as [[top|e] st1] eqn:Hq; [|done].
  apply query_batches_spec in Hq as [_ Htop].
  simpl. destruct (truthy top) eqn:Ht; simpl.
  - intros Hloop.
    apply (topdown_loop_results top_concepts) in Hloop; cycle 1.
    { intros p Hp. simpl in Hp. apply elem_of_app. left.
      destruct (Htop top p eq_refl Hp) as [Hnil|?]; [|done].
      by apply elem_of_nil in Hnil. }
    destruct Hloop as (evs & _ & -> & Hall). simpl.
    intros x Hx. destruct (Hall x Hx) as (? & ? & _ & ?). done.
  - intros [= <- <-]. by intros x ?%elem_of_nil.
Qed.

(** X21. With a model name that does not start with "gpt-" and at least one top
    concept, [match_segment_topdown] raises [ValueError] before any call
    to the service. *)
Theorem topdown_unsupported_model fuel segment concepts top_concepts
    api_key model max_tokens st :
  PyStr.startswith model "gpt-" = false →
  top_concepts ≠ [] →
  match_segment_topdown fuel segment concepts top_concepts
    api_key model max_tokens st
  = (Raise ValueError,
     {| world := world st; log := log st ++ [EvLevel top_concepts] |}).
Proof.
  intros Hmodel Hne. unfold match_segment_topdown.
  destruct (_batch_concept_labels_by_tokens _ _ _ _) as [|b batched] eqn:Hb.
  - exfalso.
    pose proof (label_batches_concat
                  (_generate_concept_labels top_concepts) (text segment)
                  model max_tokens) as Hcat.
    rewrite Hb in Hcat. simpl in Hcat.
    destruct top_concepts; [done | discriminate].
  - unfold mbind, M_mbind, M_bind, tell. simpl.
    unfold mbind, M_mbind, M_bind, _safe_get_relevant_concepts. simpl.
    unfold mbind, M_mbind, M_bind, chat_router__chat. by rewrite Hmodel.
Qed.

End TopdownResults.

Lemma topdown_result_is_narrower_levels_witness :
  let script := ApiContent <$> (Scripted.array_of <$> [["A"]; ["B"]]) in
  let st := Scripted.init script in
  let run :=
    @match_segment_topdown _ (Scripted.env script) 2
      (Scripted.segment "We were taken to the camp.")
      [concept_A; concept_B; concept_C] [concept_A; concept_C]
      "key" "gpt-4.1" 800000 st in
  ∃ io (roots : list (@MatchedConcept Scripted.float)) evs,
    log run.2 = log st ++ EvLevel [concept_A; concept_C] :: io
                  ++ EvMatched roots :: evs
    ∧ Forall io_event io
    ∧ [@topdown_match Scripted.float concept_B] = concat (@matched_lists _ (Scripted.env script) evs)
    ∧ ∀ x, x ∈ [@topdown_match Scripted.float concept_B] → uri (concept x) ∉ matched_uris roots.
Proof.
  intros script st run.
  apply (@topdown_result_is_narrower_levels _ (Scripted.env script) 2
           (Scripted.segment "We were taken to the camp.")
           [concept_A; concept_B; concept_C] [concept_A; concept_C]
           "key" "gpt-4.1" 800000 st [@topdown_match Scripted.float concept_B] run.2).
  reflexivity.
Defined.

Lemma topdown_result_in_pool_witness :
  let x := @topdown_match Scripted.float concept_B in
  concept x ∈ [concept_A; concept_B; concept_C]
  ∧ source x = "Top-down matching"
  ∧ ∃ p, p ∈ [concept_A; concept_C] ++ [concept_A; concept_B; concept_C]
         ∧ uri (concept x) ∈ narrower p.
Proof.
  intros x.
  set (script := ApiContent <$> (Scripted.array_of <$> [["A"]; ["B"]])).
  set (st := Scripted.init script).
  set (run := @match_segment_topdown _ (Scripted.env script) 2
      (Scripted.segment "We were taken to the camp.")
      [concept_A; concept_B; concept_C] [concept_A; concept_C]
      "key" "gpt-4.1" 800000 st).
  apply (@topdown_result_in_pool _ (Scripted.env script) 2
           (Scripted.segment "We were taken to the camp.")
           [concept_A; concept_B; concept_C] [concept_A; concept_C]
           "key" "gpt-4.1" 800000 st [x] run.2).
  - reflexivity.
  - apply elem_of_cons. by left.
Defined.

Lemma topdown_unsupported_model_witness :
  let st := Scripted.init [] in
  @match_segment_topdown _ (Scripted.env []) 2
    (Scripted.segment "We were taken to the camp.")
    [concept_A; concept_B] [concept_A] "key" "o3-mini" 800000 st
  = (Raise ValueError,
     {| world := world st; log := log st ++ [EvLevel [concept_A]] |}).
Proof.
  intros st.
  apply (@topdown_unsupported_model _ (Scripted.env []) 2
           (Scripted.segment "We were taken to the camp.")
           [concept_A; concept_B] [concept_A] "key" "o3-mini" 800000 st).
  - reflexivity.
  - discriminate.
Defined.

(** ** matching.py: the embedding matcher outside [1 <= top_k] *)


Lemma mapM_result_raise {A B} (f : A → result B) (l : list A) (e : exn) (x : A) :
  (∀ y e', y ∈ l → f y = Raise e' → e' = e) →
  x ∈ l → f x = Raise e → mapM f l = Raise e.
Proof.
  induction l as [|y l IH]; intros Hall Hin Hx.
  - by apply elem_of_nil in Hin.
  - simpl. destruct (f y) as [z|e'] eqn:Hy; simpl.
    + apply elem_of_cons in Hin as [-> | Hin]; [congruence|].
      rewrite IH; [done| |done..].
      intros y' e' Hy'. apply Hall. apply elem_of_cons. by right.
    + f_equal. apply (Hall y e'); [apply elem_of_cons; by left | done].
Qed.

Section EmbeddingEdges.
Context `{Externals}.


(** X23. The concept list is indexed by the positions of the similarity row: a
    selected index beyond the end of the concept list raises
    [IndexError], and no candidate is returned, not even those of the
    indices that are in range. *)
Theorem embeddings_short_concept_list embedded_segment embedded_concepts
    (concepts : list ThesaurusConcept) (top_k : Z) (i : nat) :
  let sims := cosine_similarity_row embedded_segment embedded_concepts in
  i ∈ slice_last top_k (argsort sims) →
  (length concepts ≤ i)%nat →
  match_segment_to_thesaurus_based_on_embeddings
    embedded_segment embedded_concepts concepts top_k = Raise IndexError.
Proof.
  intros sims Hi Hout.
  unfold match_segment_to_thesaurus_based_on_embeddings. fold sims.
  apply (mapM_result_raise _ _ _ i).
  - intros y e' _. destruct (concepts !! y), (sims !! y); congruence.
  - by rewrite elem_of_reverse.
  - by rewrite (lookup_ge_None_2 concepts i).
Qed.

End EmbeddingEdges.


Lemma embeddings_short_concept_list_witness :
  @match_segment_to_thesaurus_based_on_embeddings _ (Scripted.env [])
    [] [(3, 1%nat); (9, 1%nat); (5, 1%nat)] [concept_A; concept_B] 2
  = Raise IndexError.
Proof.
  apply (@embeddings_short_concept_list _ (Scripted.env [])
           [] [(3, 1%nat); (9, 1%nat); (5, 1%nat)] [concept_A; concept_B] 2 2%nat).
  - by apply (bool_decide_unpack _).
  - simpl. lia.
Defined.

(** ** segments.py: selection of segments *)

Section SelectionFacts.
Context `{Externals} `{!PyFloatArith}.
Implicit Types (batch selected : list Segment) (st : State).

Lemma select_loop_extends batch items selected :
  ∃ picked, select_loop batch items selected = selected ++ picked
            ∧ ∀ s, s ∈ picked → s ∈ batch.
Proof.
  revert selected. induction items as [|i items IH]; intros selected; simpl.
  - exists []. rewrite app_nil_r. split; [done|]. by intros s ?%elem_of_nil.
  - destruct (classify_index _ i) as [n| |].
    + destruct (batch !! Z.to_nat n) as [segment|] eqn:Hn.
      * destruct (IH (selected ++ [segment])) as (picked & -> & Hin).
        exists (segment :: picked). rewrite <- app_assoc. split; [done|].
        intros s [-> | ?]%elem_of_cons; [by eapply list_elem_of_lookup_2 | auto].
      * exists []. rewrite app_nil_r. split; [done|]. by intros s ?%elem_of_nil.
    + apply IH.
    + exists []. rewrite app_nil_r. split; [done|]. by intros s ?%elem_of_nil.
Qed.

Lemma select_from_response_extends batch response_text selected :
  ∃ picked, select_from_response batch response_text selected = selected ++ picked
            ∧ ∀ s, s ∈ picked → s ∈ batch.
Proof.
  unfold select_from_response.
  destruct (_clean_json_output response_text) as [clean|e];
    [destruct (json_loads clean) as [parsed|]|];
    [apply select_loop_extends|..];
    (exists []; rewrite app_nil_r; split; [done|]; by intros s ?%elem_of_nil).
Qed.

Lemma select_batches_extends batched api_key model selected st selected' st' :
  select_batches batched api_key model selected st = (Ok selected', st') →
  ∃ picks, selected' = selected ++ concat picks
           ∧ Forall2 (λ batch pick, ∀ s, s ∈ pick → s ∈ batch) batched picks.
Proof.
  revert selected st. induction batched as [|batch batched IH];
    intros selected st; simpl.
  - intros [= <- <-]. exists []. simpl. by rewrite app_nil_r.
  - unfold mbind, M_mbind, M_bind.
    destruct (chat_router__chat _ _ _ _ st) as [[response|e] st1]; [|done].
    destruct (select_from_response_extends batch response selected)
      as (pick & -> & Hpick).
    intros (picks & -> & Hall)%IH.
    exists (pick :: picks). simpl. rewrite <- app_assoc. split; [done|].
    by constructor.
Qed.

(** X24. What [select_segments_to_be_enriched] returns is made of segments of
    its input only, batch by batch: first what was picked from the first
    batch, then from the second, and so on. Nothing is said about order
    or repetition inside a batch: the answer decides that. *)
Theorem select_segments_from_input segments api_key model max_tokens st
    selected st' :
  select_segments_to_be_enriched segments api_key model max_tokens st
  = (Ok selected, st') →
  (∃ picks, selected = concat picks
            ∧ Forall2 (λ batch pick, ∀ s, s ∈ pick → s ∈ batch)
                (_batch_segments_by_tokens segments model max_tokens) picks)
  ∧ ∀ s, s ∈ selected → s ∈ segments.
Proof.
  unfold select_segments_to_be_enriched.
  intros (picks & -> & Hall)%select_batches_extends. simpl.
  split; [by exists picks|].
  assert (Hcat : ∀ s, s ∈ concat (_batch_segments_by_tokens segments model max_tokens)
                      → s ∈ segments)
    by (by rewrite segment_batches_concat).
  intros s Hs. apply Hcat. clear Hcat. revert s Hs.
  induction Hall as [|batch pick batched picks Hp _ IH]; simpl.
  - by intros s ?%elem_of_nil.
  - intros s [?|?]%elem_of_app; apply elem_of_app; auto.
Qed.

(** X25. An answer made of integers selects, in the order of the answer, the
    segments at the indices that lie within the batch: an index outside
    [0, len(batch)) is passed over, negative ones too, and an index given
    twice selects its segment twice. *)
Theorem select_loop_integers batch (indices : list Z) selected :
  select_loop batch (JInt <$> indices) selected
  = selected
    ++ omap (λ n, if bool_decide (0 ≤ n < Z.of_nat (length batch))
                  then batch !! Z.to_nat n else None) indices.
Proof.
  revert selected. induction indices as [|n indices IH]; intros selected; simpl.
  - by rewrite app_nil_r.
  - case_bool_decide as Hn; simpl.
    + destruct (lookup_lt_is_Some_2 batch (Z.to_nat n)) as [segment Hs]; [lia|].
      rewrite Hs, IH. by rewrite <- app_assoc.
    + apply IH.
Qed.

(** X26. The [try] block spans the whole loop: at the first item of the answer
    that is not a number (or is a float within range), the loop is left,
    and the indices after that item select nothing. *)
Theorem select_loop_stops_at_bad_item batch (good rest : list json) (bad : json)
    selected :
  classify_index (Z.of_nat (length batch)) bad = IndexAbort →
  select_loop batch (good ++ bad :: rest) selected
  = select_loop batch good selected.
Proof.
  intros Hbad. revert selected.
  induction good as [|i good IH]; intros selected; simpl.
  - by rewrite Hbad.
  - destruct (classify_index _ i) as [n| |]; [|apply IH|done].
    destruct (batch !! Z.to_nat n); [apply IH | done].
Qed.

End SelectionFacts.

Lemma select_segments_from_input_witness :
  let script := [ApiContent "[1, 0, 1, 7]"] in
  let s0 := Scripted.segment "first" in
  let s1 := Scripted.segment "second" in
  let run :=
    @select_segments_to_be_enriched _ (index_env script) _
      [s0; s1] "key" "gpt-4.1" 800000 (index_init script) in
  (∃ picks, [s1; s0; s1] = concat picks
            ∧ Forall2 (λ batch pick, ∀ s, s ∈ pick → s ∈ batch)
                (@_batch_segments_by_tokens _ (index_env script)
                   [s0; s1] "gpt-4.1" 800000) picks)
  ∧ ∀ s, s ∈ [s1; s0; s1] → s ∈ [s0; s1].
Proof.
  intros script s0 s1 run.
  apply (@select_segments_from_input _ (index_env script) _
           [s0; s1] "key" "gpt-4.1" 800000 (index_init script)
           [s1; s0; s1] run.2).
  by vm_compute.
Defined.

Lemma select_loop_stops_at_bad_item_witness :
  let s0 := Scripted.segment "first" in
  let s1 := Scripted.segment "second" in
  @select_loop Scripted.float _ [s0; s1] ([JInt 1] ++ JStr "0" :: [JInt 0]) []
  = @select_loop Scripted.float _ [s0; s1] [JInt 1] [].
Proof.
  intros s0 s1.
  apply (@select_loop_stops_at_bad_item Scripted.float _
           [s0; s1] [JInt 1] [JInt 0] (JStr "0") []).
  reflexivity.
Defined.

(** ** segments.py: segments from boundaries *)

Section BoundaryFacts.
Context `{PyFloat}.
Implicit Types (caps : list Caption) (boundaries : list Z).

Lemma captions_at_seq caps (k : nat) (a : Z) :
  0 ≤ a → a + Z.of_nat k ≤ Z.of_nat (length caps) →
  captions_at caps (seqZ a (Z.of_nat k)) = take k (drop (Z.to_nat a) caps).
Proof.
  revert a. induction k as [|k IH]; intros a Ha Hle.
  - by rewrite seqZ_nil.
  - rewrite seqZ_cons by lia.
    replace (Z.pred (Z.of_nat (S k))) with (Z.of_nat k) by lia.
    unfold captions_at in *. simpl.
    rewrite bool_decide_eq_true_2 by lia.
    destruct (lookup_lt_is_Some_2 caps (Z.to_nat a)) as [x Hx]; [lia|].
    rewrite Hx. simpl. rewrite IH by lia.
    rewrite (drop_S _ _ _ Hx). simpl.
    by replace (Z.to_nat (Z.succ a)) with (S (Z.to_nat a)) by lia.
Qed.

Lemma captions_at_range caps (a b : Z) :
  0 ≤ a → a ≤ b → b ≤ Z.of_nat (length caps) →
  captions_at caps (seqZ a (b - a))
  = take (Z.to_nat (b - a)) (drop (Z.to_nat a) caps).
Proof.
  intros Ha Hab Hb.
  rewrite <- (Z2Nat.id (b - a)) at 1 by lia.
  apply captions_at_seq; lia.
Qed.

Lemma captions_at_miss caps (a b : Z) :
  b ≤ a ∨ Z.of_nat (length caps) ≤ a ∨ b ≤ 0 →
  captions_at caps (seqZ a (b - a)) = [].
Proof.
  intros Hmiss. unfold captions_at.
  assert (Hall : ∀ idx, idx ∈ seqZ a (b - a) →
            (if bool_decide (0 ≤ idx < Z.of_nat (length caps))
             then caps !! Z.to_nat idx else None) = None).
  { intros idx Hidx%elem_of_seqZ. rewrite bool_decide_eq_false_2; [done | lia]. }
  induction (seqZ a (b - a)) as [|idx l IH]; simpl; [done|].
  rewrite Hall by (apply elem_of_cons; by left).
  apply IH. intros idx' ?. apply Hall. apply elem_of_cons. by right.
Qed.

Lemma build_segment_ok caps (indices : list Z) :
  captions_at caps indices ≠ [] →
  ∃ segment, _build_segment_from_indices caps indices = Ok segment
             ∧ captions segment = captions_at caps indices.
Proof.
  unfold _build_segment_from_indices.
  destruct (captions_at caps indices) as [|c l] eqn:Hc; [done|]. intros _.
  destruct (last (c :: l)) as [final|] eqn:Hl.
  - eexists. split; [done|]. done.
  - by apply last_None in Hl.
Qed.

Lemma build_segment_raises caps (indices : list Z) e :
  _build_segment_from_indices caps indices = Raise e → e = ValueError.
Proof.
  unfold _build_segment_from_indices.
  destruct (captions_at caps indices) as [|c l]; [by intros [= <-]|].
  destruct (last (c :: l)); [done | by intros [= <-]].
Qed.

Lemma build_segment_empty caps (indices : list Z) :
  captions_at caps indices = [] →
  _build_segment_from_indices caps indices = Raise ValueError.
Proof. unfold _build_segment_from_indices. by intros ->. Qed.

Lemma boundaries_loop_ok caps boundaries (segments : list Segment) :
  increasing_within (Z.of_nat (length caps)) boundaries →
  ∃ new,
    boundaries_loop caps boundaries segments = Ok (segments ++ new)
    ∧ Forall2 (λ b segment, head (captions segment) = caps !! Z.to_nat b)
        boundaries new
    ∧ concat (captions <$> new)
      = match boundaries with
        | b :: _ => drop (Z.to_nat b) caps
        | [] => []
        end.
Proof.
  revert segments. induction boundaries as [|b rest IH]; intros segments; simpl.
  - intros _. exists []. by rewrite app_nil_r.
  - intros (Hb & Hlt & Hle & Hrest).
    fold (range_end (Z.of_nat (length caps)) rest).
    set (e := range_end (Z.of_nat (length caps)) rest) in *.
    assert (Hcaps : captions_at caps (seqZ b (e - b))
                    = take (Z.to_nat (e - b)) (drop (Z.to_nat b) caps))
      by (apply captions_at_range; lia).
    destruct (lookup_lt_is_Some_2 caps (Z.to_nat b)) as [x Hx]; [lia|].
    destruct (build_segment_ok caps (seqZ b (e - b))) as (segment & Hseg & Hcs).
    { rewrite Hcaps, (drop_S _ _ _ Hx).
      destruct (Z.to_nat (e - b)) eqn:Hn; [lia | done]. }
    rewrite Hseg. simpl.
    destruct (IH (segments ++ [segment]) Hrest) as (new & -> & Hheads & Hcat).
    exists (segment :: new). rewrite <- app_assoc. split_and!; [done| |].
    + constructor; [|done]. rewrite Hcs, Hcaps, (drop_S _ _ _ Hx), Hx.
      by destruct (Z.to_nat (e - b)) eqn:Hn; [lia|].
    + rewrite fmap_cons, concat_cons, Hcat, Hcs, Hcaps.
      destruct rest as [|next rest']; simpl.
      * rewrite app_nil_r. apply take_ge. rewrite length_drop. subst e. simpl. lia.
      * subst e. simpl in *.
        replace (Z.to_nat next) with (Z.to_nat b + Z.to_nat (next - b))%nat by lia.
        by rewrite <- drop_drop, take_drop.
Qed.

(** X27. Boundaries that are indices of the caption list in strictly increasing
    order cut it into consecutive segments, one for each boundary: the
    segment of a boundary starts with the caption at that index, and the
    captions of the segments, put end to end, are the captions from the
    first boundary on. The captions before the first boundary are in no
    segment. *)
Theorem boundaries_cut_the_captions caps boundaries :
  increasing_within (Z.of_nat (length caps)) boundaries →
  ∃ segments,
    create_segments_from_boundaries caps boundaries = Ok segments
    ∧ Forall2 (λ b segment, head (captions segment) = caps !! Z.to_nat b)
        boundaries segments
    ∧ concat (captions <$> segments)
      = match boundaries with
        | b :: _ => drop (Z.to_nat b) caps
        | [] => []
        end.
Proof.
  intros Hinc. unfold create_segments_from_boundaries.
  destruct (boundaries_loop_ok caps boundaries [] Hinc) as (new & Hrun & Hrest).
  by exists new.
Qed.

(** X28. A boundary whose range holds no index of the caption list (the next
    boundary is not larger, or the boundary is at or past the end, or the
    range is all negative) makes [create_segments_from_boundaries] raise
    [ValueError]: no segment is returned, also not those before it. *)
Theorem boundaries_empty_range_raises caps (before after : list Z) (b : Z) :
  let end_idx := range_end (Z.of_nat (length caps)) after in
  end_idx ≤ b ∨ Z.of_nat (length caps) ≤ b ∨ end_idx ≤ 0 →
  create_segments_from_boundaries caps (before ++ b :: after) = Raise ValueError.
Proof.
  intros end_idx Hmiss. unfold create_segments_from_boundaries.
  generalize (@nil Segment).
  induction before as [|b0 before IH]; intros segments.
  - simpl. fold (range_end (Z.of_nat (length caps)) after). fold end_idx.
    by rewrite build_segment_empty by (by apply captions_at_miss).
  - change (boundaries_loop caps ((b0 :: before) ++ b :: after) segments)
      with (segment ← _build_segment_from_indices caps
              (seqZ b0 (range_end (Z.of_nat (length caps)) (before ++ b :: after)
                        - b0));
            boundaries_loop caps (before ++ b :: after) (segments ++ [segment])).
    destruct (_build_segment_from_indices caps _) as [segment|e] eqn:Hseg; simpl.
    + apply IH.
    + by apply build_segment_raises in Hseg as ->.
Qed.

End BoundaryFacts.

Lemma boundaries_cut_the_captions_witness :
  let cap (t : string) : @Caption Scripted.float :=
    {| caption_start := (0, O); caption_end := (1, O); caption_text := t |} in
  let caps := [cap "a"; cap "b"; cap "c"; cap "d"] in
  ∃ segments,
    create_segments_from_boundaries caps [1; 3] = Ok segments
    ∧ Forall2 (λ b segment, head (captions segment) = caps !! Z.to_nat b)
        [1; 3] segments
    ∧ concat (captions <$> segments) = drop (Z.to_nat 1) caps.
Proof.
  intros cap caps.
  apply (@boundaries_cut_the_captions Scripted.float caps [1; 3]).
  simpl. lia.
Defined.

Lemma boundaries_empty_range_raises_witness :
  let cap (t : string) : @Caption Scripted.float :=
    {| caption_start := (0, O); caption_end := (1, O); caption_text := t |} in
  create_segments_from_boundaries [cap "a"; cap "b"; cap "c"] ([0] ++ 2 :: [2])
  = Raise ValueError.
Proof.
  intros cap.
  apply (@boundaries_empty_range_raises Scripted.float
           [cap "a"; cap "b"; cap "c"] [0] [2] 2).
  simpl. lia.
Defined.
